(** * Feishu gateway core: watermark filter, event deduplicator, reconnect
    loop, per-chat serial queue, inbound handler and chat batcher.

  Shallow embedding of [src/core/gateway.ts] and of the chat batcher
  ([createChatBatcher]).  Time stamps are integers (milliseconds), so the
  JavaScript [number]s of the source are modelled by [Z]; [Map]s whose
  iteration order is irrelevant are [gmap]s, the batcher's [Map] of chat
  states (iterated by [dispose]) is an insertion-ordered association list. *)

From Stdlib Require Import ZArith Lia.
From stdpp Require Import gmap strings list fin_maps.

Local Open Scope Z_scope.

(* ===================================================================== *)
(** ** Watermark filter ([chatWatermarks], [isStaleMessage], [updateWatermark]) *)
(* ===================================================================== *)

Module Watermark.

(** [chatWatermarks.get(chatId) ?? 0] *)
Definition watermarkOf (chatId : string) (chatWatermarks : gmap string Z) : Z :=
  default 0 (chatWatermarks !! chatId).

Definition isStaleMessage (chatId : string) (createTime : Z)
    (chatWatermarks : gmap string Z) : bool :=
  let watermark := watermarkOf chatId chatWatermarks in
  bool_decide (createTime <= watermark).

Definition updateWatermark (chatId : string) (createTime : Z)
    (chatWatermarks : gmap string Z) : gmap string Z :=
  let current := watermarkOf chatId chatWatermarks in
  if bool_decide (createTime > current)
  then <[chatId := createTime]> chatWatermarks
  else chatWatermarks.

End Watermark.

(* ===================================================================== *)
(** ** Event deduplicator ([processedEvents], [isDuplicateEvent],
     [cleanupDedupEntries]) *)
(* ===================================================================== *)

Module Dedup.

Definition DEDUP_WINDOW_MS : Z := 24 * 60 * 60 * 1000.
Definition DEDUP_CLEANUP_INTERVAL_MS : Z := 60 * 60 * 1000.

(** [DedupEntry] has the single field [timestamp]; the map stores it. *)
Definition isDuplicateEvent (now : Z) (eventId : string)
    (processedEvents : gmap string Z) : bool * gmap string Z :=
  match processedEvents !! eventId with
  | Some _ => (true, processedEvents)
  | None => (false, <[eventId := now]> processedEvents)
  end.

(** The entries the sweep keeps: those with [not (timestamp < cutoff)]. *)
Definition cleanupDedupEntries (now : Z) (processedEvents : gmap string Z)
    : gmap string Z :=
  let cutoff := now - DEDUP_WINDOW_MS in
  filter (λ kv : string * Z, ¬ (kv.2 < cutoff)) processedEvents.

(** [stopDedupCleanup] (shutdown): the map is cleared. *)
Definition stopDedupCleanup (processedEvents : gmap string Z) : gmap string Z := ∅.

(** What the running gateway does to the map: a handler calls
    [isDuplicateEvent], or the hourly interval calls the sweep; each at
    the wall-clock time it happens. *)
Inductive DedupOp :=
| OpCheck (now : Z) (eventId : string)
| OpSweep (now : Z).

Definition opTime (op : DedupOp) : Z :=
  match op with OpCheck now _ => now | OpSweep now => now end.

Definition applyOp (op : DedupOp) (m : gmap string Z) : gmap string Z :=
  match op with
  | OpCheck now eventId => (isDuplicateEvent now eventId m).2
  | OpSweep now => cleanupDedupEntries now m
  end.

Fixpoint applyOps (ops : list DedupOp) (m : gmap string Z) : gmap string Z :=
  match ops with
  | [] => m
  | op :: rest => applyOps rest (applyOp op m)
  end.

(** An operation leaves the entry of [e] alone unless it is a sweep run
    after the entry's window has elapsed. *)
Definition sparesEntry (t0 : Z) (op : DedupOp) : Prop :=
  match op with
  | OpCheck _ _ => True
  | OpSweep now => now <= t0 + DEDUP_WINDOW_MS
  end.

End Dedup.

(* ===================================================================== *)
(** ** Reconnect loop ([calculateBackoffDelay], [startWithReconnect]) *)
(* ===================================================================== *)

Module Reconnect.

Definition RECONNECT_BASE_DELAY_MS : Z := 1000.
Definition RECONNECT_MAX_DELAY_MS : Z := 60000.
Definition RECONNECT_MAX_ATTEMPTS : nat := 20.

Definition calculateBackoffDelay (attempt : nat) : Z :=
  let delay := RECONNECT_BASE_DELAY_MS * 2 ^ Z.of_nat attempt in
  Z.min delay RECONNECT_MAX_DELAY_MS.

(** The fields of [GatewayState] the loop reads and writes. *)
Record GatewayState := {
  reconnectAttempts : nat;
  isReconnecting : bool;
  shouldStop : bool;
}.

(** [startGateway] resets these before it enters the loop. *)
Definition resetState : GatewayState :=
  {| reconnectAttempts := 0; isReconnecting := false; shouldStop := false |}.

(** What the environment does during one pass of the loop body:
    whether [createWsClient]/[wsClient.start] succeeds, whether a stop is
    requested while that await (or the keep-alive promise) is pending, and
    whether one is requested during the back-off sleep. *)
Inductive Connect := Resolves | Rejects.

Record Attempt := {
  connect : Connect;
  stopWhilePending : bool;
  stopWhileSleeping : bool;
}.

(** How one pass of the loop body ends. *)
Inductive Pass :=
| Retry (delay : Z)   (* [await sleep(delay)], then back to the loop head *)
| Return              (* [return] *)
| Throw               (* [throw new Error("WebSocket connection failed ...")] *)
| Parked.             (* connected; the keep-alive promise never resolves *)

Definition requestStop (b : bool) (st : GatewayState) : GatewayState :=
  {| reconnectAttempts := reconnectAttempts st;
     isReconnecting := isReconnecting st;
     shouldStop := shouldStop st || b |}.

Definition loopBody (a : Attempt) (st : GatewayState) : GatewayState * Pass :=
  match connect a with
  | Resolves =>
      let st1 := {| reconnectAttempts := 0; isReconnecting := false;
                    shouldStop := shouldStop st || stopWhilePending a |} in
      if shouldStop st1 then (st1, Return) else (st1, Parked)
  | Rejects =>
      let st1 := {| reconnectAttempts := S (reconnectAttempts st);
                    isReconnecting := true;
                    shouldStop := shouldStop st || stopWhilePending a |} in
      if shouldStop st1 then (st1, Return)
      else if bool_decide (RECONNECT_MAX_ATTEMPTS ≤ reconnectAttempts st1)%nat
           then (st1, Throw)
           else (requestStop (stopWhileSleeping a) st1,
                 Retry (calculateBackoffDelay (reconnectAttempts st1)))
  end.

(** How the whole loop ends, with the delays it slept, in order.
    [Pending] : the script of attempts ran out with the loop still going. *)
Inductive Exit := Returned | Threw | Connected | Pending.

Fixpoint startWithReconnect (script : list Attempt) (st : GatewayState)
    : GatewayState * list Z * Exit :=
  if shouldStop st || negb (bool_decide (reconnectAttempts st < RECONNECT_MAX_ATTEMPTS)%nat)
  then (st, [], Returned)
  else
    match script with
    | [] => (st, [], Pending)
    | a :: rest =>
        match loopBody a st with
        | (st1, Retry delay) =>
            let '(st2, slept, e) := startWithReconnect rest st1 in
            (st2, delay :: slept, e)
        | (st1, Return) => (st1, [], Returned)
        | (st1, Throw) => (st1, [], Threw)
        | (st1, Parked) => (st1, [], Connected)
        end
    end.

Definition failing : Attempt :=
  {| connect := Rejects; stopWhilePending := false; stopWhileSleeping := false |}.

End Reconnect.

(* ===================================================================== *)
(** ** Per-chat serial queue ([enqueueMessage], [processQueue]) *)
(* ===================================================================== *)

Module SerialQueue.
Section WithJob.

(** A [QueuedMessage]: the event and its handler closure. *)
Context {Job : Type}.

Record ChatQueue := {
  messages : list Job;
  processing : bool;
}.

(** What the queue does, in the order it does it: logger lines and the
    calls of the handlers with the way each one settles. *)
Inductive Trace :=
| Queued (chatId : string) (size : nat)
| Started (chatId : string)
| Invoked (chatId : string) (job : Job)
| Resolved (chatId : string) (job : Job)
| ErrorLogged (chatId : string) (job : Job)
| Completed (chatId : string).

(** [awaiting] holds, per chat, the handler the chat's drain loop is
    suspended on ([await item.handler()]).  The [queue] object that loop
    captured is the map's entry for the chat: an entry is replaced only
    after it was deleted, and only the loop's own last statement deletes
    it ([clearAllQueues], run at shutdown, is not an event here). *)
Record Queues := {
  chatQueues : gmap string ChatQueue;
  awaiting : gmap string Job;
  trace : list Trace;
}.

Definition initial : Queues :=
  {| chatQueues := ∅; awaiting := ∅; trace := [] |}.

(** The [while] loop of [processQueue] from its head up to the next
    suspension ([await]) or to the end of the function. *)
Definition drain (chatId : string) (s : Queues) : Queues :=
  match chatQueues s !! chatId with
  | None => s
  | Some queue =>
      match messages queue with
      | item :: rest =>
          {| chatQueues :=
               <[chatId := {| messages := rest; processing := processing queue |}]>
                 (chatQueues s);
             awaiting := <[chatId := item]> (awaiting s);
             trace := trace s ++ [Invoked chatId item] |}
      | [] =>
          {| chatQueues := delete chatId (chatQueues s);
             awaiting := awaiting s;
             trace := trace s ++ [Completed chatId] |}
      end
  end.

Definition processQueue (chatId : string) (s : Queues) : Queues :=
  match chatQueues s !! chatId with
  | None => s
  | Some queue =>
      if processing queue then s
      else
        drain chatId
          {| chatQueues :=
               <[chatId := {| messages := messages queue; processing := true |}]>
                 (chatQueues s);
             awaiting := awaiting s;
             trace := trace s ++ [Started chatId] |}
  end.

Definition enqueueMessage (chatId : string) (job : Job) (s : Queues) : Queues :=
  let queue := default {| messages := []; processing := false |}
                       (chatQueues s !! chatId) in
  let queue1 := {| messages := messages queue ++ [job];
                   processing := processing queue |} in
  let s1 := {| chatQueues := <[chatId := queue1]> (chatQueues s);
               awaiting := awaiting s;
               trace := trace s ++ [Queued chatId (length (messages queue1))] |} in
  if processing queue1 then s1 else processQueue chatId s1.

(** The awaited handler of a chat settles: [ok = false] is the [catch]
    branch, which logs and falls through to the loop head like the
    normal path. *)
Definition settle (chatId : string) (ok : bool) (s : Queues) : Queues :=
  match awaiting s !! chatId with
  | None => s
  | Some item =>
      drain chatId
        {| chatQueues := chatQueues s;
           awaiting := delete chatId (awaiting s);
           trace := trace s ++ [if ok then Resolved chatId item
                                else ErrorLogged chatId item] |}
  end.

Inductive Event :=
| Enqueue (chatId : string) (job : Job)
| Settle (chatId : string) (ok : bool).

Definition step (s : Queues) (e : Event) : Queues :=
  match e with
  | Enqueue chatId job => enqueueMessage chatId job s
  | Settle chatId ok => settle chatId ok s
  end.

Definition run (events : list Event) : Queues := fold_left step events initial.

(** Projections used to state ordering. *)
Definition enqueuedFor (chatId : string) (events : list Event) : list Job :=
  omap (λ e, match e with
             | Enqueue c job => if decide (c = chatId) then Some job else None
             | Settle _ _ => None
             end) events.

Definition invokedFor (chatId : string) (t : list Trace) : list Job :=
  omap (λ e, match e with
             | Invoked c job => if decide (c = chatId) then Some job else None
             | _ => None
             end) t.

Definition pendingFor (chatId : string) (s : Queues) : list Job :=
  match chatQueues s !! chatId with
  | Some queue => messages queue
  | None => []
  end.

(** A chat's part of the trace is serial when its handler calls never
    overlap: [serialFrom running t] reads the trace with [running] the
    handler that is in flight, and fails ([None]) on a call made while
    one is in flight or on a settlement that is not the in-flight call's;
    otherwise it returns what is in flight at the end. *)
Fixpoint serialFrom (chatId : string) (running : bool) (t : list Trace)
    : option bool :=
  match t with
  | [] => Some running
  | Invoked c _ :: rest =>
      if decide (c = chatId)
      then (if running then None else serialFrom chatId true rest)
      else serialFrom chatId running rest
  | Resolved c _ :: rest | ErrorLogged c _ :: rest =>
      if decide (c = chatId)
      then (if running then serialFrom chatId false rest else None)
      else serialFrom chatId running rest
  | _ :: rest => serialFrom chatId running rest
  end.

(** What holds of every state the machine reaches. *)
Record Inv (events : list Event) (s : Queues) : Prop := {
  inv_loop : ∀ c, is_Some (chatQueues s !! c) ↔ is_Some (awaiting s !! c);
  inv_processing : ∀ c q, chatQueues s !! c = Some q → processing q = true;
  inv_serial : ∀ c,
    serialFrom c false (trace s) = Some (bool_decide (is_Some (awaiting s !! c)));
  inv_fifo : ∀ c,
    enqueuedFor c events = invokedFor c (trace s) ++ pendingFor c s;
}.

End WithJob.
Arguments ChatQueue : clear implicits.
Arguments Trace : clear implicits.
Arguments Queues : clear implicits.
Arguments Event : clear implicits.
End SerialQueue.

(* ===================================================================== *)
(** ** Inbound handler ([im.message.receive_v1]) up to the enqueue *)
(* ===================================================================== *)

Module Handler.

Definition MAX_MESSAGE_AGE_MS : Z := 5 * 60 * 1000.

(** The fields of the event the handler reads.  [create_time] is the
    value of [Number(event.message?.create_time)]: [None] stands for NaN
    (field absent or not numeric). *)
Record Message := {
  message_id : option string;
  chat_id : option string;
  create_time : option Z;
}.

Record MessageReceivedEvent := {
  event_id : option string;
  message : option Message;
}.

Record Maps := {
  processedEvents : gmap string Z;
  chatWatermarks : gmap string Z;
}.

Inductive Outcome :=
| SkippedDuplicate (dedupKey : string)
| SkippedWatermark (chatId : string)
| SkippedAge
| Enqueued (queueChatId : string).

(** JavaScript truthiness of an optional string and of a number. *)
Definition truthyString (s : option string) : bool :=
  match s with Some s => negb (bool_decide (s = "")) | None => false end.
Definition truthyNumber (n : option Z) : bool :=
  match n with Some z => negb (bool_decide (z = 0)) | None => false end.

(** [event.event_id ?? event.message?.message_id] *)
Definition dedupKeyOf (event : MessageReceivedEvent) : option string :=
  match event_id event with
  | Some k => Some k
  | None => message event ≫= message_id
  end.

(** The handler up to its call of [enqueueMessage]; [now] is [Date.now()].
    The [default]s below are only read under the truthiness test of the
    same value. *)
Definition receive (now : Z) (event : MessageReceivedEvent) (s : Maps)
    : Maps * Outcome :=
  let dedupKey := dedupKeyOf event in
  let '(dup, pe) :=
    if truthyString dedupKey
    then Dedup.isDuplicateEvent now (default "" dedupKey) (processedEvents s)
    else (false, processedEvents s) in
  let s1 := {| processedEvents := pe; chatWatermarks := chatWatermarks s |} in
  if dup then (s1, SkippedDuplicate (default "" dedupKey))
  else
    let chatId := message event ≫= chat_id in
    let messageCreateTime := message event ≫= create_time in
    if truthyString chatId && truthyNumber messageCreateTime
       && Watermark.isStaleMessage (default "" chatId) (default 0 messageCreateTime)
            (chatWatermarks s1)
    then (s1, SkippedWatermark (default "" chatId))
    else if truthyNumber messageCreateTime
            && bool_decide (now - default 0 messageCreateTime > MAX_MESSAGE_AGE_MS)
    then (s1, SkippedAge)
    else
      let s2 :=
        if truthyString chatId && truthyNumber messageCreateTime
        then {| processedEvents := processedEvents s1;
                chatWatermarks :=
                  Watermark.updateWatermark (default "" chatId)
                    (default 0 messageCreateTime) (chatWatermarks s1) |}
        else s1 in
      let queueChatId := default "unknown" chatId in
      (s2, Enqueued queueChatId).

Definition empty : Maps := {| processedEvents := ∅; chatWatermarks := ∅ |}.

(** An event that carries neither [event_id] nor [message.message_id], but
    a chat id and a create time. *)
Definition unidentified : MessageReceivedEvent :=
  {| event_id := None;
     message := Some {| message_id := None; chat_id := Some "oc_1";
                        create_time := Some 1000 |} |}.

End Handler.

(* ===================================================================== *)
(** ** Chat batcher ([createChatBatcher]) *)
(* ===================================================================== *)

Module Batcher.

Definition STARTUP_WAIT_MS : Z := 10000.
Definition IDLE_THRESHOLD_MS : Z := 1000.
Definition DEBOUNCE_MS : Z := 500.

(** The fields of [ParsedMessage] the batcher and its callers read. *)
Record ParsedMessage := {
  chatId : string;
  messageId : string;
  content : string;
}.

Record BatchFlushEvent := {
  flushChatId : string;
  flushMessages : list ParsedMessage;
  triggeredBy : string;
  triggeredAt : Z;
}.

(** Timers are held by handle; [None] is [undefined]. *)
Record ChatState := {
  buffer : list ParsedMessage;
  hasTrigger : bool;
  triggerId : option string;
  debounceTimer : option nat;
  idleTimer : option nat;
  lastMessageAt : Z;
}.

(** The two closures handed to [setTimeout].  The idle closure captures
    the [state] object (a reference into [heap]), the debounce closure
    only the chat id and the trigger id. *)
Inductive Callback :=
| IdleTimeout (chat : string) (state : nat)
| DebounceTimeout (chat : string) (trigger : string).

Record Timer := {
  handle : nat;
  deadline : Z;
  callback : Callback;
}.

(** How the promise returned by the registered flush callback settles. *)
Inductive Settled := Fulfilled | Rejected.

(** The closure state of one batcher together with the host's clock and
    pending timers.  [heap] holds the [ChatState] objects, [chatStates]
    is the [Map] from chat id to object in insertion order, [calls] the
    invocations of the flush callback so far. *)
Record Batcher := {
  startedAt : Z;
  clock : Z;
  heap : list ChatState;
  chatStates : list (string * nat);
  timers : list Timer;
  nextHandle : nat;
  flushCallback : option (BatchFlushEvent → Settled);
  calls : list (BatchFlushEvent * Settled);
}.

Definition createChatBatcher (startedAt now : Z) : Batcher :=
  {| startedAt := startedAt; clock := now; heap := []; chatStates := [];
     timers := []; nextHandle := 0; flushCallback := None; calls := [] |}.

(** *** Field updates *)

Definition withHeap (h : list ChatState) (b : Batcher) : Batcher :=
  {| startedAt := startedAt b; clock := clock b; heap := h;
     chatStates := chatStates b; timers := timers b;
     nextHandle := nextHandle b; flushCallback := flushCallback b;
     calls := calls b |}.

Definition withChatStates (m : list (string * nat)) (b : Batcher) : Batcher :=
  {| startedAt := startedAt b; clock := clock b; heap := heap b;
     chatStates := m; timers := timers b;
     nextHandle := nextHandle b; flushCallback := flushCallback b;
     calls := calls b |}.

Definition withTimers (t : list Timer) (b : Batcher) : Batcher :=
  {| startedAt := startedAt b; clock := clock b; heap := heap b;
     chatStates := chatStates b; timers := t;
     nextHandle := nextHandle b; flushCallback := flushCallback b;
     calls := calls b |}.

Definition withClock (now : Z) (b : Batcher) : Batcher :=
  {| startedAt := startedAt b; clock := now; heap := heap b;
     chatStates := chatStates b; timers := timers b;
     nextHandle := nextHandle b; flushCallback := flushCallback b;
     calls := calls b |}.

Definition setState (ref : nat) (st : ChatState) (b : Batcher) : Batcher :=
  withHeap (<[ref := st]> (heap b)) b.

(** *** The host's timers *)

Definition setTimeout (cb : Callback) (delay : Z) (b : Batcher) : nat * Batcher :=
  let h := nextHandle b in
  (h, {| startedAt := startedAt b; clock := clock b; heap := heap b;
         chatStates := chatStates b;
         timers := timers b ++ [{| handle := h; deadline := clock b + delay;
                                   callback := cb |}];
         nextHandle := S h; flushCallback := flushCallback b;
         calls := calls b |}).

Definition clearTimeout (h : nat) (b : Batcher) : Batcher :=
  withTimers (filter (λ t, handle t ≠ h) (timers b)) b.

(** *** [Map] operations on [chatStates] *)

Fixpoint mapGet (chat : string) (m : list (string * nat)) : option nat :=
  match m with
  | [] => None
  | (c, ref) :: rest => if decide (c = chat) then Some ref else mapGet chat rest
  end.

Definition mapDelete (chat : string) (m : list (string * nat)) : list (string * nat) :=
  filter (λ e, e.1 ≠ chat) m.

(** *** The batcher's functions *)

Definition clearTimers (ref : nat) (b : Batcher) : Batcher :=
  match heap b !! ref with
  | None => b
  | Some st =>
      let b1 := match debounceTimer st with
                | Some h => clearTimeout h b
                | None => b
                end in
      let b2 := match idleTimer st with
                | Some h => clearTimeout h b1
                | None => b1
                end in
      setState ref {| buffer := buffer st; hasTrigger := hasTrigger st;
                      triggerId := triggerId st; debounceTimer := None;
                      idleTimer := None; lastMessageAt := lastMessageAt st |} b2
  end.

(** [await flushCallback?.(event)]: the last statement of [flush]. *)
Definition invokeCallback (event : BatchFlushEvent) (b : Batcher) : Batcher :=
  match flushCallback b with
  | None => b
  | Some cb =>
      {| startedAt := startedAt b; clock := clock b; heap := heap b;
         chatStates := chatStates b; timers := timers b;
         nextHandle := nextHandle b; flushCallback := flushCallback b;
         calls := calls b ++ [(event, cb event)] |}
  end.

(** [flush] up to the callback: the batcher as the callback finds it,
    and the event built for it ([None] on the early return). *)
Definition capture (chat trigger : string) (b : Batcher)
    : Batcher * option BatchFlushEvent :=
  match mapGet chat (chatStates b) with
  | None => (b, None)
  | Some ref =>
      match heap b !! ref with
      | None => (b, None)
      | Some st =>
          match buffer st with
          | [] => (b, None)
          | _ :: _ =>
              let event := {| flushChatId := chat; flushMessages := buffer st;
                              triggeredBy := trigger; triggeredAt := clock b |} in
              let b1 := setState ref
                          {| buffer := []; hasTrigger := false; triggerId := None;
                             debounceTimer := debounceTimer st;
                             idleTimer := idleTimer st;
                             lastMessageAt := lastMessageAt st |} b in
              (clearTimers ref b1, Some event)
          end
      end
  end.

Definition flush (chat trigger : string) (b : Batcher) : Batcher :=
  match capture chat trigger b with
  | (b1, Some event) => invokeCallback event b1
  | (b1, None) => b1
  end.

Definition isInStartupPeriod (b : Batcher) : bool :=
  bool_decide (clock b - startedAt b < STARTUP_WAIT_MS).

Definition startIdleTimer (chat : string) (ref : nat) (b : Batcher) : Batcher :=
  match heap b !! ref with
  | None => b
  | Some st =>
      let b1 := match idleTimer st with
                | Some h => clearTimeout h b
                | None => b
                end in
      let '(h, b2) := setTimeout (IdleTimeout chat ref) IDLE_THRESHOLD_MS b1 in
      setState ref {| buffer := buffer st; hasTrigger := hasTrigger st;
                      triggerId := triggerId st;
                      debounceTimer := debounceTimer st;
                      idleTimer := Some h; lastMessageAt := lastMessageAt st |} b2
  end.

Definition startDebounceTimer (chat : string) (ref : nat) (trigger : string)
    (b : Batcher) : Batcher :=
  match heap b !! ref with
  | None => b
  | Some st =>
      let b1 := match debounceTimer st with
                | Some h => clearTimeout h b
                | None => b
                end in
      let '(h, b2) := setTimeout (DebounceTimeout chat trigger) DEBOUNCE_MS b1 in
      setState ref {| buffer := buffer st; hasTrigger := hasTrigger st;
                      triggerId := triggerId st;
                      debounceTimer := Some h;
                      idleTimer := idleTimer st; lastMessageAt := lastMessageAt st |} b2
  end.

Definition getOrCreateState (chat : string) (b : Batcher) : nat * Batcher :=
  match mapGet chat (chatStates b) with
  | Some ref => (ref, b)
  | None =>
      let ref := length (heap b) in
      let st := {| buffer := []; hasTrigger := false; triggerId := None;
                   debounceTimer := None; idleTimer := None; lastMessageAt := 0 |} in
      (ref, withChatStates (chatStates b ++ [(chat, ref)])
              (withHeap (heap b ++ [st]) b))
  end.

Definition push (message : ParsedMessage) (b : Batcher) : Batcher :=
  let '(ref, b1) := getOrCreateState (chatId message) b in
  match heap b1 !! ref with
  | None => b1
  | Some st =>
      let b2 := setState ref
                  {| buffer := buffer st ++ [message]; hasTrigger := hasTrigger st;
                     triggerId := triggerId st; debounceTimer := debounceTimer st;
                     idleTimer := idleTimer st; lastMessageAt := clock b1 |} b1 in
      startIdleTimer (chatId message) ref b2
  end.

Definition trigger (chat : string) (id : string) (b : Batcher) : Batcher :=
  let '(ref, b1) := getOrCreateState chat b in
  match heap b1 !! ref with
  | None => b1
  | Some st =>
      let b2 := setState ref
                  {| buffer := buffer st; hasTrigger := true;
                     triggerId := Some id; debounceTimer := debounceTimer st;
                     idleTimer := idleTimer st; lastMessageAt := lastMessageAt st |} b1 in
      startDebounceTimer chat ref id b2
  end.

Definition clear (chat : string) (b : Batcher) : Batcher :=
  match mapGet chat (chatStates b) with
  | None => b
  | Some ref =>
      let b1 := clearTimers ref b in
      withChatStates (mapDelete chat (chatStates b1)) b1
  end.

(** [for (const state of chatStates.values()) clearTimers(state)] *)
Fixpoint clearAll (entries : list (string * nat)) (b : Batcher) : Batcher :=
  match entries with
  | [] => b
  | (_, ref) :: rest => clearAll rest (clearTimers ref b)
  end.

Definition dispose (b : Batcher) : Batcher :=
  withChatStates [] (clearAll (chatStates b) b).

Definition onFlush (cb : BatchFlushEvent → Settled) (b : Batcher) : Batcher :=
  {| startedAt := startedAt b; clock := clock b; heap := heap b;
     chatStates := chatStates b; timers := timers b;
     nextHandle := nextHandle b; flushCallback := Some cb;
     calls := calls b |}.

(** *** Timer callbacks and the passage of time *)

Definition runCallback (cb : Callback) (b : Batcher) : Batcher :=
  match cb with
  | IdleTimeout chat ref =>
      match heap b !! ref with
      | None => b
      | Some st =>
          if hasTrigger st && negb (isInStartupPeriod b)
          then flush chat (default "idle-timeout" (triggerId st)) b
          else b
      end
  | DebounceTimeout chat trigger => flush chat trigger b
  end.

(** The pending timer that fires next: the least deadline, the one set
    first among equal deadlines. *)
Fixpoint earliest (l : list Timer) : option Timer :=
  match l with
  | [] => None
  | t :: rest =>
      match earliest rest with
      | None => Some t
      | Some t' => if bool_decide (deadline t <= deadline t') then Some t else Some t'
      end
  end.

Definition nextDue (target : Z) (l : list Timer) : option Timer :=
  match earliest l with
  | Some t => if bool_decide (deadline t <= target) then Some t else None
  | None => None
  end.

(** The host fires timer [t]: it leaves the pending set, the clock reads
    its deadline (never earlier than before), its closure runs. *)
Definition fire (t : Timer) (b : Batcher) : Batcher :=
  runCallback (callback t)
    (withClock (Z.max (clock b) (deadline t)) (clearTimeout (handle t) b)).

Fixpoint fireDue (fuel : nat) (target : Z) (b : Batcher) : Batcher :=
  match fuel with
  | O => b
  | S fuel' =>
      match nextDue target (timers b) with
      | None => b
      | Some t => fireDue fuel' target (fire t b)
      end
  end.

(** [ms] milliseconds pass: every timer due by then fires, in order.
    No callback of the batcher sets a timer, so one round per pending
    timer is enough ([BatcherFacts.fireDue_complete]). *)
Definition advance (ms : Z) (b : Batcher) : Batcher :=
  let target := clock b + ms in
  withClock (Z.max (clock b) target) (fireDue (length (timers b)) target b).

(** *** Scripts: calls of the public API interleaved with time *)

Inductive Step :=
| Push (message : ParsedMessage)
| Trigger (chat : string) (id : string)
| Clear (chat : string)
| Dispose
| OnFlush (cb : BatchFlushEvent → Settled)
| Advance (ms : Z).

Definition step (b : Batcher) (s : Step) : Batcher :=
  match s with
  | Push message => push message b
  | Trigger chat id => trigger chat id b
  | Clear chat => clear chat b
  | Dispose => dispose b
  | OnFlush cb => onFlush cb b
  | Advance ms => advance ms b
  end.

Definition run (script : list Step) (b : Batcher) : Batcher :=
  fold_left step script b.

(** A message that marks its chat for a reply: the caller pushes it and
    calls [trigger] with its id. *)
Definition triggering (message : ParsedMessage) : list Step :=
  [Push message; Trigger (chatId message) (messageId message)].

Definition msg (chat id : string) : ParsedMessage :=
  {| chatId := chat; messageId := id; content := id |}.


(** *** Concrete batchers and scripts used below *)

Definition accepting : BatchFlushEvent → Settled := λ _, Fulfilled.
Definition rejecting : BatchFlushEvent → Settled := λ _, Rejected.



(** A chat with one message buffered and marked, and a callback that fails. *)
Definition armed : Batcher :=
  run (OnFlush rejecting :: triggering (msg "oc_1" "m1")) (createChatBatcher 0 0).


(** A mark set first, its message arriving 600 ms later. *)
Definition triggeredThenPushed : list Step :=
  [Trigger "oc_1" "t1"; Advance 600; Push (msg "oc_1" "m1"); Advance 20000].

(** Messages at 0 ms (marked), 500 ms and 1000 ms, then silence. *)
Definition threeMessages : list Step :=
  triggering (msg "oc_1" "m0")
  ++ [Advance 500; Push (msg "oc_1" "m1");
      Advance 500; Push (msg "oc_1" "m2"); Advance 2500].


(** The same three messages, each of them marked. *)
Definition threeTriggers : list Step :=
  triggering (msg "oc_1" "m0") ++ [Advance 500]
  ++ triggering (msg "oc_1" "m1") ++ [Advance 500]
  ++ triggering (msg "oc_1" "m2") ++ [Advance 2500].



End Batcher.

(* ===================================================================== *)
(** ** Sequences of gateway operations and shutdown ([stopGateway]) *)
(* ===================================================================== *)

Module Pipeline.

(** [updateWatermark] called for a series of accepted messages. *)
Definition updateAll (accepted : list (string * Z)) (chatWatermarks : gmap string Z)
    : gmap string Z :=
  fold_left (λ m a, Watermark.updateWatermark a.1 a.2 m) accepted chatWatermarks.

(** The create times accepted for one chat, in order. *)
Definition timesFor (chatId : string) (accepted : list (string * Z)) : list Z :=
  omap (λ a, if decide (a.1 = chatId) then Some a.2 else None) accepted.

(** The handler run on a series of deliveries, each at its own time. *)
Definition receiveAll (deliveries : list (Z * Handler.MessageReceivedEvent))
    (s : Handler.Maps) : Handler.Maps :=
  fold_left (λ s d, (Handler.receive d.1 d.2 s).1) deliveries s.

Definition chatOf (event : Handler.MessageReceivedEvent) : option string :=
  Handler.message event ≫= Handler.chat_id.

Definition timeOf (event : Handler.MessageReceivedEvent) : option Z :=
  Handler.message event ≫= Handler.create_time.

(** [event] carries a usable chat id and create time: the handler then
    consults and advances the chat's watermark. *)
Definition watermarked (event : Handler.MessageReceivedEvent) : bool :=
  Handler.truthyString (chatOf event) && Handler.truthyNumber (timeOf event).

(** The module state [stopGateway] writes, together with the watermark
    map, which it leaves alone.  [batchProcessor] and [wsClient] record
    whether the field is non-null ([dispose] is called on a non-null
    processor before the field is nulled), [dedupCleanupTimer] whether the
    interval is set, [chatHistories] which chats have a history. *)
Section WithJob.
Context {Job : Type}.

Record Gateway := {
  conn : Reconnect.GatewayState;
  botOpenId : option string;
  botName : option string;
  wsClient : bool;
  batchProcessor : bool;
  chatHistories : gset string;
  dedupCleanupTimer : bool;
  maps : Handler.Maps;
  chatQueues : gmap string (SerialQueue.ChatQueue Job);
}.

Definition stopGateway (g : Gateway) : Gateway :=
  {| conn := {| Reconnect.reconnectAttempts := 0;
                Reconnect.isReconnecting := false;
                Reconnect.shouldStop := true |};
     botOpenId := None;
     botName := None;
     wsClient := false;
     batchProcessor := false;
     chatHistories := ∅;
     dedupCleanupTimer := false;
     maps := {| Handler.processedEvents :=
                  Dedup.stopDedupCleanup (Handler.processedEvents (maps g));
                Handler.chatWatermarks := Handler.chatWatermarks (maps g) |};
     chatQueues := ∅ |}.

(** The gateway with its maps as a delivery leaves them. *)
Definition withMaps (m : Handler.Maps) (g : Gateway) : Gateway :=
  {| conn := conn g; botOpenId := botOpenId g; botName := botName g;
     wsClient := wsClient g; batchProcessor := batchProcessor g;
     chatHistories := chatHistories g; dedupCleanupTimer := dedupCleanupTimer g;
     maps := m; chatQueues := chatQueues g |}.

End WithJob.
Arguments Gateway : clear implicits.

End Pipeline.

(* ===================================================================== *)
(** ** Views of the serial queue: one chat's events and trace *)
(* ===================================================================== *)

Module SerialQueueViews.
Import SerialQueue.
Section WithJob.
Context {Job : Type}.

Definition eventChat (e : Event Job) : string :=
  match e with Enqueue c _ => c | Settle c _ => c end.

Definition traceChat (x : Trace Job) : string :=
  match x with
  | Queued c _ | Started c | Invoked c _ | Resolved c _
  | ErrorLogged c _ | Completed c => c
  end.

Definition eventsFor (chatId : string) (events : list (Event Job)) : list (Event Job) :=
  filter (λ e, eventChat e = chatId) events.

Definition traceFor (chatId : string) (t : list (Trace Job)) : list (Trace Job) :=
  filter (λ x, traceChat x = chatId) t.

(** The handlers of one chat settle one after the other, [oks] telling
    which of them resolve ([true]) and which throw. *)
Definition settleEach (chatId : string) (oks : list bool) (s : Queues Job)
    : Queues Job :=
  fold_left (λ s ok, settle chatId ok s) oks s.

End WithJob.
End SerialQueueViews.

(* ===================================================================== *)
(** ** Views of the chat batcher: one chat's messages *)
(* ===================================================================== *)

Module BatcherViews.
Import Batcher.

(** The messages pushed for a chat by a script, in order. *)
Definition pushedFor (chat : string) (script : list Step) : list ParsedMessage :=
  omap (λ s, match s with
             | Push m => if decide (chatId m = chat) then Some m else None
             | _ => None
             end) script.

(** The trigger ids a script passes to [trigger]. *)
Definition triggerIds (script : list Step) : list string :=
  omap (λ s, match s with Trigger _ id => Some id | _ => None end) script.

(** The script neither clears a chat nor disposes of the batcher. *)
Definition keeps (s : Step) : Prop :=
  match s with Clear _ | Dispose => False | _ => True end.

(** The chat's buffer ([[]] when the chat has no state). *)
Definition bufferOf (chat : string) (b : Batcher) : list ParsedMessage :=
  match mapGet chat (chatStates b) with
  | Some ref => default [] (buffer <$> heap b !! ref)
  | None => []
  end.

(** The messages handed to the flush callback for a chat so far, in order. *)
Definition flushedFor (chat : string) (b : Batcher) : list ParsedMessage :=
  concat (map (λ c, flushMessages c.1)
              (filter (λ c, flushChatId c.1 = chat) (calls b))).

(** The part of a chat state that is not a timer handle. *)
Definition data (st : ChatState) : list ParsedMessage * bool * option string :=
  (buffer st, hasTrigger st, triggerId st).

(** The chat states are well formed: every chat of the map has its state
    object, no two chats share one, and a chat's buffer holds messages of
    that chat only. *)
Record Wf (b : Batcher) : Prop := {
  wf_state : ∀ chat ref, mapGet chat (chatStates b) = Some ref →
                         is_Some (heap b !! ref);
  wf_inj : ∀ chat1 chat2 ref,
    mapGet chat1 (chatStates b) = Some ref →
    mapGet chat2 (chatStates b) = Some ref → chat1 = chat2;
  wf_own : ∀ chat ref st,
    mapGet chat (chatStates b) = Some ref → heap b !! ref = Some st →
    Forall (λ m, chatId m = chat) (buffer st);
}.






End BatcherViews.

(* ===================================================================== *)
(** ** Mention detection ([isBotMentioned], [extractMentions]) and file
       references ([fileUrlToPath]) *)
(* ===================================================================== *)

Module Mentions.

(** A [MessageMention]: [open_id] is [mention.id.open_id], which may be
    missing. *)
Record MessageMention := {
  key : string;
  name : string;
  open_id : option string;
}.

Record MentionInfo := {
  infoName : string;
  openId : string;
}.

(** [mentions] is [undefined] or an array, [botOpenId] is [undefined] or a
    string. *)
Definition isBotMentioned (mentions : option (list MessageMention))
    (botOpenId : option string) : bool :=
  match mentions with
  | None | Some [] => false
  | Some ms =>
      if negb (Handler.truthyString botOpenId) then false
      else existsb (λ m, bool_decide (open_id m = botOpenId)) ms
  end.

Definition extractMentions (mentions : option (list MessageMention))
    (botOpenId : option string) : list MentionInfo :=
  match mentions with
  | None | Some [] => []
  | Some ms =>
      omap (λ mention,
              let mentionOpenId := open_id mention in
              if negb (Handler.truthyString mentionOpenId)
                 || (Handler.truthyString botOpenId
                     && bool_decide (mentionOpenId = botOpenId))
              then None
              else Some {| infoName := name mention;
                           openId := default "" mentionOpenId |}) ms
  end.

End Mentions.

Module FileRefs.

(** [s.slice(7)] *)
Definition slice7 (s : string) : string :=
  String.substring 7 (String.length s - 7) s.

Definition fileUrlToPath (fileUrl : string) : string :=
  if String.prefix "file://" fileUrl then
    let path := slice7 fileUrl in
    if String.prefix "/" path then path
    else if String.prefix "./" path || String.prefix "../" path then path
    else if String.prefix "~" path then path
    else "./" +:+ path
  else fileUrl.

End FileRefs.

(* ===================================================================== *)
(** ** Theorems: watermark filter *)
(* ===================================================================== *)

Module WatermarkFacts.
Import Watermark.

Lemma watermarkOf_update chatId createTime (m : gmap string Z) :
  watermarkOf chatId (updateWatermark chatId createTime m)
  = Z.max (watermarkOf chatId m) createTime.
Proof.
  unfold updateWatermark. case_bool_decide as Hgt.
  - unfold watermarkOf at 1. rewrite lookup_insert_eq. simpl. lia.
  - lia.
Qed.

Lemma watermarkOf_update_other chatId other createTime (m : gmap string Z) :
  chatId ≠ other →
  watermarkOf other (updateWatermark chatId createTime m) = watermarkOf other m.
Proof.
  intros Hne. unfold updateWatermark. case_bool_decide; [|done].
  unfold watermarkOf. by rewrite lookup_insert_ne.
Qed.

(** C4.  [isStaleMessage] is true exactly when [createTime] is at most the
    chat's watermark (0 when the chat has none); [updateWatermark] leaves
    the watermark at the maximum of its old value and [createTime]; hence
    for [t1 < t2], once [t2] has been accepted both a later [t1] and a
    later [t2] are stale. *)
Theorem watermark_contract :
  ∀ (chatId : string) (m : gmap string Z) (t1 t2 : Z),
    t1 < t2 →
    (∀ t, isStaleMessage chatId t m = true ↔ t <= default 0 (m !! chatId))
    ∧ (∀ t, default 0 (updateWatermark chatId t m !! chatId)
            = Z.max (default 0 (m !! chatId)) t)
    ∧ isStaleMessage chatId t1 (updateWatermark chatId t2 m) = true
    ∧ isStaleMessage chatId t2 (updateWatermark chatId t2 m) = true.
Proof.
  intros chatId m t1 t2 Hlt. repeat split.
  - unfold isStaleMessage. intros H. by apply bool_decide_eq_true in H.
  - unfold isStaleMessage. intros H. by apply bool_decide_eq_true.
  - intros t. apply watermarkOf_update.
  - unfold isStaleMessage. apply bool_decide_eq_true.
    rewrite watermarkOf_update. lia.
  - unfold isStaleMessage. apply bool_decide_eq_true.
    rewrite watermarkOf_update. lia.
Qed.

Lemma watermark_contract_witness :
  1000 < 2000
  ∧ isStaleMessage "oc_1" 1000 (updateWatermark "oc_1" 2000 ∅) = true
  ∧ isStaleMessage "oc_1" 2000 (updateWatermark "oc_1" 2000 ∅) = true.
Proof.
  split; [lia|].
  pose proof (watermark_contract "oc_1" ∅ 1000 2000 ltac:(lia)) as (_ & _ & H1 & H2).
  split; [exact H1 | exact H2].
Defined.

End WatermarkFacts.

(* ===================================================================== *)
(** ** Theorems: event deduplicator *)
(* ===================================================================== *)

Module DedupFacts.
Import Dedup.

Lemma cleanup_lookup_Some now (m : gmap string Z) e ts :
  cleanupDedupEntries now m !! e = Some ts
  ↔ m !! e = Some ts ∧ ¬ ts < now - DEDUP_WINDOW_MS.
Proof. unfold cleanupDedupEntries. by rewrite map_lookup_filter_Some. Qed.

Lemma cleanup_expired now (m : gmap string Z) e ts :
  m !! e = Some ts → ts < now - DEDUP_WINDOW_MS →
  cleanupDedupEntries now m !! e = None.
Proof.
  intros Hm Hold. destruct (cleanupDedupEntries now m !! e) as [ts'|] eqn:E; [|done].
  apply cleanup_lookup_Some in E as [E Hn]. congruence.
Qed.

Lemma check_lookup_other now e e' (m : gmap string Z) ts :
  m !! e = Some ts → (isDuplicateEvent now e' m).2 !! e = Some ts.
Proof.
  intros Hm. unfold isDuplicateEvent.
  destruct (m !! e') eqn:E; simpl; [done|].
  rewrite lookup_insert_ne; [done|]. intros ->. congruence.
Qed.

Lemma applyOp_spares e t0 op (m : gmap string Z) :
  m !! e = Some t0 → sparesEntry t0 op → applyOp op m !! e = Some t0.
Proof.
  intros Hm Hop. destruct op as [now e'|now]; simpl in *.
  - by apply check_lookup_other.
  - apply cleanup_lookup_Some. split; [done|lia].
Qed.

Lemma applyOps_spares e t0 ops : ∀ m : gmap string Z,
  m !! e = Some t0 → Forall (sparesEntry t0) ops → applyOps ops m !! e = Some t0.
Proof.
  induction ops as [|op ops IH]; intros m Hm Hall; simpl; [done|].
  inversion Hall; subst. apply IH; [|done]. by apply applyOp_spares.
Qed.

(** C5.  For an event id [e] not yet in the map, the first call returns
    false and records [e] with the current time [t0]; after any further
    checks and sweeps, as long as no sweep ran later than [t0] plus the
    24-hour window, a call with [e] returns true; and once a sweep runs
    after the window has elapsed, the next call with [e] returns false
    again. *)
Theorem dedup_window_contract :
  ∀ (m : gmap string Z) (e : string) (t0 : Z),
    m !! e = None →
    (isDuplicateEvent t0 e m).1 = false
    ∧ (isDuplicateEvent t0 e m).2 !! e = Some t0
    ∧ (∀ ops t, Forall (sparesEntry t0) ops →
         (isDuplicateEvent t e (applyOps ops (isDuplicateEvent t0 e m).2)).1 = true)
    ∧ (∀ ops tsweep t, Forall (sparesEntry t0) ops →
         t0 + DEDUP_WINDOW_MS < tsweep →
         (isDuplicateEvent t e
            (cleanupDedupEntries tsweep
               (applyOps ops (isDuplicateEvent t0 e m).2))).1 = false).
Proof.
  intros m e t0 Hnew.
  assert (Hrec : (isDuplicateEvent t0 e m).2 !! e = Some t0).
  { unfold isDuplicateEvent. rewrite Hnew. simpl. apply lookup_insert_eq. }
  split; [by unfold isDuplicateEvent; rewrite Hnew|].
  split; [done|]. split.
  - intros ops t Hops.
    pose proof (applyOps_spares e t0 ops _ Hrec Hops) as Hkept.
    unfold isDuplicateEvent at 1. by rewrite Hkept.
  - intros ops tsweep t Hops Hlate.
    pose proof (applyOps_spares e t0 ops _ Hrec Hops) as Hkept.
    unfold isDuplicateEvent at 1.
    rewrite (cleanup_expired tsweep _ e t0 Hkept); [done|lia].
Qed.

Lemma dedup_window_contract_witness :
  (isDuplicateEvent 5 "ev_1" ∅).1 = false
  ∧ (isDuplicateEvent 9 "ev_1"
       (applyOps [OpSweep 3600000; OpCheck 7 "ev_2"]
          (isDuplicateEvent 5 "ev_1" ∅).2)).1 = true
  ∧ (isDuplicateEvent 90000000 "ev_1"
       (cleanupDedupEntries 90000000
          (applyOps [OpSweep 3600000; OpCheck 7 "ev_2"]
             (isDuplicateEvent 5 "ev_1" ∅).2))).1 = false.
Proof.
  pose proof (dedup_window_contract ∅ "ev_1" 5 (lookup_empty _))
    as (H1 & _ & H2 & H3).
  assert (Hops : Forall (sparesEntry 5) [OpSweep 3600000; OpCheck 7 "ev_2"]).
  { repeat constructor. simpl. unfold DEDUP_WINDOW_MS. lia. }
  split; [exact H1|]. split.
  - exact (H2 _ 9 Hops).
  - apply (H3 _ 90000000 90000000 Hops). unfold DEDUP_WINDOW_MS. lia.
Defined.

End DedupFacts.

(* ===================================================================== *)
(** ** Theorems: reconnect loop *)
(* ===================================================================== *)

Module ReconnectFacts.
Import Reconnect.

Lemma backoff_values :
  map calculateBackoffDelay (seq 1 19)
  = [2000; 4000; 8000; 16000; 32000] ++ replicate 14 60000.
Proof. reflexivity. Qed.

(** C6.  With no stop requested, a failed connection increments the
    attempt counter; if the counter has reached 20 the loop throws,
    otherwise it sleeps min(1000 * 2^attempt, 60000) ms and retries; a
    successful connection resets the counter to 0.  Twenty failures in a
    row from a fresh state sleep 2 s, 4 s, ... capped at 60 s, nineteen
    times, and then fail fatally. *)
Theorem reconnect_backoff_contract :
  ∀ (st : GatewayState) (a : Attempt),
    shouldStop st = false → stopWhilePending a = false →
    (connect a = Rejects →
       reconnectAttempts (loopBody a st).1 = S (reconnectAttempts st)
       ∧ ((20 ≤ S (reconnectAttempts st))%nat → (loopBody a st).2 = Throw)
       ∧ ((S (reconnectAttempts st) < 20)%nat →
            (loopBody a st).2
            = Retry (Z.min (1000 * 2 ^ Z.of_nat (S (reconnectAttempts st))) 60000)))
    ∧ (connect a = Resolves → reconnectAttempts (loopBody a st).1 = 0%nat)
    ∧ startWithReconnect (replicate 20 failing) resetState
      = ({| reconnectAttempts := 20; isReconnecting := true; shouldStop := false |},
         [2000; 4000; 8000; 16000; 32000] ++ replicate 14 60000, Threw).
Proof.
  intros st a Hrun Hpend. split; [|split].
  - intros Hfail. unfold loopBody. rewrite Hfail, Hrun, Hpend. simpl.
    unfold RECONNECT_MAX_ATTEMPTS.
    case_bool_decide as Hmax; simpl.
    + split; [done|]. split; [done|]. intros; lia.
    + split; [done|]. split; [intros; lia|]. intros _. reflexivity.
  - intros Hok. unfold loopBody. rewrite Hok, Hrun, Hpend. reflexivity.
  - reflexivity.
Qed.

Lemma reconnect_backoff_contract_witness :
  (loopBody failing {| reconnectAttempts := 4; isReconnecting := true;
                       shouldStop := false |}).2
  = Retry (Z.min (1000 * 2 ^ 5) 60000).
Proof.
  pose proof (reconnect_backoff_contract
                {| reconnectAttempts := 4; isReconnecting := true;
                   shouldStop := false |}
                failing eq_refl eq_refl) as (H & _ & _).
  destruct (H eq_refl) as (_ & _ & Hretry).
  apply Hretry. simpl. lia.
Defined.

End ReconnectFacts.

(* ===================================================================== *)
(** ** Theorems: per-chat serial queue *)
(* ===================================================================== *)

Module SerialQueueFacts.
Import SerialQueue.
Section WithJob.
Context {Job : Type}.
Implicit Types (s : Queues Job) (events : list (Event Job)) (t : list (Trace Job)).

Lemma serialFrom_app chatId t1 : ∀ running t2,
  serialFrom chatId running (t1 ++ t2)
  = serialFrom chatId running t1 ≫= λ r, serialFrom chatId r t2.
Proof.
  induction t1 as [|x t1 IH]; intros running t2; simpl; [done|].
  destruct x; simpl; try apply IH;
    case_decide; try apply IH; destruct running; simpl; try apply IH; done.
Qed.

Lemma invokedFor_app chatId t1 t2 :
  invokedFor chatId (t1 ++ t2) = invokedFor chatId t1 ++ invokedFor chatId t2.
Proof. apply omap_app. Qed.

Lemma enqueuedFor_app chatId events1 events2 :
  enqueuedFor chatId (events1 ++ events2)
  = enqueuedFor chatId events1 ++ enqueuedFor chatId events2.
Proof. apply omap_app. Qed.

Lemma run_snoc events e : run (events ++ [e]) = step (run events) e.
Proof. unfold run. by rewrite fold_left_app. Qed.

Lemma Inv_initial : Inv (Job:=Job) [] initial.
Proof.
  split; simpl.
  - intros c. rewrite !lookup_empty. split; intros [? ?]; done.
  - intros c q. by rewrite lookup_empty.
  - intros c. rewrite lookup_empty. rewrite bool_decide_eq_false_2; [done|].
    intros [? ?]; done.
  - intros c. unfold pendingFor. simpl. by rewrite lookup_empty.
Qed.

Lemma Inv_enqueue events s chatId job :
  Inv events s → Inv (events ++ [Enqueue chatId job]) (enqueueMessage chatId job s).
Proof.
  intros [Hloop Hproc Hser Hfifo].
  unfold enqueueMessage.
  destruct (chatQueues s !! chatId) as [q|] eqn:Hq; simpl.
  - (* a drain loop is running: the job is only appended *)
    rewrite (Hproc _ _ Hq). simpl.
    assert (Haw : is_Some (awaiting s !! chatId)) by (apply Hloop; eauto).
    split; simpl.
    + intros c. destruct (decide (chatId = c)) as [->|Hne].
      * rewrite lookup_insert_eq. split; eauto.
      * rewrite lookup_insert_ne by done. apply Hloop.
    + intros c q'. destruct (decide (chatId = c)) as [->|Hne].
      * rewrite lookup_insert_eq. intros [= <-]. simpl. eauto.
      * rewrite lookup_insert_ne by done. apply Hproc.
    + intros c. rewrite serialFrom_app, Hser. simpl. done.
    + intros c. rewrite enqueuedFor_app, invokedFor_app, Hfifo. simpl.
      unfold pendingFor. simpl.
      destruct (decide (chatId = c)) as [->|Hne].
      * rewrite lookup_insert_eq, Hq. simpl. by rewrite !app_nil_r, app_assoc.
      * rewrite lookup_insert_ne by done. by rewrite !app_nil_r.
  - (* no entry: a fresh queue, and its drain loop starts at once *)
    assert (Haw : awaiting s !! chatId = None).
    { destruct (awaiting s !! chatId) eqn:E; [|done].
      assert (is_Some (chatQueues s !! chatId)) as [? ?] by (apply Hloop; eauto).
      congruence. }
    unfold processQueue. simpl. rewrite lookup_insert_eq. simpl.
    unfold drain. simpl. rewrite lookup_insert_eq. simpl.
    split; simpl.
    + intros c. destruct (decide (chatId = c)) as [->|Hne].
      * rewrite !lookup_insert_eq. split; eauto.
      * rewrite !lookup_insert_ne by done. apply Hloop.
    + intros c q'. destruct (decide (chatId = c)) as [->|Hne].
      * rewrite lookup_insert_eq. by intros [= <-].
      * rewrite !lookup_insert_ne by done. apply Hproc.
    + intros c. rewrite !serialFrom_app, Hser. simpl.
      destruct (decide (chatId = c)) as [->|Hne].
      * rewrite lookup_insert_eq, Haw.
        rewrite bool_decide_eq_false_2 by (intros [? ?]; done).
        rewrite bool_decide_eq_true_2 by eauto. done.
      * rewrite lookup_insert_ne by done. done.
    + intros c. rewrite enqueuedFor_app, !invokedFor_app, Hfifo. simpl.
      unfold pendingFor. simpl.
      destruct (decide (chatId = c)) as [->|Hne].
      * rewrite lookup_insert_eq, Hq. simpl. by rewrite !app_nil_r.
      * rewrite !lookup_insert_ne by done. by rewrite !app_nil_r.
Qed.

Lemma Inv_settle events s chatId ok :
  Inv events s → Inv (events ++ [Settle chatId ok]) (settle chatId ok s).
Proof.
  intros [Hloop Hproc Hser Hfifo].
  assert (Henq : ∀ c, enqueuedFor c (events ++ [Settle chatId ok])
                      = enqueuedFor c events).
  { intros c. rewrite enqueuedFor_app. simpl. by rewrite app_nil_r. }
  unfold settle.
  destruct (awaiting s !! chatId) as [item|] eqn:Haw.
  2:{ split; try done. intros c. by rewrite Henq. }
  assert (is_Some (chatQueues s !! chatId)) as [q Hq] by (apply Hloop; eauto).
  assert (Hsettled : invokedFor chatId
            [if ok then Resolved chatId item else ErrorLogged chatId item] = []).
  { by destruct ok. }
  assert (Hser' : ∀ c, serialFrom c false
            (trace s ++ [if ok then Resolved chatId item else ErrorLogged chatId item])
            = Some (bool_decide (is_Some (delete chatId (awaiting s) !! c)))).
  { intros c. rewrite serialFrom_app, Hser. simpl.
    destruct (decide (chatId = c)) as [->|Hne].
    - rewrite lookup_delete_eq, Haw. rewrite bool_decide_eq_true_2 by eauto.
      rewrite bool_decide_eq_false_2 by (intros [? ?]; done).
      destruct ok; simpl; by rewrite decide_True.
    - rewrite lookup_delete_ne by done.
      destruct ok; simpl; by rewrite decide_False. }
  unfold drain. simpl. rewrite Hq.
  destruct (messages q) as [|next rest] eqn:Hmsgs; split; simpl.
  - intros c. destruct (decide (chatId = c)) as [->|Hne].
    + rewrite !lookup_delete_eq. split; intros [? ?]; done.
    + rewrite !lookup_delete_ne by done. apply Hloop.
  - intros c q'. destruct (decide (chatId = c)) as [->|Hne].
    + by rewrite lookup_delete_eq.
    + rewrite lookup_delete_ne by done. apply Hproc.
  - intros c. rewrite serialFrom_app, Hser'. done.
  - intros c. rewrite Henq, !invokedFor_app, Hfifo. unfold pendingFor. cbn [chatQueues].
    destruct (decide (chatId = c)) as [->|Hne].
    + rewrite lookup_delete_eq, Hq, Hmsgs, Hsettled. by rewrite !app_nil_r.
    + rewrite lookup_delete_ne by done.
      replace (invokedFor c [if ok then Resolved chatId item
                             else ErrorLogged chatId item]) with (@nil Job)
        by (destruct ok; cbn; by rewrite ?decide_False).
      by rewrite !app_nil_r.
  - intros c. destruct (decide (chatId = c)) as [->|Hne].
    + rewrite !lookup_insert_eq. split; eauto.
    + rewrite !lookup_insert_ne, lookup_delete_ne by done. apply Hloop.
  - intros c q'. destruct (decide (chatId = c)) as [->|Hne].
    + rewrite lookup_insert_eq. intros [= <-]. simpl. eauto.
    + rewrite lookup_insert_ne by done. apply Hproc.
  - intros c. rewrite serialFrom_app, Hser'. simpl.
    destruct (decide (chatId = c)) as [->|Hne].
    + rewrite lookup_delete_eq, lookup_insert_eq.
      rewrite bool_decide_eq_false_2 by (intros [? ?]; done).
      rewrite bool_decide_eq_true_2 by eauto. done.
    + rewrite lookup_insert_ne by done. done.
  - intros c. rewrite Henq, !invokedFor_app, Hfifo. unfold pendingFor. cbn [chatQueues].
    destruct (decide (chatId = c)) as [->|Hne].
    + rewrite lookup_insert_eq, Hq, Hmsgs, Hsettled. cbn.
      rewrite decide_True by done. by rewrite !app_nil_r, <- app_assoc.
    + rewrite lookup_insert_ne by done.
      replace (invokedFor c [if ok then Resolved chatId item
                             else ErrorLogged chatId item]) with (@nil Job)
        by (destruct ok; cbn; by rewrite ?decide_False).
      cbn. rewrite decide_False by done. by rewrite !app_nil_r.
Qed.

Lemma Inv_run events : Inv events (run events).
Proof.
  induction events as [|e events IH] using rev_ind.
  - apply Inv_initial.
  - rewrite run_snoc. destruct e as [c job|c ok]; simpl.
    + by apply Inv_enqueue.
    + by apply Inv_settle.
Qed.

End WithJob.

End SerialQueueFacts.

(* ===================================================================== *)
(** ** Theorems: inbound handler *)
(* ===================================================================== *)

Module HandlerFacts.
Import Handler.

(** C10, as stated, fails: the event [unidentified] has no dedup key and
    its first delivery is enqueued without any key being recorded, but its
    redelivery is not processed again: the watermark its first delivery
    set rejects it as stale. *)
Lemma unidentified_redelivery_dropped :
  dedupKeyOf unidentified = None
  ∧ (receive 1000 unidentified empty).2 = Enqueued "oc_1"
  ∧ processedEvents (receive 1000 unidentified empty).1 = ∅
  ∧ (receive 1000 unidentified (receive 1000 unidentified empty).1).2
    = SkippedWatermark "oc_1".
Proof. repeat split. Qed.

Lemma receive_without_key now ev s :
  dedupKeyOf ev = None →
  receive now ev s
  = let chatId := message ev ≫= chat_id in
    let messageCreateTime := message ev ≫= create_time in
    if truthyString chatId && truthyNumber messageCreateTime
       && Watermark.isStaleMessage (default "" chatId) (default 0 messageCreateTime)
            (chatWatermarks s)
    then (s, SkippedWatermark (default "" chatId))
    else if truthyNumber messageCreateTime
            && bool_decide (now - default 0 messageCreateTime > MAX_MESSAGE_AGE_MS)
    then (s, SkippedAge)
    else
      (if truthyString chatId && truthyNumber messageCreateTime
       then {| processedEvents := processedEvents s;
               chatWatermarks :=
                 Watermark.updateWatermark (default "" chatId)
                   (default 0 messageCreateTime) (chatWatermarks s) |}
       else s,
       Enqueued (default "unknown" chatId)).
Proof.
  intros Hkey. unfold receive. rewrite Hkey. destruct s as [pe wm]. simpl.
  repeat case_match; done.
Qed.

(** C10, amended.  An event with neither [event_id] nor
    [message.message_id] skips the deduplication check: no key is recorded
    and no delivery of it is rejected as a duplicate.  It then meets the
    watermark and age filters like any other event: without a chat id or
    without a create time it is enqueued again on every delivery (age
    permitting), with both it is rejected as stale once a delivery of it
    has been enqueued. *)
Theorem unidentified_event_skips_dedup :
  ∀ (now : Z) (ev : MessageReceivedEvent) (s : Maps),
    event_id ev = None → message ev ≫= message_id = None →
    processedEvents (receive now ev s).1 = processedEvents s
    ∧ (∀ k, (receive now ev s).2 ≠ SkippedDuplicate k)
    ∧ (truthyString (message ev ≫= chat_id)
       && truthyNumber (message ev ≫= create_time) = false →
       truthyNumber (message ev ≫= create_time)
       && bool_decide (now - default 0 (message ev ≫= create_time)
                       > MAX_MESSAGE_AGE_MS) = false →
       receive now ev s = (s, Enqueued (default "unknown" (message ev ≫= chat_id))))
    ∧ (truthyString (message ev ≫= chat_id)
       && truthyNumber (message ev ≫= create_time) = true →
       ∀ c, (receive now ev s).2 = Enqueued c →
       ∀ now', (receive now' ev (receive now ev s).1).2 = SkippedWatermark c).
Proof.
  intros now ev s Hev Hmsg.
  assert (Hkey : dedupKeyOf ev = None) by (unfold dedupKeyOf; by rewrite Hev).
  split; [|split; [|split]].
  - rewrite receive_without_key by done. simpl. repeat case_match; done.
  - intros k. rewrite receive_without_key by done. simpl. repeat case_match; done.
  - intros Hnot Hage. rewrite receive_without_key by done. simpl.
    rewrite Hnot, Hage. done.
  - intros Hboth c Henq now'.
    rewrite (receive_without_key now) in Henq |- * by done. simpl in Henq |- *.
    rewrite Hboth in Henq |- *. simpl in Henq |- *.
    destruct (Watermark.isStaleMessage _ _ (chatWatermarks s)) eqn:Hstale;
      [done|].
    destruct (truthyNumber _ && bool_decide _) eqn:Hage; [done|].
    simpl in Henq. injection Henq as <-.
    rewrite receive_without_key by done. simpl. rewrite Hboth. simpl.
    assert (Hnow : Watermark.isStaleMessage (default "" (message ev ≫= chat_id))
                     (default 0 (message ev ≫= create_time))
                     (Watermark.updateWatermark (default "" (message ev ≫= chat_id))
                        (default 0 (message ev ≫= create_time)) (chatWatermarks s))
                   = true).
    { unfold Watermark.isStaleMessage. apply bool_decide_eq_true.
      rewrite WatermarkFacts.watermarkOf_update. lia. }
    rewrite Hnow.
    destruct (message ev ≫= chat_id) as [c|] eqn:Hc; [done|].
    by rewrite andb_false_l in Hboth.
Qed.

Lemma unidentified_event_skips_dedup_witness :
  processedEvents (receive 1000 unidentified empty).1 = ∅
  ∧ (receive 2000 unidentified (receive 1000 unidentified empty).1).2
    = SkippedWatermark "oc_1".
Proof.
  pose proof (unidentified_event_skips_dedup 1000 unidentified empty eq_refl eq_refl)
    as (Hmap & _ & _ & Hredelivery).
  split; [exact Hmap|].
  exact (Hredelivery eq_refl "oc_1" eq_refl 2000).
Defined.

End HandlerFacts.

(* ===================================================================== *)
(** ** Theorems: chat batcher *)
(* ===================================================================== *)

Module BatcherFacts.
Import Batcher.

Implicit Types (b : Batcher) (t : Timer) (st : ChatState) (m : list (string * nat)).

(** *** What each function leaves alone *)

Lemma clearTimeout_sublist h b : timers (clearTimeout h b) `sublist_of` timers b.
Proof. apply sublist_filter. Qed.

Lemma clearTimeout_removed h b t : t ∈ timers (clearTimeout h b) → handle t ≠ h.
Proof. simpl. rewrite list_elem_of_filter. tauto. Qed.

Definition cleared st : ChatState :=
  {| buffer := buffer st; hasTrigger := hasTrigger st; triggerId := triggerId st;
     debounceTimer := None; idleTimer := None; lastMessageAt := lastMessageAt st |}.

Lemma clearTimers_frame ref b :
  startedAt (clearTimers ref b) = startedAt b
  ∧ clock (clearTimers ref b) = clock b
  ∧ chatStates (clearTimers ref b) = chatStates b
  ∧ nextHandle (clearTimers ref b) = nextHandle b
  ∧ flushCallback (clearTimers ref b) = flushCallback b
  ∧ calls (clearTimers ref b) = calls b.
Proof.
  unfold clearTimers. destruct (heap b !! ref) as [st|]; [|done].
  destruct (debounceTimer st), (idleTimer st); done.
Qed.

Lemma clearTimers_heap ref b :
  heap (clearTimers ref b)
  = match heap b !! ref with
    | Some st => <[ref := cleared st]> (heap b)
    | None => heap b
    end.
Proof.
  unfold clearTimers. destruct (heap b !! ref) as [st|]; [|done].
  destruct (debounceTimer st), (idleTimer st); done.
Qed.

Lemma clearTimers_lookup ref b r :
  heap (clearTimers ref b) !! r
  = if decide (r = ref) then cleared <$> heap b !! ref else heap b !! r.
Proof.
  rewrite clearTimers_heap. destruct (heap b !! ref) as [st|] eqn:Hst.
  - case_decide as Hr.
    + subst. simpl. apply list_lookup_insert_eq. by eapply lookup_lt_Some.
    + by apply list_lookup_insert_ne.
  - case_decide; by subst.
Qed.

Lemma clearTimers_sublist ref b :
  timers (clearTimers ref b) `sublist_of` timers b.
Proof.
  unfold clearTimers. destruct (heap b !! ref) as [st|]; [|done].
  destruct (debounceTimer st), (idleTimer st); simpl;
    repeat (etrans; [apply sublist_filter|]); done.
Qed.

Lemma clearTimers_removed ref b st t :
  heap b !! ref = Some st → t ∈ timers (clearTimers ref b) →
  debounceTimer st ≠ Some (handle t) ∧ idleTimer st ≠ Some (handle t).
Proof.
  intros Hst. unfold clearTimers. rewrite Hst.
  destruct (debounceTimer st) as [d|], (idleTimer st) as [i|]; simpl;
    rewrite ?list_elem_of_filter; intros Ht; split; intros [= ->]; tauto.
Qed.

Lemma mapGet_elem_of chat m ref : mapGet chat m = Some ref → (chat, ref) ∈ m.
Proof.
  induction m as [|[c r] m IH]; simpl; [done|].
  case_decide; [intros [= ->]; subst; apply list_elem_of_here|].
  intros Hin. apply list_elem_of_further. by apply IH.
Qed.

Lemma mapGet_app chat m m' :
  mapGet chat (m ++ m') = match mapGet chat m with
                          | Some ref => Some ref
                          | None => mapGet chat m'
                          end.
Proof.
  induction m as [|[c r] m IH]; simpl; [done|]. by case_decide.
Qed.

Lemma mapGet_delete_ne chat other m :
  other ≠ chat → mapGet other (mapDelete chat m) = mapGet other m.
Proof.
  intros Hne. unfold mapDelete. induction m as [|[c r] m IH]; [done|].
  rewrite filter_cons. simpl. destruct (decide (c ≠ chat)) as [Hc|Hc]; simpl.
  - by rewrite IH.
  - rewrite IH. case_decide; [|done]. subst. by destruct Hc.
Qed.

(** *** Every pending timer is held by a chat state in the map *)

Definition holds st (h : nat) : Prop :=
  debounceTimer st = Some h ∨ idleTimer st = Some h.

Definition Held b : Prop :=
  ∀ t, t ∈ timers b →
    ∃ chat ref st, mapGet chat (chatStates b) = Some ref
                   ∧ heap b !! ref = Some st ∧ holds st (handle t).

Lemma Held_create startedAt now : Held (createChatBatcher startedAt now).
Proof. intros t Ht. simpl in Ht. by apply elem_of_nil in Ht. Qed.

Lemma Held_clearTimeout h b : Held b → Held (clearTimeout h b).
Proof.
  intros HH t Ht. eapply elem_of_sublist in Ht; [|apply clearTimeout_sublist].
  apply HH in Ht. done.
Qed.

Lemma Held_clearTimers ref b : Held b → Held (clearTimers ref b).
Proof.
  intros HH t Ht.
  pose proof (elem_of_sublist _ _ _ Ht (clearTimers_sublist ref b)) as Ht0.
  destruct (HH t Ht0) as (chat & r & st & Hget & Hst & Hholds).
  exists chat, r. destruct (clearTimers_frame ref b) as (_ & _ & -> & _).
  rewrite clearTimers_lookup. case_decide as Hr.
  - subst. destruct (clearTimers_removed _ _ _ _ Hst Ht) as [Hd Hi].
    destruct Hholds; congruence.
  - eauto.
Qed.

(** Rewriting a state keeps [Held] when the timers it holds stay held. *)
Lemma Held_setState ref st st' b :
  Held b → heap b !! ref = Some st →
  (∀ h, holds st h → holds st' h) →
  Held (setState ref st' b).
Proof.
  intros HH Hst Hkeep t Ht. destruct (HH t Ht) as (chat & r & st0 & Hget & Hst0 & Hh).
  exists chat, r. simpl. destruct (decide (r = ref)) as [->|Hne].
  - exists st'. rewrite list_lookup_insert_eq by (by eapply lookup_lt_Some).
    split; [done|]. split; [done|]. apply Hkeep. congruence.
  - exists st0. by rewrite list_lookup_insert_ne.
Qed.

Lemma Held_getOrCreateState chat b :
  Held b → Held (getOrCreateState chat b).2.
Proof.
  intros HH. unfold getOrCreateState.
  destruct (mapGet chat (chatStates b)) as [ref|] eqn:Hget; [done|].
  intros t Ht. destruct (HH t Ht) as (c & r & st0 & Hc & Hst0 & Hh).
  exists c, r, st0. simpl. rewrite mapGet_app, Hc.
  split; [done|]. split; [|done]. by apply lookup_app_l_Some.
Qed.

Lemma getOrCreateState_lookup chat b :
  mapGet chat (chatStates (getOrCreateState chat b).2)
  = Some (getOrCreateState chat b).1.
Proof.
  unfold getOrCreateState.
  destruct (mapGet chat (chatStates b)) as [ref|] eqn:Hget; simpl; [done|].
  rewrite mapGet_app, Hget. simpl. by rewrite decide_True.
Qed.

Lemma Held_startIdleTimer chat ref b :
  Held b → mapGet chat (chatStates b) = Some ref →
  Held (startIdleTimer chat ref b).
Proof.
  intros HH Hget. unfold startIdleTimer.
  destruct (heap b !! ref) as [st|] eqn:Hst; [|done].
  set (b1 := match idleTimer st with Some h => clearTimeout h b | None => b end).
  assert (Hfields : chatStates b1 = chatStates b ∧ heap b1 = heap b)
    by (unfold b1; by destruct (idleTimer st)).
  destruct Hfields as [Hcs Hheap].
  assert (Hsub : ∀ t, t ∈ timers b1 → t ∈ timers b ∧ idleTimer st ≠ Some (handle t)).
  { intros t. unfold b1. destruct (idleTimer st) as [h|]; [|done].
    simpl. rewrite list_elem_of_filter. intros [Hne Ht]. split; [done|congruence]. }
  intros t. simpl. rewrite Hcs, Hheap, elem_of_app, list_elem_of_singleton.
  assert (Hlt : (ref < length (heap b))%nat) by (by eapply lookup_lt_Some).
  intros [Ht| ->].
  - destruct (Hsub t Ht) as [Ht0 Hidle]. destruct (HH t Ht0) as (c & r & st0 & Hc & Hst0 & Hh).
    exists c, r. destruct (decide (r = ref)) as [->|Hne].
    + eexists. rewrite list_lookup_insert_eq by done. split; [done|]. split; [done|].
      left. simpl. destruct Hh; congruence.
    + exists st0. by rewrite list_lookup_insert_ne.
  - exists chat, ref. eexists. rewrite list_lookup_insert_eq by done.
    split; [done|]. split; [done|]. by right.
Qed.

Lemma Held_startDebounceTimer chat ref trigger b :
  Held b → mapGet chat (chatStates b) = Some ref →
  Held (startDebounceTimer chat ref trigger b).
Proof.
  intros HH Hget. unfold startDebounceTimer.
  destruct (heap b !! ref) as [st|] eqn:Hst; [|done].
  set (b1 := match debounceTimer st with Some h => clearTimeout h b | None => b end).
  assert (Hfields : chatStates b1 = chatStates b ∧ heap b1 = heap b)
    by (unfold b1; by destruct (debounceTimer st)).
  destruct Hfields as [Hcs Hheap].
  assert (Hsub : ∀ t, t ∈ timers b1 →
                      t ∈ timers b ∧ debounceTimer st ≠ Some (handle t)).
  { intros t. unfold b1. destruct (debounceTimer st) as [h|]; [|done].
    simpl. rewrite list_elem_of_filter. intros [Hne Ht]. split; [done|congruence]. }
  intros t. simpl. rewrite Hcs, Hheap, elem_of_app, list_elem_of_singleton.
  assert (Hlt : (ref < length (heap b))%nat) by (by eapply lookup_lt_Some).
  intros [Ht| ->].
  - destruct (Hsub t Ht) as [Ht0 Hdeb]. destruct (HH t Ht0) as (c & r & st0 & Hc & Hst0 & Hh).
    exists c, r. destruct (decide (r = ref)) as [->|Hne].
    + eexists. rewrite list_lookup_insert_eq by done. split; [done|]. split; [done|].
      right. simpl. destruct Hh; congruence.
    + exists st0. by rewrite list_lookup_insert_ne.
  - exists chat, ref. eexists. rewrite list_lookup_insert_eq by done.
    split; [done|]. split; [done|]. by left.
Qed.

Lemma Held_push message b : Held b → Held (push message b).
Proof.
  intros HH. unfold push.
  pose proof (Held_getOrCreateState (chatId message) b HH) as HH1.
  pose proof (getOrCreateState_lookup (chatId message) b) as Hget.
  destruct (getOrCreateState (chatId message) b) as [ref b1]. simpl in *.
  destruct (heap b1 !! ref) as [st|] eqn:Hst; [|done].
  apply Held_startIdleTimer; [|done].
  eapply Held_setState; [done..|]. intros h [?|?]; [by left|by right].
Qed.

Lemma Held_trigger chat id b : Held b → Held (trigger chat id b).
Proof.
  intros HH. unfold trigger.
  pose proof (Held_getOrCreateState chat b HH) as HH1.
  pose proof (getOrCreateState_lookup chat b) as Hget.
  destruct (getOrCreateState chat b) as [ref b1]. simpl in *.
  destruct (heap b1 !! ref) as [st|] eqn:Hst; [|done].
  apply Held_startDebounceTimer; [|done].
  eapply Held_setState; [done..|]. intros h [?|?]; [by left|by right].
Qed.

Lemma Held_clear chat b : Held b → Held (clear chat b).
Proof.
  intros HH. unfold clear.
  destruct (mapGet chat (chatStates b)) as [ref|] eqn:Hget; [|done].
  intros t Ht. simpl in Ht.
  pose proof (elem_of_sublist _ _ _ Ht (clearTimers_sublist ref b)) as Ht0.
  destruct (HH t Ht0) as (c & r & st & Hc & Hst & Hh).
  destruct (clearTimers_frame ref b) as (_ & _ & Hcs & _).
  destruct (decide (c = chat)) as [->|Hne].
  - assert (r = ref) as -> by congruence.
    destruct (clearTimers_removed _ _ _ _ Hst Ht) as [Hd Hi].
    destruct Hh; congruence.
  - exists c, r. simpl. rewrite Hcs, mapGet_delete_ne by done.
    rewrite clearTimers_lookup. case_decide as Hr.
    + subst. destruct (clearTimers_removed _ _ _ _ Hst Ht) as [Hd Hi].
      destruct Hh; congruence.
    + eauto.
Qed.

(** *** [dispose] leaves no timer pending *)

Lemma clearAll_frame entries : ∀ b,
  calls (clearAll entries b) = calls b
  ∧ clock (clearAll entries b) = clock b
  ∧ flushCallback (clearAll entries b) = flushCallback b.
Proof.
  induction entries as [|[c r] entries IH]; intros b; simpl; [done|].
  destruct (IH (clearTimers r b)) as (-> & -> & ->).
  by destruct (clearTimers_frame r b) as (_ & -> & _ & _ & -> & ->).
Qed.

Lemma clearAll_removed entries : ∀ b t,
  t ∈ timers (clearAll entries b) →
  t ∈ timers b
  ∧ ∀ c r st, (c, r) ∈ entries → heap b !! r = Some st → ¬ holds st (handle t).
Proof.
  induction entries as [|[c0 r0] entries IH]; intros b t Ht; simpl in Ht.
  - split; [done|]. intros c r st Hin. by apply elem_of_nil in Hin.
  - destruct (IH _ _ Ht) as [Ht1 Hrest].
    split; [by eapply elem_of_sublist, clearTimers_sublist|].
    intros c r st Hin Hst Hh.
    destruct (decide (r = r0)) as [->|Hne].
    + destruct (clearTimers_removed _ _ _ _ Hst Ht1). destruct Hh; congruence.
    + apply elem_of_cons in Hin as [[= -> ->]|Hin]; [done|].
      apply (Hrest c r st Hin); [|done].
      rewrite clearTimers_lookup. by rewrite decide_False.
Qed.

Lemma dispose_no_timers b : Held b → timers (dispose b) = [].
Proof.
  intros HH. simpl.
  destruct (timers (clearAll (chatStates b) b)) as [|t rest] eqn:Hts; [done|].
  assert (Ht : t ∈ timers (clearAll (chatStates b) b))
    by (rewrite Hts; apply list_elem_of_here).
  destruct (clearAll_removed _ _ _ Ht) as [Ht0 Hfree].
  destruct (HH t Ht0) as (c & r & st & Hc & Hst & Hh).
  destruct (Hfree c r st (mapGet_elem_of _ _ _ Hc) Hst Hh).
Qed.

(** *** [capture] and [flush] *)

Definition reset st : ChatState :=
  {| buffer := []; hasTrigger := false; triggerId := None;
     debounceTimer := debounceTimer st; idleTimer := idleTimer st;
     lastMessageAt := lastMessageAt st |}.

Lemma capture_Some chat trigger b b1 event :
  capture chat trigger b = (b1, Some event) →
  ∃ ref st, mapGet chat (chatStates b) = Some ref
            ∧ heap b !! ref = Some st
            ∧ buffer st ≠ []
            ∧ event = {| flushChatId := chat; flushMessages := buffer st;
                         triggeredBy := trigger; triggeredAt := clock b |}
            ∧ b1 = clearTimers ref (setState ref (reset st) b).
Proof.
  unfold capture. intros Hcap.
  destruct (mapGet chat (chatStates b)) as [ref|]; [|done].
  destruct (heap b !! ref) as [st|] eqn:Hst; [|done].
  destruct (buffer st) as [|x l] eqn:Hbuf; [done|].
  injection Hcap as <- <-. exists ref, st. rewrite Hbuf. done.
Qed.

Lemma capture_None chat trigger b b1 :
  capture chat trigger b = (b1, None) → b1 = b.
Proof.
  unfold capture. intros Hcap.
  destruct (mapGet chat (chatStates b)) as [ref|]; [|congruence].
  destruct (heap b !! ref) as [st|]; [|congruence].
  destruct (buffer st); congruence.
Qed.

Lemma capture_frame chat trigger b :
  startedAt (capture chat trigger b).1 = startedAt b
  ∧ clock (capture chat trigger b).1 = clock b
  ∧ chatStates (capture chat trigger b).1 = chatStates b
  ∧ flushCallback (capture chat trigger b).1 = flushCallback b
  ∧ calls (capture chat trigger b).1 = calls b
  ∧ timers (capture chat trigger b).1 `sublist_of` timers b.
Proof.
  destruct (capture chat trigger b) as [b1 [event|]] eqn:Hcap.
  - apply capture_Some in Hcap as (ref & st & _ & _ & _ & _ & ->). simpl.
    destruct (clearTimers_frame ref (setState ref (reset st) b))
      as (-> & -> & -> & _ & -> & ->).
    repeat split. apply (clearTimers_sublist ref (setState ref (reset st) b)).
  - apply capture_None in Hcap as ->. done.
Qed.

Lemma capture_buffers chat trigger b r st1 :
  heap (capture chat trigger b).1 !! r = Some st1 →
  ∃ st0, heap b !! r = Some st0 ∧ (buffer st1 = buffer st0 ∨ buffer st1 = []).
Proof.
  destruct (capture chat trigger b) as [b1 [event|]] eqn:Hcap; simpl.
  - apply capture_Some in Hcap as (ref & st & _ & Hst & _ & _ & ->).
    assert (Hlt : (ref < length (heap b))%nat) by (by eapply lookup_lt_Some).
    rewrite clearTimers_lookup. simpl. case_decide as Hr.
    + subst. rewrite list_lookup_insert_eq by done. simpl. intros [= <-]. eauto.
    + rewrite list_lookup_insert_ne by done. eauto.
  - apply capture_None in Hcap as ->. eauto.
Qed.

Lemma Held_capture chat trigger b : Held b → Held (capture chat trigger b).1.
Proof.
  intros HH. destruct (capture chat trigger b) as [b1 [event|]] eqn:Hcap; simpl.
  - apply capture_Some in Hcap as (ref & st & _ & Hst & _ & _ & ->).
    apply Held_clearTimers. eapply Held_setState; [done..|]. by intros h [?|?]; [left|right].
  - by apply capture_None in Hcap as ->.
Qed.

Lemma invokeCallback_frame event b :
  startedAt (invokeCallback event b) = startedAt b
  ∧ clock (invokeCallback event b) = clock b
  ∧ heap (invokeCallback event b) = heap b
  ∧ chatStates (invokeCallback event b) = chatStates b
  ∧ timers (invokeCallback event b) = timers b
  ∧ nextHandle (invokeCallback event b) = nextHandle b
  ∧ flushCallback (invokeCallback event b) = flushCallback b.
Proof. unfold invokeCallback. destruct (flushCallback b) eqn:E; simpl; repeat split; done. Qed.

Lemma Held_invokeCallback event b : Held b → Held (invokeCallback event b).
Proof.
  intros HH t. destruct (invokeCallback_frame event b)
    as (_ & _ & -> & -> & -> & _). apply HH.
Qed.

Lemma flush_timers chat trigger b :
  timers (flush chat trigger b) `sublist_of` timers b.
Proof.
  unfold flush. pose proof (capture_frame chat trigger b) as (_ & _ & _ & _ & _ & Hsub).
  destruct (capture chat trigger b) as [b1 [event|]]; simpl in *; [|done].
  by destruct (invokeCallback_frame event b1) as (_ & _ & _ & _ & -> & _).
Qed.

Lemma Held_flush chat trigger b : Held b → Held (flush chat trigger b).
Proof.
  intros HH. unfold flush. pose proof (Held_capture chat trigger b HH) as HH1.
  destruct (capture chat trigger b) as [b1 [event|]]; simpl in *; [|done].
  by apply Held_invokeCallback.
Qed.

Lemma runCallback_timers cb b : timers (runCallback cb b) `sublist_of` timers b.
Proof.
  destruct cb as [chat ref|chat trigger]; simpl.
  - destruct (heap b !! ref) as [st|]; [|done].
    destruct (hasTrigger st && negb (isInStartupPeriod b)); [|done].
    apply flush_timers.
  - apply flush_timers.
Qed.

Lemma Held_runCallback cb b : Held b → Held (runCallback cb b).
Proof.
  intros HH. destruct cb as [chat ref|chat trigger]; simpl.
  - destruct (heap b !! ref) as [st|]; [|done].
    destruct (hasTrigger st && negb (isInStartupPeriod b)); [|done].
    by apply Held_flush.
  - by apply Held_flush.
Qed.

(** *** Firing timers *)

Lemma earliest_elem_of l t : earliest l = Some t → t ∈ l.
Proof.
  revert t. induction l as [|x l IH]; intros t; simpl; [done|].
  destruct (earliest l) as [t'|].
  - case_bool_decide; intros [= <-].
    + apply list_elem_of_here.
    + apply list_elem_of_further. by apply IH.
  - intros [= <-]. apply list_elem_of_here.
Qed.

Lemma nextDue_elem_of target l t : nextDue target l = Some t → t ∈ l.
Proof.
  unfold nextDue. destruct (earliest l) as [t'|] eqn:He; [|done].
  case_bool_decide; [|done]. intros [= <-]. by apply earliest_elem_of.
Qed.

Lemma nextDue_nil target : nextDue target [] = None.
Proof. done. Qed.

Lemma fire_timers_lt t b :
  t ∈ timers b → (length (timers (fire t b)) < length (timers b))%nat.
Proof.
  intros Ht. unfold fire.
  eapply Nat.le_lt_trans; [apply sublist_length, runCallback_timers|].
  simpl. apply (length_filter_lt _ _ t); [done|]. by intros Hne.
Qed.

Lemma Held_fire t b : Held b → Held (fire t b).
Proof.
  intros HH. unfold fire. apply Held_runCallback.
  intros t' Ht'. apply (Held_clearTimeout (handle t) b HH t' Ht').
Qed.

(** One round per pending timer fires everything that is due. *)
Lemma fireDue_complete target : ∀ fuel b,
  (length (timers b) ≤ fuel)%nat →
  nextDue target (timers (fireDue fuel target b)) = None.
Proof.
  induction fuel as [|fuel IH]; intros b Hlen; simpl.
  - destruct (timers b); [done|]. simpl in Hlen. lia.
  - destruct (nextDue target (timers b)) as [t|] eqn:Hdue; [|done].
    apply IH. pose proof (fire_timers_lt t b (nextDue_elem_of _ _ _ Hdue)). lia.
Qed.

Lemma Held_fireDue target : ∀ fuel b, Held b → Held (fireDue fuel target b).
Proof.
  induction fuel as [|fuel IH]; intros b HH; simpl; [done|].
  destruct (nextDue target (timers b)) as [t|]; [|done].
  by apply IH, Held_fire.
Qed.

Lemma Held_advance ms b : Held b → Held (advance ms b).
Proof.
  intros HH t Ht. apply (Held_fireDue (clock b + ms) (length (timers b)) b HH t Ht).
Qed.

Lemma Held_step b s : Held b → Held (step b s).
Proof.
  intros HH. destruct s; simpl.
  - by apply Held_push.
  - by apply Held_trigger.
  - by apply Held_clear.
  - intros t Ht. rewrite (dispose_no_timers b HH) in Ht. by apply elem_of_nil in Ht.
  - intros t Ht. apply (HH t Ht).
  - by apply Held_advance.
Qed.

Lemma Held_run script : ∀ b, Held b → Held (run script b).
Proof.
  induction script as [|s script IH]; intros b HH; simpl; [done|].
  by apply IH, Held_step.
Qed.

Lemma advance_no_timers ms b :
  timers b = [] → advance ms b = withClock (Z.max (clock b) (clock b + ms)) b.
Proof. intros Hts. unfold advance. rewrite Hts. done. Qed.

(** C9.  After [dispose], whatever was done to the batcher before, no
    timer is pending and no chat state is left, so however far time
    advances afterwards the flush callback is not called again. *)
Theorem dispose_silences_batcher :
  ∀ (script : list Step) (startedAt now : Z) (delays : list Z),
    timers (dispose (run script (createChatBatcher startedAt now))) = []
    ∧ chatStates (dispose (run script (createChatBatcher startedAt now))) = []
    ∧ calls (run (map Advance delays)
               (dispose (run script (createChatBatcher startedAt now))))
      = calls (run script (createChatBatcher startedAt now)).
Proof.
  intros script startedAt now delays.
  pose proof (Held_run script _ (Held_create startedAt now)) as HH.
  set (b := run script (createChatBatcher startedAt now)) in *.
  pose proof (dispose_no_timers b HH) as Hts.
  split; [done|]. split; [done|].
  assert (Hcalls : calls (dispose b) = calls b).
  { simpl. by destruct (clearAll_frame (chatStates b) b) as (-> & _). }
  rewrite <- Hcalls. clear Hcalls. generalize dependent (dispose b). clear.
  induction delays as [|ms delays IH]; intros d Hts; [done|].
  change (calls (run (map Advance delays) (advance ms d)) = calls d).
  rewrite advance_no_timers by done. by rewrite IH.
Qed.

(** *** A chat whose buffer is empty stays silent while only time passes *)

Definition Drained (chat : string) b : Prop :=
  ∀ ref st, mapGet chat (chatStates b) = Some ref → heap b !! ref = Some st →
            buffer st = [].

Definition callsFor (chat : string) b : list (BatchFlushEvent * Settled) :=
  filter (λ c, flushChatId c.1 = chat) (calls b).

Lemma capture_Drained chat trigger b :
  Drained chat b → capture chat trigger b = (b, None).
Proof.
  intros HD. unfold capture.
  destruct (mapGet chat (chatStates b)) as [ref|] eqn:Hget; [|done].
  destruct (heap b !! ref) as [st|] eqn:Hst; [|done].
  by rewrite (HD ref st Hget Hst).
Qed.

Lemma Drained_capture chat chat' trigger b :
  Drained chat b → Drained chat (capture chat' trigger b).1.
Proof.
  intros HD ref st1. destruct (capture_frame chat' trigger b) as (_ & _ & -> & _).
  intros Hget Hst1. apply capture_buffers in Hst1 as (st0 & Hst0 & [->| ->]); [|done].
  by apply (HD ref).
Qed.

Lemma flush_Drained chat chat' trigger b :
  Drained chat b →
  Drained chat (flush chat' trigger b)
  ∧ callsFor chat (flush chat' trigger b) = callsFor chat b.
Proof.
  intros HD. unfold flush.
  pose proof (Drained_capture chat chat' trigger b HD) as HD1.
  destruct (capture chat' trigger b) as [b1 [event|]] eqn:Hcap; simpl in HD1.
  - destruct (decide (chat' = chat)) as [->|Hne].
    { rewrite capture_Drained in Hcap by done. done. }
    apply capture_Some in Hcap as (ref & st & _ & _ & _ & -> & Hb1).
    assert (Hcalls : calls b1 = calls b).
    { subst b1. by destruct (clearTimers_frame ref (setState ref (reset st) b))
        as (_ & _ & _ & _ & _ & ->). }
    split.
    + intros r st1. destruct (invokeCallback_frame
        {| flushChatId := chat'; flushMessages := buffer st;
           triggeredBy := trigger; triggeredAt := clock b |} b1)
        as (_ & _ & -> & -> & _). apply HD1.
    + unfold callsFor, invokeCallback. destruct (flushCallback b1); simpl.
      * rewrite filter_app, Hcalls. rewrite filter_cons_False by done.
        by rewrite filter_nil, app_nil_r.
      * by rewrite Hcalls.
  - apply capture_None in Hcap as ->. done.
Qed.

Lemma runCallback_Drained chat cb b :
  Drained chat b →
  Drained chat (runCallback cb b)
  ∧ callsFor chat (runCallback cb b) = callsFor chat b.
Proof.
  intros HD. destruct cb as [c ref|c trigger]; simpl.
  - destruct (heap b !! ref) as [st|]; [|done].
    destruct (hasTrigger st && negb (isInStartupPeriod b)); [|done].
    by apply flush_Drained.
  - by apply flush_Drained.
Qed.

Lemma fire_Drained chat t b :
  Drained chat b →
  Drained chat (fire t b) ∧ callsFor chat (fire t b) = callsFor chat b.
Proof.
  intros HD. unfold fire.
  apply (runCallback_Drained chat (callback t)
           (withClock (Z.max (clock b) (deadline t)) (clearTimeout (handle t) b))).
  exact HD.
Qed.

Lemma fireDue_Drained chat target : ∀ fuel b,
  Drained chat b →
  Drained chat (fireDue fuel target b)
  ∧ callsFor chat (fireDue fuel target b) = callsFor chat b.
Proof.
  induction fuel as [|fuel IH]; intros b HD; simpl; [done|].
  destruct (nextDue target (timers b)) as [t|]; [|done].
  destruct (fire_Drained chat t b HD) as [HD1 <-]. by apply IH.
Qed.

Lemma advance_Drained chat ms b :
  Drained chat b →
  Drained chat (advance ms b) ∧ callsFor chat (advance ms b) = callsFor chat b.
Proof.
  intros HD. unfold advance.
  apply (fireDue_Drained chat (clock b + ms) (length (timers b)) b HD).
Qed.

Lemma advances_Drained chat delays : ∀ b,
  Drained chat b →
  callsFor chat (run (map Advance delays) b) = callsFor chat b.
Proof.
  induction delays as [|ms delays IH]; intros b HD; [done|].
  change (callsFor chat (run (map Advance delays) (advance ms b)) = callsFor chat b).
  destruct (advance_Drained chat ms b HD) as [HD1 <-]. by apply IH.
Qed.

(** C8.  When [flush] reaches its callback, the list it hands over is the
    chat's buffer and is not empty, and the chat's state has already been
    reset: buffer empty, trigger flag and id cleared, both timer fields
    undefined and their timers cancelled.  The callback only adds to the
    record of calls, so the state after [flush] is that reset state
    whether the callback fulfils or rejects; the turn is not flushed
    again: a second [flush] returns at once, and while only time passes
    the callback is never called for this chat. *)
Theorem flush_resets_before_callback :
  ∀ (b b1 : Batcher) (chat trigger : string) (event : BatchFlushEvent),
    capture chat trigger b = (b1, Some event) →
    flushMessages event ≠ []
    ∧ (∃ ref st,
         mapGet chat (chatStates b) = Some ref ∧ heap b !! ref = Some st
         ∧ flushMessages event = buffer st
         ∧ mapGet chat (chatStates b1) = Some ref
         ∧ heap b1 !! ref
           = Some {| buffer := []; hasTrigger := false; triggerId := None;
                     debounceTimer := None; idleTimer := None;
                     lastMessageAt := lastMessageAt st |}
         ∧ ∀ t, t ∈ timers b1 → ¬ holds st (handle t))
    ∧ calls b1 = calls b
    ∧ (heap (flush chat trigger b) = heap b1
       ∧ chatStates (flush chat trigger b) = chatStates b1
       ∧ timers (flush chat trigger b) = timers b1
       ∧ calls (flush chat trigger b)
         = calls b ++ match flushCallback b with
                      | Some cb => [(event, cb event)]
                      | None => []
                      end)
    ∧ (∀ trigger', capture chat trigger' (flush chat trigger b)
                   = (flush chat trigger b, None))
    ∧ (∀ delays, callsFor chat (run (map Advance delays) (flush chat trigger b))
                 = callsFor chat (flush chat trigger b)).
Proof.
  intros b b1 chat trigger event Hcap.
  pose proof Hcap as Hcap'.
  apply capture_Some in Hcap' as (ref & st & Hget & Hst & Hbuf & -> & ->).
  set (b1 := clearTimers ref (setState ref (reset st) b)) in *.
  assert (Hlt : (ref < length (heap b))%nat) by (by eapply lookup_lt_Some).
  assert (Hst' : heap (setState ref (reset st) b) !! ref = Some (reset st))
    by (simpl; by apply list_lookup_insert_eq).
  destruct (clearTimers_frame ref (setState ref (reset st) b))
    as (_ & _ & Hcs & _ & Hcb & Hcalls).
  fold b1 in Hcs, Hcb, Hcalls. simpl in Hcs, Hcb, Hcalls.
  assert (Hheap : heap b1 !! ref = Some (cleared (reset st))).
  { unfold b1. rewrite clearTimers_lookup, decide_True by done. by rewrite Hst'. }
  assert (Hflush : flush chat trigger b
                   = invokeCallback
                       {| flushChatId := chat; flushMessages := buffer st;
                          triggeredBy := trigger; triggeredAt := clock b |} b1).
  { unfold flush. by rewrite Hcap. }
  assert (HD : Drained chat (flush chat trigger b)).
  { intros r st1. rewrite Hflush.
    destruct (invokeCallback_frame
      {| flushChatId := chat; flushMessages := buffer st;
         triggeredBy := trigger; triggeredAt := clock b |} b1)
      as (_ & _ & -> & -> & _).
    rewrite Hcs, Hget. intros [= <-]. rewrite Hheap. by intros [= <-]. }
  split; [done|]. split; [|split; [done|split; [|split]]].
  - exists ref, st. repeat split; try done.
    + by rewrite Hcs.
    + intros t Ht Hh.
      destruct (clearTimers_removed ref _ (reset st) t Hst' Ht) as [Hd Hi].
      simpl in Hd, Hi. destruct Hh; congruence.
  - rewrite Hflush.
    destruct (invokeCallback_frame
      {| flushChatId := chat; flushMessages := buffer st;
         triggeredBy := trigger; triggeredAt := clock b |} b1)
      as (_ & _ & -> & -> & -> & _).
    repeat split. unfold invokeCallback. rewrite Hcb, Hcalls.
    destruct (flushCallback b); simpl; [done|]. by rewrite app_nil_r.
  - intros trigger'. by apply capture_Drained.
  - intros delays. by apply advances_Drained.
Qed.

Lemma flush_resets_before_callback_witness :
  flushMessages
    {| flushChatId := "oc_1"; flushMessages := [msg "oc_1" "m1"];
       triggeredBy := "m1"; triggeredAt := 0 |} ≠ []
  ∧ calls (flush "oc_1" "m1" armed)
    = [({| flushChatId := "oc_1"; flushMessages := [msg "oc_1" "m1"];
           triggeredBy := "m1"; triggeredAt := 0 |}, Rejected)]
  ∧ capture "oc_1" "again" (flush "oc_1" "m1" armed)
    = (flush "oc_1" "m1" armed, None).
Proof.
  pose proof (flush_resets_before_callback armed
                (capture "oc_1" "m1" armed).1 "oc_1" "m1"
                {| flushChatId := "oc_1"; flushMessages := [msg "oc_1" "m1"];
                   triggeredBy := "m1"; triggeredAt := 0 |} eq_refl)
    as (Hne & _ & _ & (_ & _ & _ & Hcalls) & Hagain & _).
  split; [exact Hne|]. split; [exact Hcalls|]. exact (Hagain "again").
Defined.

(** *** The startup window *)


(** *** No timer runs longer than the idle threshold *)










Lemma clearAll_sublist entries : ∀ b,
  timers (clearAll entries b) `sublist_of` timers b.
Proof.
  induction entries as [|[c r] entries IH]; intros b; simpl; [done|].
  etrans; [apply IH|apply clearTimers_sublist].
Qed.








End BatcherFacts.

(* ===================================================================== *)
(** ** Further properties: watermarks and sweeps in sequence *)
(* ===================================================================== *)

Module SequenceFacts.
Import Watermark Dedup Pipeline.

Lemma fold_max_ge (l : list Z) : ∀ w, w <= fold_left Z.max l w.
Proof.
  induction l as [|t l IH]; intros w; simpl; [lia|].
  specialize (IH (Z.max w t)). lia.
Qed.

Lemma fold_max_elem (l : list Z) t : t ∈ l → ∀ w, t <= fold_left Z.max l w.
Proof.
  induction l as [|x l IH]; intros Hin w; [by apply elem_of_nil in Hin|].
  simpl. apply elem_of_cons in Hin as [->|Hin].
  - pose proof (fold_max_ge l (Z.max w x)). lia.
  - by apply IH.
Qed.

Lemma watermarkOf_updateAll accepted : ∀ (m : gmap string Z) chatId,
  watermarkOf chatId (updateAll accepted m)
  = fold_left Z.max (timesFor chatId accepted) (watermarkOf chatId m).
Proof.
  induction accepted as [|[c t] accepted IH]; intros m chatId; [done|].
  unfold updateAll, timesFor in *. simpl. rewrite IH.
  case_decide as Hc.
  - subst. simpl. by rewrite WatermarkFacts.watermarkOf_update.
  - by rewrite WatermarkFacts.watermarkOf_update_other.
Qed.

Lemma timesFor_elem chatId t accepted :
  (chatId, t) ∈ accepted → t ∈ timesFor chatId accepted.
Proof.
  intros Hin. unfold timesFor. apply list_elem_of_omap.
  exists (chatId, t). split; [done|]. simpl. by rewrite decide_True.
Qed.

(** X1.  After any series of [updateWatermark] calls, for any chats, the
    watermark of a chat is the maximum of its old value and the times
    accepted for that chat; it has not decreased, and every time stamp
    accepted for the chat is stale afterwards. *)
Theorem watermark_is_running_maximum :
  ∀ (accepted : list (string * Z)) (m : gmap string Z) (chatId : string),
    watermarkOf chatId (updateAll accepted m)
    = fold_left Z.max (timesFor chatId accepted) (watermarkOf chatId m)
    ∧ watermarkOf chatId m <= watermarkOf chatId (updateAll accepted m)
    ∧ ∀ t, (chatId, t) ∈ accepted →
           isStaleMessage chatId t (updateAll accepted m) = true.
Proof.
  intros accepted m chatId. rewrite watermarkOf_updateAll.
  split; [done|]. split; [apply fold_max_ge|].
  intros t Hin. unfold isStaleMessage. apply bool_decide_eq_true.
  rewrite watermarkOf_updateAll. by apply fold_max_elem, timesFor_elem.
Qed.

(** X2.  Sweeps compose: a sweep at [t1] and a sweep at a later time [t2],
    in either order, leave what the sweep at [t2] alone leaves; so a sweep
    repeated at the same time changes nothing, and no sweep ever drops an
    entry that a later sweep would keep. *)
Theorem sweeps_compose :
  ∀ (t1 t2 : Z) (m : gmap string Z),
    t1 <= t2 →
    cleanupDedupEntries t2 (cleanupDedupEntries t1 m) = cleanupDedupEntries t2 m
    ∧ cleanupDedupEntries t1 (cleanupDedupEntries t2 m) = cleanupDedupEntries t2 m.
Proof.
  intros t1 t2 m Hle.
  split; apply map_eq; intros e; apply option_eq; intros ts;
    rewrite !DedupFacts.cleanup_lookup_Some; intuition lia.
Qed.

Lemma sweeps_compose_witness :
  cleanupDedupEntries 90000000
    (cleanupDedupEntries 86400001 {["ev_1" := 0; "ev_2" := 5000000]})
  = cleanupDedupEntries 90000000 {["ev_1" := 0; "ev_2" := 5000000]}.
Proof.
  exact (proj1 (sweeps_compose 86400001 90000000
                  {["ev_1" := 0; "ev_2" := 5000000]} ltac:(lia))).
Defined.

End SequenceFacts.

(* ===================================================================== *)
(** ** Further properties: back-off schedule and reconnect loop *)
(* ===================================================================== *)

Module BackoffFacts.
Import Reconnect.

Lemma pow2_mono (a b : nat) : (a ≤ b)%nat → 2 ^ Z.of_nat a <= 2 ^ Z.of_nat b.
Proof. intros Hab. apply Z.pow_le_mono_r; lia. Qed.

(** X3.  The back-off delay is 1000 ms for attempt 0, never below 1000 ms
    nor above 60000 ms, does not decrease as the attempt number grows, and
    is 60000 ms from attempt 6 on. *)
Theorem backoff_delay_bounds :
  ∀ (attempt later : nat),
    (attempt ≤ later)%nat →
    calculateBackoffDelay 0 = 1000
    ∧ 1000 <= calculateBackoffDelay attempt <= 60000
    ∧ calculateBackoffDelay attempt <= calculateBackoffDelay later
    ∧ ((6 ≤ attempt)%nat → calculateBackoffDelay attempt = 60000).
Proof.
  intros attempt later Hle. unfold calculateBackoffDelay,
    RECONNECT_BASE_DELAY_MS, RECONNECT_MAX_DELAY_MS. simpl.
  assert (H0 : 1 <= 2 ^ Z.of_nat attempt) by (apply (pow2_mono 0); lia).
  pose proof (pow2_mono attempt later Hle) as Hmono.
  split; [done|]. split; [lia|]. split; [lia|].
  intros H6. pose proof (pow2_mono 6 attempt H6) as Hbig.
  change (2 ^ Z.of_nat 6) with 64 in Hbig. lia.
Qed.

Lemma backoff_delay_bounds_witness :
  calculateBackoffDelay 3 <= calculateBackoffDelay 7
  ∧ calculateBackoffDelay 7 = 60000.
Proof.
  pose proof (backoff_delay_bounds 7 7 ltac:(lia)) as (_ & _ & _ & Hcap).
  pose proof (backoff_delay_bounds 3 7 ltac:(lia)) as (_ & _ & Hmono & _).
  split; [exact Hmono|]. apply Hcap. lia.
Defined.

(** The delays still ahead of a loop that has failed [k] times. *)
Definition remaining (k : nat) : list Z :=
  map calculateBackoffDelay (seq (S k) (19 - k)).

Lemma remaining_step k : (S k < 20)%nat →
  remaining k = calculateBackoffDelay (S k) :: remaining (S k).
Proof.
  intros Hk. unfold remaining. replace (19 - k)%nat with (S (19 - S k)) by lia. done.
Qed.

Lemma loop_from script : ∀ st,
  (reconnectAttempts st < 20)%nat →
  (startWithReconnect script st).1.2 `prefix_of` remaining (reconnectAttempts st)
  ∧ ((startWithReconnect script st).2 = Threw →
       (startWithReconnect script st).1.2 = remaining (reconnectAttempts st)
       ∧ reconnectAttempts (startWithReconnect script st).1.1 = 20%nat
       ∧ shouldStop (startWithReconnect script st).1.1 = false)
  ∧ ((startWithReconnect script st).2 = Returned →
       shouldStop (startWithReconnect script st).1.1 = true)
  ∧ ((startWithReconnect script st).2 = Connected →
       reconnectAttempts (startWithReconnect script st).1.1 = 0%nat
       ∧ shouldStop (startWithReconnect script st).1.1 = false).
Proof.
  induction script as [|a script IH]; intros st Hk.
  - simpl. unfold RECONNECT_MAX_ATTEMPTS.
    rewrite (bool_decide_eq_true_2 _ Hk). simpl.
    destruct (shouldStop st) eqn:Hstop; simpl;
      (split; [apply prefix_nil|]); repeat split; done.
  - cbn [startWithReconnect]. unfold RECONNECT_MAX_ATTEMPTS.
    rewrite (bool_decide_eq_true_2 _ Hk). simpl negb. rewrite orb_false_r.
    destruct (shouldStop st) eqn:Hstop.
    { simpl. split; [apply prefix_nil|]. repeat split; done. }
    unfold loopBody. rewrite Hstop. simpl orb.
    destruct (connect a).
    + cbn [reconnectAttempts shouldStop].
      destruct (stopWhilePending a) eqn:Hp; simpl;
        (split; [apply prefix_nil|]); repeat split; done.
    + cbn [reconnectAttempts shouldStop].
      destruct (stopWhilePending a) eqn:Hp.
      { simpl. split; [apply prefix_nil|]. repeat split; done. }
      unfold RECONNECT_MAX_ATTEMPTS. case_bool_decide as Hmax.
      * simpl. split; [apply prefix_nil|].
        assert (reconnectAttempts st = 19%nat) as Hk19 by lia.
        split; [|split; done]. intros _. rewrite Hk19. repeat split; done.
      * set (st1 := requestStop (stopWhileSleeping a) _).
        assert (Hk1 : reconnectAttempts st1 = S (reconnectAttempts st)) by done.
        specialize (IH st1). rewrite Hk1 in IH.
        destruct (IH ltac:(lia)) as (Hpre & Hthrew & Hret & Hconn).
        destruct (startWithReconnect script st1) as [[st2 slept] e].
        simpl in *. rewrite remaining_step by lia.
        split; [by apply prefix_cons|].
        split; [|split; done].
        intros He. destruct (Hthrew He) as (-> & ? & ?). done.
Qed.

(** X4.  Whatever the connection attempts do and whenever a stop is
    requested, a loop entered from the state [startGateway] sets sleeps a
    prefix of the schedule 2 s, 4 s, 8 s, 16 s, 32 s, 60 s (14 times): at
    most 19 sleeps.  It throws only after sleeping the whole schedule,
    with the counter at 20 and no stop requested; it returns only when a
    stop was requested; and when it stays connected the counter is 0. *)
Theorem reconnect_loop_follows_schedule :
  ∀ (script : list Attempt),
    (startWithReconnect script resetState).1.2
      `prefix_of` [2000; 4000; 8000; 16000; 32000] ++ replicate 14 60000
    ∧ ((startWithReconnect script resetState).2 = Threw →
         (startWithReconnect script resetState).1.2
         = [2000; 4000; 8000; 16000; 32000] ++ replicate 14 60000
         ∧ reconnectAttempts (startWithReconnect script resetState).1.1 = 20%nat
         ∧ shouldStop (startWithReconnect script resetState).1.1 = false)
    ∧ ((startWithReconnect script resetState).2 = Returned →
         shouldStop (startWithReconnect script resetState).1.1 = true)
    ∧ ((startWithReconnect script resetState).2 = Connected →
         reconnectAttempts (startWithReconnect script resetState).1.1 = 0%nat
         ∧ shouldStop (startWithReconnect script resetState).1.1 = false).
Proof.
  intros script. apply (loop_from script resetState). simpl. lia.
Qed.

End BackoffFacts.

(* ===================================================================== *)
(** ** Further properties: serial queue *)
(* ===================================================================== *)

Module QueueFacts.
Import SerialQueue SerialQueueViews SerialQueueFacts.
Section WithJob.
Context {Job : Type}.
Implicit Types (s : Queues Job) (events : list (Event Job)) (t : list (Trace Job)).

(** X5.  The map holds an entry for a chat exactly while a handler of that
    chat is in flight, and such an entry is marked as processing: a chat
    whose jobs have all settled occupies no entry. *)
Theorem queue_entry_iff_handler_in_flight :
  ∀ (events : list (Event Job)) (c : string),
    (is_Some (chatQueues (run events) !! c) ↔ is_Some (awaiting (run events) !! c))
    ∧ ∀ q, chatQueues (run events) !! c = Some q → processing q = true.
Proof.
  intros events c. destruct (Inv_run events) as [Hloop Hproc _ _].
  split; [apply Hloop|apply Hproc].
Qed.

(** What one chat sees of a state. *)
Definition sameView (c : string) s s' : Prop :=
  chatQueues s !! c = chatQueues s' !! c
  ∧ awaiting s !! c = awaiting s' !! c
  ∧ traceFor c (trace s) = traceFor c (trace s').

Lemma traceFor_app c t1 t2 : traceFor c (t1 ++ t2) = traceFor c t1 ++ traceFor c t2.
Proof. apply filter_app. Qed.

Lemma traceFor_other c t x : traceChat x ≠ c → traceFor c (t ++ [x]) = traceFor c t.
Proof.
  intros Hne. rewrite traceFor_app. unfold traceFor at 2.
  rewrite filter_cons_False by done. by rewrite filter_nil, app_nil_r.
Qed.

Lemma traceFor_own c t x : traceChat x = c → traceFor c (t ++ [x]) = traceFor c t ++ [x].
Proof.
  intros He. rewrite traceFor_app. unfold traceFor at 2.
  by rewrite filter_cons_True.
Qed.

Lemma drain_other c c' s : c' ≠ c → sameView c (drain c' s) s.
Proof.
  intros Hne. unfold drain, sameView.
  destruct (chatQueues s !! c') as [q|]; [|done].
  destruct (messages q) as [|item rest]; simpl.
  - rewrite lookup_delete_ne by done. by rewrite traceFor_other.
  - rewrite !lookup_insert_ne by done. by rewrite traceFor_other.
Qed.

Lemma step_other c s e : eventChat e ≠ c → sameView c (step s e) s.
Proof.
  intros Hne. destruct e as [c' job|c' ok]; simpl in *.
  - unfold enqueueMessage. simpl.
    set (q1 := {| messages := _; processing := _ |}).
    set (s1 := {| chatQueues := _; awaiting := _; trace := _ |}).
    assert (H1 : sameView c s1 s).
    { unfold sameView, s1. simpl. rewrite lookup_insert_ne by done.
      by rewrite traceFor_other. }
    destruct (processing _); [done|].
    unfold processQueue. destruct (chatQueues s1 !! c') as [q|]; [|done].
    destruct (processing q); [done|].
    set (s2 := {| chatQueues := _; awaiting := _; trace := _ |}).
    assert (H2 : sameView c s2 s).
    { destruct H1 as (Ha & Hb & Hc). unfold sameView, s2. simpl.
      rewrite lookup_insert_ne by done. by rewrite traceFor_other. }
    destruct (drain_other c c' s2 Hne) as (Ha & Hb & Hc).
    destruct H2 as (Ha2 & Hb2 & Hc2). unfold sameView. by rewrite Ha, Hb, Hc.
  - unfold settle. destruct (awaiting s !! c') as [item|]; [|done].
    set (s1 := {| chatQueues := _; awaiting := _; trace := _ |}).
    assert (H1 : sameView c s1 s).
    { unfold sameView, s1. simpl. rewrite lookup_delete_ne by done.
      rewrite traceFor_other; [done|by destruct ok]. }
    destruct (drain_other c c' s1 Hne) as (Ha & Hb & Hc).
    destruct H1 as (Ha1 & Hb1 & Hc1). unfold sameView. by rewrite Ha, Hb, Hc.
Qed.

Lemma drain_own c s s' : sameView c s s' → sameView c (drain c s) (drain c s').
Proof.
  intros HV. pose proof HV as (Ha & Hb & Hc). unfold drain. rewrite <- Ha.
  destruct (chatQueues s !! c) as [q|] eqn:Hq; [|exact HV].
  destruct (messages q) as [|item rest]; unfold sameView; simpl.
  - rewrite !lookup_delete_eq, !traceFor_own by done. by rewrite Hb, Hc.
  - rewrite !lookup_insert_eq, !traceFor_own by done. by rewrite Hc.
Qed.

Lemma sameView_snoc c s s' x (qs qs' : gmap string (ChatQueue Job))
    (aw aw' : gmap string Job) :
  traceChat x = c → qs !! c = qs' !! c → aw !! c = aw' !! c →
  traceFor c (trace s) = traceFor c (trace s') →
  sameView c {| chatQueues := qs; awaiting := aw; trace := trace s ++ [x] |}
             {| chatQueues := qs'; awaiting := aw'; trace := trace s' ++ [x] |}.
Proof.
  intros Hx Hq Ha Ht. unfold sameView. simpl.
  rewrite !traceFor_own by done. by rewrite Hq, Ha, Ht.
Qed.

Lemma processQueue_own c s s' :
  sameView c s s' → sameView c (processQueue c s) (processQueue c s').
Proof.
  intros HV. pose proof HV as (Ha & Hb & Hc). unfold processQueue. rewrite <- Ha.
  destruct (chatQueues s !! c) as [q|]; [|exact HV].
  destruct (processing q); [exact HV|].
  apply drain_own.
  apply (sameView_snoc c s s' (Started c)); [done| |done|done].
  by rewrite !lookup_insert_eq.
Qed.

Lemma step_own c s s' e :
  eventChat e = c → sameView c s s' → sameView c (step s e) (step s' e).
Proof.
  intros He HV. pose proof HV as (Ha & Hb & Hc).
  destruct e as [c' job|c' ok]; simpl in He; subst c'; simpl.
  - unfold enqueueMessage. rewrite <- Ha.
    match goal with
    | |- sameView c (if _ then ?a else _) (if _ then ?b else _) =>
        assert (H1 : sameView c a b)
    end.
    { apply (sameView_snoc c s s'); [done| |done|done].
      by rewrite !lookup_insert_eq. }
    destruct (processing _); [exact H1|]. by apply processQueue_own.
  - unfold settle. rewrite <- Hb.
    destruct (awaiting s !! c) as [item|]; [|exact HV].
    apply drain_own.
    apply (sameView_snoc c s s'); [by destruct ok|done| |done].
    by rewrite !lookup_delete_eq.
Qed.

Lemma sameView_trans c s1 s2 s3 : sameView c s1 s2 → sameView c s2 s3 → sameView c s1 s3.
Proof. intros (? & ? & ?) (? & ? & ?). unfold sameView. split_and!; congruence. Qed.

Lemma runs_sameView c events : ∀ s s',
  sameView c s s' →
  sameView c (fold_left step events s) (fold_left step (eventsFor c events) s').
Proof.
  induction events as [|e events IH]; intros s s' HV; [done|].
  unfold eventsFor. rewrite filter_cons. simpl. case_decide as He.
  - simpl. apply IH. by apply step_own.
  - apply IH. eapply sameView_trans; [by apply step_other|done].
Qed.

(** X6.  Chats do not interfere: what a chat's queue does (its logger
    lines and handler calls, in order), its queue entry and the handler it
    awaits are the same as if only the events of that chat had happened. *)
Theorem chats_do_not_interfere :
  ∀ (events : list (Event Job)) (c : string),
    traceFor c (trace (run events)) = traceFor c (trace (run (eventsFor c events)))
    ∧ chatQueues (run events) !! c = chatQueues (run (eventsFor c events)) !! c
    ∧ awaiting (run events) !! c = awaiting (run (eventsFor c events)) !! c.
Proof.
  intros events c.
  destruct (runs_sameView c events initial initial) as (Ha & Hb & Hc); [done|].
  done.
Qed.

Lemma settle_reachable events c item ok :
  awaiting (run events) !! c = Some item →
  match pendingFor c (run events) with
  | next :: rest =>
      awaiting (settle c ok (run events)) !! c = Some next
      ∧ pendingFor c (settle c ok (run events)) = rest
  | [] =>
      chatQueues (settle c ok (run events)) !! c = None
      ∧ awaiting (settle c ok (run events)) !! c = None
      ∧ invokedFor c (trace (settle c ok (run events)))
        = invokedFor c (trace (run events))
  end.
Proof.
  intros Haw. destruct (Inv_run events) as [Hloop _ _ _].
  assert (is_Some (chatQueues (run events) !! c)) as [q Hq] by (apply Hloop; eauto).
  unfold pendingFor at 1. rewrite Hq.
  unfold settle. rewrite Haw. unfold drain. cbn [chatQueues]. rewrite Hq.
  destruct (messages q) as [|next rest]; cbn [trace chatQueues awaiting].
  - rewrite !lookup_delete_eq. split; [done|]. split; [done|].
    rewrite !invokedFor_app. destruct ok; cbn; by rewrite !app_nil_r.
  - unfold pendingFor. cbn [chatQueues]. by rewrite !lookup_insert_eq.
Qed.

Lemma settleEach_drains c oks : ∀ events,
  is_Some (awaiting (run events) !! c) →
  length oks = S (length (pendingFor c (run events))) →
  chatQueues (settleEach c oks (run events)) !! c = None
  ∧ awaiting (settleEach c oks (run events)) !! c = None
  ∧ invokedFor c (trace (settleEach c oks (run events))) = enqueuedFor c events.
Proof.
  induction oks as [|ok oks IH]; intros events [item Haw] Hlen; [done|].
  change (settleEach c (ok :: oks) (run events))
    with (settleEach c oks (settle c ok (run events))).
  pose proof (settle_reachable events c item ok Haw) as Hstep.
  assert (Hrun : settle c ok (run events) = run (events ++ [Settle c ok]))
    by (by rewrite run_snoc).
  assert (Henq : enqueuedFor c (events ++ [Settle c ok]) = enqueuedFor c events)
    by (rewrite enqueuedFor_app; simpl; by rewrite app_nil_r).
  destruct (pendingFor c (run events)) as [|next rest] eqn:Hpend.
  - destruct oks; [|done]. destruct Hstep as (Hq & Ha & Hinv). simpl.
    split; [done|]. split; [done|].
    destruct (Inv_run events) as [_ _ _ Hfifo].
    by rewrite Hinv, Hfifo, Hpend, app_nil_r.
  - destruct Hstep as (Ha & Hrest). rewrite Hrun in *.
    rewrite <- Henq. apply IH; [eauto|]. rewrite Hrest. simpl in Hlen. lia.
Qed.

(** X7.  Every enqueued job of a chat is run: from any reachable state in
    which the chat has a handler in flight, once that handler and each
    queued one in turn have settled, whether by resolving or by throwing,
    the handlers called for the chat are exactly the jobs enqueued for it,
    in order, and the chat's entry is gone. *)
Theorem every_enqueued_job_runs :
  ∀ (events : list (Event Job)) (c : string) (oks : list bool),
    is_Some (awaiting (run events) !! c) →
    length oks = S (length (pendingFor c (run events))) →
    chatQueues (settleEach c oks (run events)) !! c = None
    ∧ awaiting (settleEach c oks (run events)) !! c = None
    ∧ invokedFor c (trace (settleEach c oks (run events))) = enqueuedFor c events.
Proof. intros events c oks. apply settleEach_drains. Qed.

(** C7.  For every chat: the handlers are called in the order the jobs
    were enqueued (the jobs called so far, followed by the jobs still
    queued, are the jobs enqueued), and no handler is called while the
    previous one of the chat is in flight.  The loop runs the jobs:
    whenever no handler of the chat is in flight, every job enqueued for
    it has been called and its entry is deleted; a job enqueued then is
    called at once, one enqueued while a handler is in flight is only
    appended.  When the handler in flight settles, by resolving or by
    throwing (which is logged), the loop goes on: it calls the next
    queued job, or, the queue being empty, ends and deletes the chat's
    entry from the map.  So a job enqueued in any state is called once
    the handlers before it have settled, whichever of them throw. *)
Theorem drain_loop_contract :
  ∀ (events : list (Event Job)) (c : string),
    enqueuedFor c events
    = invokedFor c (trace (run events)) ++ pendingFor c (run events)
    ∧ serialFrom c false (trace (run events))
      = Some (bool_decide (is_Some (awaiting (run events) !! c)))
    ∧ (awaiting (run events) !! c = None →
         chatQueues (run events) !! c = None
         ∧ invokedFor c (trace (run events)) = enqueuedFor c events)
    ∧ (∀ job : Job,
         match awaiting (run events) !! c with
         | None =>
             trace (enqueueMessage c job (run events))
             = trace (run events) ++ [Queued c 1; Started c; Invoked c job]
             ∧ awaiting (enqueueMessage c job (run events)) !! c = Some job
             ∧ pendingFor c (enqueueMessage c job (run events)) = []
         | Some item =>
             trace (enqueueMessage c job (run events))
             = trace (run events)
               ++ [Queued c (S (length (pendingFor c (run events))))]
             ∧ awaiting (enqueueMessage c job (run events)) !! c = Some item
             ∧ pendingFor c (enqueueMessage c job (run events))
               = pendingFor c (run events) ++ [job]
         end)
    ∧ (∀ (item : Job) (ok : bool), awaiting (run events) !! c = Some item →
        let settled := if ok then Resolved c item else ErrorLogged c item in
        match pendingFor c (run events) with
        | next :: rest =>
            trace (settle c ok (run events))
            = trace (run events) ++ [settled; Invoked c next]
            ∧ pendingFor c (settle c ok (run events)) = rest
            ∧ awaiting (settle c ok (run events)) !! c = Some next
        | [] =>
            trace (settle c ok (run events))
            = trace (run events) ++ [settled; Completed c]
            ∧ chatQueues (settle c ok (run events)) !! c = None
            ∧ awaiting (settle c ok (run events)) !! c = None
        end)
    ∧ (∀ (job : Job) (oks : list bool),
         length oks
         = S (length (pendingFor c (enqueueMessage c job (run events)))) →
         chatQueues (settleEach c oks (enqueueMessage c job (run events))) !! c
         = None
         ∧ awaiting (settleEach c oks (enqueueMessage c job (run events))) !! c
           = None
         ∧ invokedFor c
             (trace (settleEach c oks (enqueueMessage c job (run events))))
           = enqueuedFor c events ++ [job]).
Proof.
  intros events c. pose proof (Inv_run events) as [Hloop Hproc Hser Hfifo].
  assert (Henq : ∀ job : Job,
    match awaiting (run events) !! c with
    | None =>
        trace (enqueueMessage c job (run events))
        = trace (run events) ++ [Queued c 1; Started c; Invoked c job]
        ∧ awaiting (enqueueMessage c job (run events)) !! c = Some job
        ∧ pendingFor c (enqueueMessage c job (run events)) = []
    | Some item =>
        trace (enqueueMessage c job (run events))
        = trace (run events)
          ++ [Queued c (S (length (pendingFor c (run events))))]
        ∧ awaiting (enqueueMessage c job (run events)) !! c = Some item
        ∧ pendingFor c (enqueueMessage c job (run events))
          = pendingFor c (run events) ++ [job]
    end).
  { intros job. unfold enqueueMessage, pendingFor.
    destruct (awaiting (run events) !! c) as [item|] eqn:Haw.
    - assert (is_Some (chatQueues (run events) !! c)) as [q Hq]
        by (apply Hloop; eauto).
      rewrite Hq. simpl. rewrite (Hproc c q Hq). simpl.
      rewrite lookup_insert_eq. simpl. rewrite length_app, Nat.add_1_r. done.
    - assert (Hq : chatQueues (run events) !! c = None).
      { destruct (chatQueues (run events) !! c) eqn:E; [|done].
        assert (is_Some (awaiting (run events) !! c)) as [? ?]
          by (apply Hloop; eauto). congruence. }
      rewrite Hq. simpl.
      unfold processQueue. simpl. rewrite lookup_insert_eq. simpl.
      unfold drain. simpl. rewrite lookup_insert_eq. simpl.
      rewrite !lookup_insert_eq. simpl.
      by rewrite <- !app_assoc. }
  split; [apply Hfifo|]. split; [apply Hser|]. split; [|split; [exact Henq|split]].
  - intros Haw.
    assert (Hq : chatQueues (run events) !! c = None).
    { destruct (chatQueues (run events) !! c) eqn:E; [|done].
      assert (is_Some (awaiting (run events) !! c)) as [? ?]
        by (apply Hloop; eauto). congruence. }
    split; [done|]. rewrite Hfifo. unfold pendingFor. rewrite Hq.
    by rewrite app_nil_r.
  - intros item ok Haw settled.
    assert (is_Some (chatQueues (run events) !! c)) as [q Hq] by (apply Hloop; eauto).
    unfold pendingFor at 1. rewrite Hq.
    unfold settle. rewrite Haw. unfold drain. cbn [chatQueues]. rewrite Hq.
    destruct (messages q) as [|next rest]; cbn [trace chatQueues awaiting].
    + rewrite <- app_assoc. split; [done|].
      by rewrite !lookup_delete_eq.
    + rewrite <- app_assoc. split; [done|].
      unfold pendingFor. cbn [chatQueues]. by rewrite !lookup_insert_eq.
  - intros job oks Hlen.
    assert (Hrun : enqueueMessage c job (run events)
                   = run (events ++ [Enqueue c job])) by (by rewrite run_snoc).
    assert (Hall : enqueuedFor c (events ++ [Enqueue c job])
                   = enqueuedFor c events ++ [job]).
    { rewrite enqueuedFor_app. cbn. by rewrite decide_True. }
    rewrite <- Hall. rewrite Hrun in *. apply settleEach_drains; [|done].
    rewrite <- Hrun. specialize (Henq job).
    destruct (awaiting (run events) !! c); destruct Henq as (_ & -> & _); eauto.
Qed.

End WithJob.

Lemma every_enqueued_job_runs_witness :
  invokedFor "oc_1"
    (trace (settleEach "oc_1" [false; true; false]
              (run [Enqueue "oc_1" 1%nat; Enqueue "oc_2" 7%nat;
                    Enqueue "oc_1" 2%nat; Enqueue "oc_1" 3%nat])))
  = [1%nat; 2%nat; 3%nat].
Proof.
  exact (proj2 (proj2 (every_enqueued_job_runs
           [Enqueue "oc_1" 1%nat; Enqueue "oc_2" 7%nat;
            Enqueue "oc_1" 2%nat; Enqueue "oc_1" 3%nat]
           "oc_1" [false; true; false]
           (mk_is_Some _ _ eq_refl) eq_refl))).
Defined.

Lemma drain_loop_contract_witness :
  awaiting (run [Enqueue "oc_1" 1%nat; Enqueue "oc_1" 2%nat]) !! "oc_1"
  = Some 1%nat
  ∧ trace (settle "oc_1" false (run [Enqueue "oc_1" 1%nat; Enqueue "oc_1" 2%nat]))
    = trace (run [Enqueue "oc_1" 1%nat; Enqueue "oc_1" 2%nat])
      ++ [ErrorLogged "oc_1" 1%nat; Invoked "oc_1" 2%nat]
  ∧ invokedFor "oc_1"
      (trace (settleEach "oc_1" [false; false; true]
                (enqueueMessage "oc_1" 3%nat
                   (run [Enqueue "oc_1" 1%nat; Enqueue "oc_1" 2%nat]))))
    = [1%nat; 2%nat; 3%nat].
Proof.
  assert (Haw : awaiting (run [Enqueue "oc_1" 1%nat; Enqueue "oc_1" 2%nat]) !! "oc_1"
                = Some 1%nat) by reflexivity.
  split; [exact Haw|].
  pose proof (drain_loop_contract [Enqueue "oc_1" 1%nat; Enqueue "oc_1" 2%nat] "oc_1")
    as (_ & _ & _ & _ & Hsettle & Hall).
  split; [exact (proj1 (Hsettle 1%nat false Haw))|].
  exact (proj2 (proj2 (Hall 3%nat [false; false; true] eq_refl))).
Defined.

End QueueFacts.

(* ===================================================================== *)
(** ** Further properties: the handler over several deliveries, shutdown *)
(* ===================================================================== *)

Module PipelineFacts.
Import Handler Pipeline.

(** The handler after its deduplication stage, on the maps as that stage
    leaves them. *)
Definition filters (now : Z) (event : MessageReceivedEvent) (s : Maps)
    : Maps * Outcome :=
  if watermarked event
     && Watermark.isStaleMessage (default "" (chatOf event)) (default 0 (timeOf event))
          (chatWatermarks s)
  then (s, SkippedWatermark (default "" (chatOf event)))
  else if truthyNumber (timeOf event)
          && bool_decide (now - default 0 (timeOf event) > MAX_MESSAGE_AGE_MS)
  then (s, SkippedAge)
  else
    (if watermarked event
     then {| processedEvents := processedEvents s;
             chatWatermarks :=
               Watermark.updateWatermark (default "" (chatOf event))
                 (default 0 (timeOf event)) (chatWatermarks s) |}
     else s,
     Enqueued (default "unknown" (chatOf event))).

Lemma receive_duplicate now event s k ts :
  dedupKeyOf event = Some k → k ≠ "" → processedEvents s !! k = Some ts →
  receive now event s = (s, SkippedDuplicate k).
Proof.
  intros Hkey Hne Hseen. unfold receive. rewrite Hkey. simpl.
  rewrite bool_decide_eq_false_2 by done. simpl.
  unfold Dedup.isDuplicateEvent. rewrite Hseen. by destruct s.
Qed.

Lemma receive_new now event s k :
  dedupKeyOf event = Some k → k ≠ "" → processedEvents s !! k = None →
  receive now event s
  = filters now event {| processedEvents := <[k := now]> (processedEvents s);
                         chatWatermarks := chatWatermarks s |}.
Proof.
  intros Hkey Hne Hseen. unfold receive. rewrite Hkey. simpl.
  rewrite bool_decide_eq_false_2 by done. simpl.
  unfold Dedup.isDuplicateEvent. rewrite Hseen. done.
Qed.

Lemma receive_unkeyed now event s :
  truthyString (dedupKeyOf event) = false →
  receive now event s = filters now event s.
Proof.
  intros Hkey. unfold receive. rewrite Hkey. by destruct s.
Qed.

Lemma filters_events now event s :
  processedEvents (filters now event s).1 = processedEvents s.
Proof. unfold filters. by repeat case_match. Qed.

Lemma filters_watermark now event s c :
  Watermark.watermarkOf c (chatWatermarks s)
  <= Watermark.watermarkOf c (chatWatermarks (filters now event s).1).
Proof.
  unfold filters. repeat case_match; simpl; try lia.
  destruct (decide (default "" (chatOf event) = c)) as [<-|Hne].
  - rewrite WatermarkFacts.watermarkOf_update. lia.
  - rewrite WatermarkFacts.watermarkOf_update_other by done. lia.
Qed.

(** The three ways the deduplication stage can go. *)
Lemma receive_cases now event s :
  (∃ k ts, dedupKeyOf event = Some k ∧ k ≠ "" ∧ processedEvents s !! k = Some ts
           ∧ receive now event s = (s, SkippedDuplicate k))
  ∨ (∃ k, dedupKeyOf event = Some k ∧ k ≠ "" ∧ processedEvents s !! k = None
          ∧ receive now event s
            = filters now event {| processedEvents := <[k := now]> (processedEvents s);
                                   chatWatermarks := chatWatermarks s |})
  ∨ (truthyString (dedupKeyOf event) = false
     ∧ receive now event s = filters now event s).
Proof.
  destruct (truthyString (dedupKeyOf event)) eqn:Htruthy.
  - destruct (dedupKeyOf event) as [k|] eqn:Hkey; [|done].
    assert (k ≠ "") as Hne.
    { simpl in Htruthy. apply negb_true_iff, bool_decide_eq_false in Htruthy. done. }
    destruct (processedEvents s !! k) as [ts|] eqn:Hseen.
    + left. exists k, ts. eauto using receive_duplicate.
    + right; left. exists k. eauto using receive_new.
  - right; right. eauto using receive_unkeyed.
Qed.

Lemma receive_keeps_events now event s k ts :
  processedEvents s !! k = Some ts →
  processedEvents (receive now event s).1 !! k = Some ts.
Proof.
  intros Hseen.
  destruct (receive_cases now event s)
    as [(k' & ts' & _ & _ & _ & ->)|[(k' & _ & _ & Hnew & ->)|[_ ->]]].
  - done.
  - rewrite filters_events. simpl. rewrite lookup_insert_ne; [done|]. congruence.
  - by rewrite filters_events.
Qed.

Lemma receive_watermark now event s c :
  Watermark.watermarkOf c (chatWatermarks s)
  <= Watermark.watermarkOf c (chatWatermarks (receive now event s).1).
Proof.
  destruct (receive_cases now event s)
    as [(k' & ts' & _ & _ & _ & ->)|[(k' & _ & _ & Hnew & ->)|[_ ->]]].
  - simpl. lia.
  - apply (filters_watermark now event
             {| processedEvents := <[k' := now]> (processedEvents s);
                chatWatermarks := chatWatermarks s |}).
  - apply filters_watermark.
Qed.

Lemma receive_records now event s k :
  dedupKeyOf event = Some k → k ≠ "" →
  is_Some (processedEvents (receive now event s).1 !! k).
Proof.
  intros Hkey Hne.
  destruct (receive_cases now event s)
    as [(k' & ts' & Hk & _ & Hseen & ->)|[(k' & Hk & _ & Hnew & ->)|[Hk _]]].
  - simpl. assert (k' = k) as -> by congruence. eauto.
  - rewrite filters_events. simpl. assert (k' = k) as -> by congruence.
    rewrite lookup_insert_eq. eauto.
  - rewrite Hkey in Hk. simpl in Hk.
    apply negb_false_iff, bool_decide_eq_true in Hk. done.
Qed.

Lemma receiveAll_keeps_events deliveries : ∀ s k ts,
  processedEvents s !! k = Some ts →
  processedEvents (receiveAll deliveries s) !! k = Some ts.
Proof.
  induction deliveries as [|[now event] deliveries IH]; intros s k ts Hseen; [done|].
  apply IH. by apply receive_keeps_events.
Qed.

Lemma receiveAll_watermark deliveries : ∀ s c,
  Watermark.watermarkOf c (chatWatermarks s)
  <= Watermark.watermarkOf c (chatWatermarks (receiveAll deliveries s)).
Proof.
  induction deliveries as [|[now event] deliveries IH]; intros s c; [simpl; lia|].
  etrans; [apply (receive_watermark now event s c)|]. apply IH.
Qed.

(** X8.  An event that carries a non-empty event id (or, without one, a
    non-empty message id) is handled at most once: once it has been
    delivered, whatever the outcome of that delivery and whatever other
    events are delivered in between, a redelivery is skipped as a
    duplicate and changes neither map. *)
Theorem keyed_event_handled_at_most_once :
  ∀ (now now' : Z) (event : MessageReceivedEvent) (s : Maps)
    (between : list (Z * MessageReceivedEvent)) (k : string),
    dedupKeyOf event = Some k → k ≠ "" →
    receive now' event (receiveAll between (receive now event s).1)
    = (receiveAll between (receive now event s).1, SkippedDuplicate k).
Proof.
  intros now now' event s between k Hkey Hne.
  destruct (receive_records now event s k Hkey Hne) as [ts Hts].
  eapply receive_duplicate; [done..|].
  by apply receiveAll_keeps_events.
Qed.

Lemma keyed_event_handled_at_most_once_witness :
  receive 9000 {| event_id := Some "ev_1"; message := None |}
    (receiveAll [(5000, unidentified)]
       (receive 1000 {| event_id := Some "ev_1"; message := None |} empty).1)
  = (receiveAll [(5000, unidentified)]
       (receive 1000 {| event_id := Some "ev_1"; message := None |} empty).1,
     SkippedDuplicate "ev_1").
Proof.
  apply (keyed_event_handled_at_most_once 1000 9000
           {| event_id := Some "ev_1"; message := None |} empty
           [(5000, unidentified)] "ev_1" eq_refl).
  discriminate.
Defined.

Lemma filters_stale now event s c t :
  chatOf event = Some c → timeOf event = Some t → watermarked event = true →
  t <= Watermark.watermarkOf c (chatWatermarks s) →
  filters now event s = (s, SkippedWatermark c).
Proof.
  intros Hc Ht Hw Hstale. unfold filters. rewrite Hw, Hc, Ht. simpl.
  unfold Watermark.isStaleMessage. by rewrite bool_decide_eq_true_2.
Qed.

Lemma receive_enqueued_watermark now event s c t q :
  chatOf event = Some c → timeOf event = Some t → watermarked event = true →
  (receive now event s).2 = Enqueued q →
  t <= Watermark.watermarkOf c (chatWatermarks (receive now event s).1).
Proof.
  intros Hc Ht Hw.
  assert (Hf : ∀ s0, (filters now event s0).2 = Enqueued q →
            t <= Watermark.watermarkOf c (chatWatermarks (filters now event s0).1)).
  { intros s0. unfold filters. rewrite Hw, Hc, Ht. simpl.
    repeat case_match; simpl; try done. intros _.
    rewrite WatermarkFacts.watermarkOf_update. lia. }
  destruct (receive_cases now event s)
    as [(k' & ts' & _ & _ & _ & ->)|[(k' & _ & _ & Hnew & ->)|[_ ->]]];
    [done|apply Hf..].
Qed.

(** X9.  Once a message with a non-empty chat id [c] and a non-zero
    create time [t1] has been enqueued, no message of chat [c] with a
    non-zero create time at or before [t1] is enqueued any more, whatever
    is delivered in between: such a message is skipped, as a duplicate or
    as stale, and leaves the watermarks as they are.  A timed message that
    arrives after a newer one of its chat is therefore dropped.  (A
    message whose create time is 0 or missing is not compared with the
    watermark: see [FilterFacts.untimed_message_is_not_filtered].) *)
Theorem older_message_is_dropped :
  ∀ (now1 now2 : Z) (first later : MessageReceivedEvent) (s : Maps)
    (between : list (Z * MessageReceivedEvent)) (c q : string) (t1 t2 : Z),
    chatOf first = Some c → timeOf first = Some t1 → watermarked first = true →
    chatOf later = Some c → timeOf later = Some t2 → watermarked later = true →
    t2 <= t1 →
    (receive now1 first s).2 = Enqueued q →
    ((∃ k, (receive now2 later (receiveAll between (receive now1 first s).1)).2
            = SkippedDuplicate k)
     ∨ (receive now2 later (receiveAll between (receive now1 first s).1)).2
       = SkippedWatermark c)
    ∧ chatWatermarks (receive now2 later (receiveAll between (receive now1 first s).1)).1
      = chatWatermarks (receiveAll between (receive now1 first s).1).
Proof.
  intros now1 now2 first later s between c q t1 t2 Hc1 Ht1 Hw1 Hc2 Ht2 Hw2 Hle Henq.
  pose proof (receive_enqueued_watermark now1 first s c t1 q Hc1 Ht1 Hw1 Henq) as Hmark.
  pose proof (receiveAll_watermark between (receive now1 first s).1 c) as Hmono.
  set (s2 := receiveAll between (receive now1 first s).1) in *.
  assert (Hstale : ∀ s0, chatWatermarks s0 = chatWatermarks s2 →
            filters now2 later s0 = (s0, SkippedWatermark c)).
  { intros s0 Hs0. apply (filters_stale now2 later s0 c t2); [done..|].
    rewrite Hs0. lia. }
  destruct (receive_cases now2 later s2)
    as [(k' & ts' & _ & _ & _ & ->)|[(k' & _ & _ & Hnew & ->)|[_ ->]]].
  - split; [left; eauto|done].
  - rewrite Hstale by done. split; [by right|done].
  - rewrite Hstale by done. split; [by right|done].
Qed.

Lemma older_message_is_dropped_witness :
  (receive 3000
     {| event_id := Some "ev_old";
        message := Some {| message_id := Some "om_old"; chat_id := Some "oc_1";
                           create_time := Some 900 |} |}
     (receiveAll [] (receive 1000 unidentified empty).1)).2
  = SkippedWatermark "oc_1".
Proof.
  pose proof (older_message_is_dropped 1000 3000 unidentified
                {| event_id := Some "ev_old";
                   message := Some {| message_id := Some "om_old";
                                      chat_id := Some "oc_1";
                                      create_time := Some 900 |} |}
                empty [] "oc_1" "oc_1" 1000 900
                eq_refl eq_refl eq_refl eq_refl eq_refl eq_refl ltac:(lia) eq_refl)
    as [[[k Hk]|Hw] _].
  - discriminate Hk.
  - exact Hw.
Defined.

Section Shutdown.
Context {Job : Type}.

(** X10.  [stopGateway] forgets every recorded event id but keeps the
    watermarks: a message with a non-empty chat id and a non-zero create
    time that was enqueued before the shutdown is still skipped as stale
    when it is delivered again afterwards, although its event id is no
    longer known.  Stopping twice is the same as stopping once. *)
Theorem stop_forgets_events_keeps_watermarks :
  ∀ (g : Gateway Job) (now now' : Z) (event : MessageReceivedEvent) (c q : string)
    (t : Z),
    chatOf event = Some c → timeOf event = Some t → watermarked event = true →
    (receive now event (maps g)).2 = Enqueued q →
    processedEvents (maps (stopGateway (withMaps (receive now event (maps g)).1 g)))
    = ∅
    ∧ (receive now' event
         (maps (stopGateway (withMaps (receive now event (maps g)).1 g)))).2
      = SkippedWatermark c
    ∧ stopGateway (stopGateway g) = stopGateway g.
Proof.
  intros g now now' event c q t Hc Ht Hw Henq.
  pose proof (receive_enqueued_watermark now event (maps g) c t q Hc Ht Hw Henq)
    as Hmark.
  split; [done|]. split; [|done].
  set (s1 := maps (stopGateway _)).
  assert (Hwm : chatWatermarks s1 = chatWatermarks (receive now event (maps g)).1)
    by done.
  assert (Hstale : ∀ s0, chatWatermarks s0 = chatWatermarks s1 →
            filters now' event s0 = (s0, SkippedWatermark c)).
  { intros s0 Hs0. apply (filters_stale now' event s0 c t); [done..|].
    by rewrite Hs0, Hwm. }
  destruct (receive_cases now' event s1)
    as [(k' & ts' & _ & _ & Hseen & _)|[(k' & _ & _ & Hnew & ->)|[_ ->]]].
  - unfold s1 in Hseen. simpl in Hseen. unfold Dedup.stopDedupCleanup in Hseen.
    by rewrite lookup_empty in Hseen.
  - by rewrite Hstale.
  - by rewrite Hstale.
Qed.

End Shutdown.

Lemma stop_forgets_events_keeps_watermarks_witness :
  (receive 9000
     {| event_id := Some "ev_1";
        message := Some {| message_id := Some "om_1"; chat_id := Some "oc_1";
                           create_time := Some 1000 |} |}
     (maps (stopGateway
        (withMaps
           (receive 1000
              {| event_id := Some "ev_1";
                 message := Some {| message_id := Some "om_1";
                                    chat_id := Some "oc_1";
                                    create_time := Some 1000 |} |} empty).1
           {| conn := Reconnect.resetState; botOpenId := Some "ou_bot";
              botName := None; wsClient := true; batchProcessor := true;
              chatHistories := ∅; dedupCleanupTimer := true; maps := empty;
              chatQueues := (∅ : gmap string (SerialQueue.ChatQueue nat)) |})))).2
  = SkippedWatermark "oc_1".
Proof.
  exact (proj1 (proj2 (stop_forgets_events_keeps_watermarks
    {| conn := Reconnect.resetState; botOpenId := Some "ou_bot";
       botName := None; wsClient := true; batchProcessor := true;
       chatHistories := ∅; dedupCleanupTimer := true; maps := empty;
       chatQueues := (∅ : gmap string (SerialQueue.ChatQueue nat)) |}
    1000 9000
    {| event_id := Some "ev_1";
       message := Some {| message_id := Some "om_1"; chat_id := Some "oc_1";
                          create_time := Some 1000 |} |}
    "oc_1" "oc_1" 1000 eq_refl eq_refl eq_refl eq_refl))).
Defined.

End PipelineFacts.

(* ===================================================================== *)
(** ** Further properties: chat batcher *)
(* ===================================================================== *)

Module BatcherMoreFacts.
Import Batcher BatcherViews BatcherFacts.

Implicit Types (b : Batcher) (t : Timer) (st : ChatState) (m : list (string * nat)).

(** [b'] differs from [b] at most in timers, timer handles and clock. *)
Definition timersOnly b b' : Prop :=
  chatStates b' = chatStates b ∧ calls b' = calls b
  ∧ flushCallback b' = flushCallback b
  ∧ ∀ r, data <$> heap b' !! r = data <$> heap b !! r.

Lemma timersOnly_refl b b' :
  chatStates b' = chatStates b → calls b' = calls b →
  flushCallback b' = flushCallback b → heap b' = heap b → timersOnly b b'.
Proof. intros ? ? ? Hh. unfold timersOnly. by rewrite Hh. Qed.

Lemma timersOnly_trans b1 b2 b3 :
  timersOnly b1 b2 → timersOnly b2 b3 → timersOnly b1 b3.
Proof.
  intros (? & ? & ? & H12) (? & ? & ? & H23). unfold timersOnly.
  split_and!; try congruence; intros r; by rewrite H23, H12.
Qed.

Lemma timersOnly_setState ref st st' b :
  heap b !! ref = Some st → data st' = data st → timersOnly b (setState ref st' b).
Proof.
  intros Hst Hdata. unfold timersOnly. simpl. split_and!; try done.
  intros r. destruct (decide (r = ref)) as [->|Hne].
  - rewrite list_lookup_insert_eq by (by eapply lookup_lt_Some).
    rewrite Hst. simpl. by rewrite Hdata.
  - by rewrite list_lookup_insert_ne.
Qed.

Lemma timersOnly_clearTimeout h b : timersOnly b (clearTimeout h b).
Proof. by apply timersOnly_refl. Qed.

Lemma timersOnly_clearTimers ref b : timersOnly b (clearTimers ref b).
Proof.
  destruct (clearTimers_frame ref b) as (_ & _ & Hcs & _ & Hcb & Hcalls).
  unfold timersOnly. split_and!; try done.
  intros r. rewrite clearTimers_lookup. case_decide; [|done]. subst.
  by destruct (heap b !! ref).
Qed.

Lemma timersOnly_startIdleTimer chat ref b : timersOnly b (startIdleTimer chat ref b).
Proof.
  unfold startIdleTimer. destruct (heap b !! ref) as [st|] eqn:Hst;
    [|by apply timersOnly_refl].
  destruct (idleTimer st) as [h|]; simpl;
    (eapply timersOnly_trans; [|apply (timersOnly_setState ref st); [exact Hst|done]]);
    by apply timersOnly_refl.
Qed.

Lemma timersOnly_startDebounceTimer chat ref trigger b :
  timersOnly b (startDebounceTimer chat ref trigger b).
Proof.
  unfold startDebounceTimer. destruct (heap b !! ref) as [st|] eqn:Hst;
    [|by apply timersOnly_refl].
  destruct (debounceTimer st) as [h|]; simpl;
    (eapply timersOnly_trans; [|apply (timersOnly_setState ref st); [exact Hst|done]]);
    by apply timersOnly_refl.
Qed.

Lemma buffer_data (o : option ChatState) : buffer <$> o = (λ d, d.1.1) <$> (data <$> o).
Proof. by destruct o. Qed.

Lemma timersOnly_bufferOf chat b b' : timersOnly b b' → bufferOf chat b' = bufferOf chat b.
Proof.
  intros (Hcs & _ & _ & Hh). unfold bufferOf. rewrite Hcs.
  destruct (mapGet chat (chatStates b)) as [ref|]; [|done].
  by rewrite !buffer_data, Hh.
Qed.

Lemma timersOnly_flushedFor chat b b' :
  timersOnly b b' → flushedFor chat b' = flushedFor chat b.
Proof. intros (_ & Hcalls & _). unfold flushedFor. by rewrite Hcalls. Qed.

Lemma timersOnly_Wf b b' : timersOnly b b' → Wf b → Wf b'.
Proof.
  intros (Hcs & _ & _ & Hh) [Hstate Hinj Hown]. split; rewrite Hcs.
  - intros chat ref Hget. destruct (Hstate chat ref Hget) as [st Hst].
    specialize (Hh ref). rewrite Hst in Hh. destruct (heap b' !! ref); [eauto|done].
  - done.
  - intros chat ref st' Hget Hst'. destruct (Hstate chat ref Hget) as [st Hst].
    specialize (Hh ref). rewrite Hst, Hst' in Hh. simpl in Hh.
    injection Hh as Hbuf _ _. rewrite Hbuf. by eapply Hown.
Qed.

(** *** Well-formedness is kept *)

Lemma Wf_create startedAt now : Wf (createChatBatcher startedAt now).
Proof. split; simpl; done. Qed.

Lemma Wf_setState chat ref st' b :
  Wf b → mapGet chat (chatStates b) = Some ref →
  Forall (λ x, chatId x = chat) (buffer st') → Wf (setState ref st' b).
Proof.
  intros [Hstate Hinj Hown] Hget Hbuf.
  destruct (Hstate chat ref Hget) as [st Hst].
  assert (Hlt : (ref < length (heap b))%nat) by (by eapply lookup_lt_Some).
  split; simpl.
  - intros c r Hc. destruct (decide (r = ref)) as [->|Hne].
    + rewrite list_lookup_insert_eq by done. eauto.
    + rewrite list_lookup_insert_ne by done. eauto.
  - done.
  - intros c r st0 Hc. destruct (decide (r = ref)) as [->|Hne].
    + rewrite list_lookup_insert_eq by done. intros [= <-].
      by rewrite (Hinj c chat ref Hc Hget).
    + rewrite list_lookup_insert_ne by done. eauto.
Qed.

Lemma getOrCreateState_spec chat b :
  Wf b →
  Wf (getOrCreateState chat b).2
  ∧ mapGet chat (chatStates (getOrCreateState chat b).2)
    = Some (getOrCreateState chat b).1
  ∧ (∀ c, bufferOf c (getOrCreateState chat b).2 = bufferOf c b)
  ∧ calls (getOrCreateState chat b).2 = calls b
  ∧ flushCallback (getOrCreateState chat b).2 = flushCallback b.
Proof.
  intros HW. pose proof HW as [Hstate Hinj Hown].
  split; [|split; [apply getOrCreateState_lookup|]].
  - unfold getOrCreateState.
    destruct (mapGet chat (chatStates b)) as [ref|] eqn:Hget; [done|].
    assert (Hold : ∀ c r, mapGet c (chatStates b) = Some r →
                          (r < length (heap b))%nat).
    { intros c r Hc. destruct (Hstate c r Hc). by eapply lookup_lt_Some. }
    split; simpl.
    + intros c r. rewrite mapGet_app.
      destruct (mapGet c (chatStates b)) as [r'|] eqn:Hc.
      * intros [= <-]. destruct (Hstate c r' Hc) as [st Hst].
        exists st. by apply lookup_app_l_Some.
      * simpl. case_decide; [|done]. intros [= <-].
        rewrite lookup_app_r, Nat.sub_diag by done. eauto.
    + intros c1 c2 r. rewrite !mapGet_app.
      destruct (mapGet c1 (chatStates b)) as [r1|] eqn:Hc1,
               (mapGet c2 (chatStates b)) as [r2|] eqn:Hc2; simpl.
      * intros [= <-] [= <-]. eauto.
      * intros [= <-]. case_decide; [|done]. intros [= Heq].
        specialize (Hold c1 r1 Hc1). lia.
      * case_decide; [|done]. intros [= <-] [= Heq].
        specialize (Hold c2 r2 Hc2). lia.
      * repeat case_decide; try done. congruence.
    + intros c r st. rewrite mapGet_app.
      destruct (mapGet c (chatStates b)) as [r'|] eqn:Hc.
      * intros [= <-]. rewrite lookup_app_l by eauto. eauto.
      * simpl. case_decide; [|done]. intros [= <-].
        rewrite lookup_app_r, Nat.sub_diag by done. by intros [= <-].
  - unfold getOrCreateState.
    destruct (mapGet chat (chatStates b)) as [ref|] eqn:Hget; [done|].
    simpl. split; [|done]. intros c. unfold bufferOf. simpl. rewrite mapGet_app.
    destruct (mapGet c (chatStates b)) as [r'|] eqn:Hc.
    + destruct (Hstate c r' Hc) as [st Hst].
      by rewrite (lookup_app_l_Some _ _ _ _ Hst), Hst.
    + simpl. case_decide; [|done].
      by rewrite lookup_app_r, Nat.sub_diag.
Qed.

Lemma bufferOf_setState chat ref st' b c :
  Wf b → mapGet chat (chatStates b) = Some ref →
  bufferOf c (setState ref st' b)
  = if decide (c = chat) then buffer st' else bufferOf c b.
Proof.
  intros [Hstate Hinj Hown] Hget. unfold bufferOf. simpl.
  destruct (Hstate chat ref Hget) as [st Hst].
  assert (Hlt : (ref < length (heap b))%nat) by (by eapply lookup_lt_Some).
  case_decide as Hc.
  - subst. rewrite Hget. by rewrite list_lookup_insert_eq.
  - destruct (mapGet c (chatStates b)) as [r|] eqn:Hr; [|done].
    rewrite list_lookup_insert_ne; [done|]. intros ->. eauto.
Qed.

Lemma push_spec message b :
  Wf b →
  Wf (push message b)
  ∧ (∀ c, bufferOf c (push message b)
          = bufferOf c b ++ if decide (chatId message = c) then [message] else [])
  ∧ calls (push message b) = calls b
  ∧ flushCallback (push message b) = flushCallback b.
Proof.
  intros HW. unfold push.
  destruct (getOrCreateState_spec (chatId message) b HW)
    as (HW1 & Hget & Hbuf & Hcalls & Hcb).
  destruct (getOrCreateState (chatId message) b) as [ref b1]. simpl in *.
  destruct (wf_state b1 HW1 _ _ Hget) as [st Hst]. rewrite Hst.
  set (st2 := {| buffer := buffer st ++ [message]; hasTrigger := _;
                 triggerId := _; debounceTimer := _; idleTimer := _;
                 lastMessageAt := _ |}).
  assert (HW2 : Wf (setState ref st2 b1)).
  { apply (Wf_setState (chatId message)); [done..|]. simpl.
    apply Forall_app. split; [by eapply (wf_own b1 HW1)|]. by constructor. }
  pose proof (timersOnly_startIdleTimer (chatId message) ref (setState ref st2 b1))
    as Honly.
  split; [by eapply timersOnly_Wf|]. split.
  - intros c. rewrite (timersOnly_bufferOf _ _ _ Honly).
    rewrite (bufferOf_setState (chatId message)) by done. rewrite <- Hbuf.
    destruct (decide (c = chatId message)) as [->|Hne].
    + rewrite decide_True by done. simpl. unfold bufferOf. by rewrite Hget, Hst.
    + rewrite decide_False by done. by rewrite app_nil_r.
  - destruct Honly as (_ & -> & -> & _). done.
Qed.

Lemma trigger_spec chat id b :
  Wf b →
  Wf (trigger chat id b)
  ∧ (∀ c, bufferOf c (trigger chat id b) = bufferOf c b)
  ∧ calls (trigger chat id b) = calls b
  ∧ flushCallback (trigger chat id b) = flushCallback b.
Proof.
  intros HW. unfold trigger.
  destruct (getOrCreateState_spec chat b HW) as (HW1 & Hget & Hbuf & Hcalls & Hcb).
  destruct (getOrCreateState chat b) as [ref b1]. simpl in *.
  destruct (wf_state b1 HW1 _ _ Hget) as [st Hst]. rewrite Hst.
  set (st2 := {| buffer := buffer st; hasTrigger := true; triggerId := _;
                 debounceTimer := _; idleTimer := _; lastMessageAt := _ |}).
  assert (HW2 : Wf (setState ref st2 b1)).
  { apply (Wf_setState chat); [done..|]. simpl. by eapply (wf_own b1 HW1). }
  pose proof (timersOnly_startDebounceTimer chat ref id (setState ref st2 b1))
    as Honly.
  split; [by eapply timersOnly_Wf|]. split.
  - intros c. rewrite (timersOnly_bufferOf _ _ _ Honly).
    rewrite (bufferOf_setState chat) by done. rewrite <- Hbuf.
    case_decide as Hc; [|done]. subst. simpl. unfold bufferOf. by rewrite Hget, Hst.
  - destruct Honly as (_ & -> & -> & _). done.
Qed.

Lemma capture_spec chat trigger b :
  Wf b →
  Wf (capture chat trigger b).1
  ∧ match (capture chat trigger b).2 with
    | Some event =>
        flushChatId event = chat ∧ flushMessages event = bufferOf chat b
        ∧ flushMessages event ≠ []
        ∧ Forall (λ x, chatId x = chat) (flushMessages event)
        ∧ triggeredBy event = trigger
        ∧ ∀ c, bufferOf c (capture chat trigger b).1
               = if decide (c = chat) then [] else bufferOf c b
    | None => True
    end.
Proof.
  intros HW. destruct (capture chat trigger b) as [b1 [event|]] eqn:Hcap; simpl.
  - apply capture_Some in Hcap as (ref & st & Hget & Hst & Hne & -> & ->). simpl.
    assert (HW1 : Wf (setState ref (reset st) b))
      by (apply (Wf_setState chat); [done..|]; by constructor).
    pose proof (timersOnly_clearTimers ref (setState ref (reset st) b)) as Honly.
    split; [by eapply timersOnly_Wf|].
    split; [done|]. split; [unfold bufferOf; by rewrite Hget, Hst|].
    split; [done|]. split; [by eapply (wf_own b HW)|]. split; [done|].
    intros c. rewrite (timersOnly_bufferOf _ _ _ Honly).
    by rewrite (bufferOf_setState chat).
  - by apply capture_None in Hcap as ->.
Qed.

(** The messages of a chat flushed so far followed by those buffered. *)
Definition total (chat : string) b : list ParsedMessage :=
  flushedFor chat b ++ bufferOf chat b.

Lemma invokeCallback_flushedFor event b c :
  is_Some (flushCallback b) →
  flushedFor c (invokeCallback event b)
  = flushedFor c b ++ if decide (flushChatId event = c) then flushMessages event else [].
Proof.
  intros [cb Hcb]. unfold invokeCallback, flushedFor. rewrite Hcb. simpl.
  rewrite filter_app, map_app, concat_app. f_equal.
  case_decide.
  - rewrite filter_cons_True by done. simpl. by rewrite app_nil_r.
  - by rewrite filter_cons_False.
Qed.

Lemma invokeCallback_bufferOf event b c :
  bufferOf c (invokeCallback event b) = bufferOf c b.
Proof.
  unfold bufferOf. by destruct (invokeCallback_frame event b) as (_ & _ & -> & -> & _).
Qed.

Lemma Wf_invokeCallback event b : Wf b → Wf (invokeCallback event b).
Proof.
  intros [Hstate Hinj Hown].
  destruct (invokeCallback_frame event b) as (_ & _ & Hh & Hcs & _).
  split; rewrite Hcs, ?Hh; done.
Qed.

Lemma flush_spec chat trigger b :
  Wf b →
  Wf (flush chat trigger b)
  ∧ flushCallback (flush chat trigger b) = flushCallback b
  ∧ (is_Some (flushCallback b) → ∀ c, total c (flush chat trigger b) = total c b).
Proof.
  intros HW. unfold flush.
  destruct (capture_spec chat trigger b HW) as [HW1 Hev].
  destruct (capture_frame chat trigger b) as (_ & _ & _ & Hcb & Hcalls & _).
  destruct (capture chat trigger b) as [b1 [event|]] eqn:Hcap; simpl in *.
  - destruct Hev as (Hchat & Hmsgs & _ & _ & _ & Hbuf).
    split; [by apply Wf_invokeCallback|]. split.
    { by destruct (invokeCallback_frame event b1) as (_ & _ & _ & _ & _ & _ & ->). }
    intros Hsome c. unfold total.
    rewrite invokeCallback_flushedFor by (by rewrite Hcb).
    rewrite invokeCallback_bufferOf, Hbuf, Hchat, Hmsgs.
    unfold flushedFor at 1. rewrite Hcalls. fold (flushedFor c b).
    destruct (decide (chat = c)) as [->|Hne].
    + rewrite decide_True by done. by rewrite app_nil_r.
    + rewrite decide_False by done. by rewrite app_nil_r.
  - apply capture_None in Hcap as ->. done.
Qed.

Lemma runCallback_spec cb b :
  Wf b →
  Wf (runCallback cb b)
  ∧ flushCallback (runCallback cb b) = flushCallback b
  ∧ (is_Some (flushCallback b) → ∀ c, total c (runCallback cb b) = total c b).
Proof.
  intros HW. destruct cb as [chat ref|chat trigger]; simpl.
  - destruct (heap b !! ref) as [st|]; [|done].
    destruct (hasTrigger st && negb (isInStartupPeriod b)); [|done].
    by apply flush_spec.
  - by apply flush_spec.
Qed.

Lemma total_timersOnly c b b' : timersOnly b b' → total c b' = total c b.
Proof.
  intros Honly. unfold total.
  by rewrite (timersOnly_bufferOf _ _ _ Honly), (timersOnly_flushedFor _ _ _ Honly).
Qed.

Lemma fire_spec t b :
  Wf b →
  Wf (fire t b)
  ∧ flushCallback (fire t b) = flushCallback b
  ∧ (is_Some (flushCallback b) → ∀ c, total c (fire t b) = total c b).
Proof.
  intros HW. unfold fire.
  set (b1 := withClock _ _).
  assert (Honly : timersOnly b b1) by (by apply timersOnly_refl).
  destruct (runCallback_spec (callback t) b1 (timersOnly_Wf _ _ Honly HW))
    as (HW2 & Hcb & Htotal).
  split; [done|]. split; [done|]. intros Hsome c.
  rewrite Htotal by done. by apply total_timersOnly.
Qed.

Lemma fireDue_spec target : ∀ fuel b,
  Wf b →
  Wf (fireDue fuel target b)
  ∧ flushCallback (fireDue fuel target b) = flushCallback b
  ∧ (is_Some (flushCallback b) → ∀ c, total c (fireDue fuel target b) = total c b).
Proof.
  induction fuel as [|fuel IH]; intros b HW; simpl; [done|].
  destruct (nextDue target (timers b)) as [t|]; [|done].
  destruct (fire_spec t b HW) as (HW1 & Hcb1 & Htotal1).
  destruct (IH (fire t b) HW1) as (HW2 & Hcb2 & Htotal2).
  split; [done|]. split; [congruence|]. intros Hsome c.
  rewrite Htotal2 by (by rewrite Hcb1). by apply Htotal1.
Qed.

Lemma advance_spec ms b :
  Wf b →
  Wf (advance ms b)
  ∧ flushCallback (advance ms b) = flushCallback b
  ∧ (is_Some (flushCallback b) → ∀ c, total c (advance ms b) = total c b).
Proof.
  intros HW. unfold advance.
  destruct (fireDue_spec (clock b + ms) (length (timers b)) b HW)
    as (HW1 & Hcb & Htotal).
  set (b1 := fireDue _ _ b) in *.
  assert (Honly : timersOnly b1 (withClock (Z.max (clock b) (clock b + ms)) b1))
    by (by apply timersOnly_refl).
  split; [by eapply timersOnly_Wf|]. split; [done|]. intros Hsome c.
  rewrite (total_timersOnly _ _ _ Honly). by apply Htotal.
Qed.

Lemma mapGet_delete chat other m :
  mapGet other (mapDelete chat m)
  = if decide (other = chat) then None else mapGet other m.
Proof.
  case_decide as Hc; [|by apply mapGet_delete_ne]. subst.
  unfold mapDelete. induction m as [|[c r] m IH]; [done|].
  rewrite filter_cons. simpl. destruct (decide (c ≠ chat)) as [Hne|Heq]; [|done].
  simpl. by rewrite decide_False.
Qed.

Lemma Wf_clear chat b : Wf b → Wf (clear chat b).
Proof.
  intros HW. unfold clear.
  destruct (mapGet chat (chatStates b)) as [ref|] eqn:Hget; [|done].
  pose proof (timersOnly_Wf _ _ (timersOnly_clearTimers ref b) HW)
    as [Hstate Hinj Hown].
  split; simpl.
  - intros c r. rewrite mapGet_delete. case_decide; [done|]. apply Hstate.
  - intros c1 c2 r. rewrite !mapGet_delete. repeat case_decide; try done. apply Hinj.
  - intros c r st. rewrite mapGet_delete. case_decide; [done|]. apply Hown.
Qed.

Lemma Wf_dispose b : Wf (dispose b).
Proof. split; simpl; done. Qed.

Lemma Wf_step b s : Wf b → Wf (step b s).
Proof.
  intros HW. destruct s; simpl.
  - by apply push_spec.
  - by apply trigger_spec.
  - by apply Wf_clear.
  - apply Wf_dispose.
  - destruct HW as [Hstate Hinj Hown]. split; done.
  - by apply advance_spec.
Qed.

Lemma Wf_run script : ∀ b, Wf b → Wf (run script b).
Proof.
  induction script as [|s script IH]; intros b HW; simpl; [done|].
  by apply IH, Wf_step.
Qed.

Lemma pushedFor_cons chat s script :
  pushedFor chat (s :: script)
  = match s with
    | Push x => if decide (chatId x = chat) then [x] else []
    | _ => []
    end ++ pushedFor chat script.
Proof. unfold pushedFor. simpl. destruct s; try done. by case_decide. Qed.

Lemma run_conserves script : ∀ b chat,
  Wf b → is_Some (flushCallback b) → Forall keeps script →
  total chat (run script b) = total chat b ++ pushedFor chat script.
Proof.
  induction script as [|s script IH]; intros b chat HW Hcb Hkeeps.
  - simpl. unfold pushedFor. simpl. by rewrite app_nil_r.
  - inversion Hkeeps as [|? ? Hs Hrest]; subst.
    change (run (s :: script) b) with (run script (step b s)).
    rewrite pushedFor_cons, app_assoc.
    destruct s as [x|c id|c| |cb|ms]; simpl in Hs; try done; simpl step.
    + destruct (push_spec x b HW) as (HW1 & Hbuf & Hcalls & Hcb1).
      rewrite IH; [|done|by rewrite Hcb1|done]. f_equal.
      unfold total, flushedFor. rewrite Hcalls, Hbuf. by rewrite app_assoc.
    + destruct (trigger_spec c id b HW) as (HW1 & Hbuf & Hcalls & Hcb1).
      rewrite IH; [|done|by rewrite Hcb1|done]. f_equal.
      unfold total, flushedFor. rewrite Hcalls, Hbuf. by rewrite app_nil_r.
    + rewrite IH; [|by destruct HW|by eauto|done]. f_equal. by rewrite app_nil_r.
    + destruct (advance_spec ms b HW) as (HW1 & Hcb1 & Htotal).
      rewrite IH; [|done|by rewrite Hcb1|done]. f_equal.
      rewrite app_nil_r. by apply Htotal.
Qed.

(** X11.  No message is lost or duplicated: with a flush callback
    registered from the start and no [clear] or [dispose], the messages
    handed to the callback for a chat so far, in the order of the calls,
    followed by the chat's buffer, are exactly the messages pushed for that
    chat, in the order they were pushed, whatever happens in other
    chats. *)
Theorem no_message_lost_or_duplicated :
  ∀ (script : list Step) (cb : BatchFlushEvent → Settled) (startedAt now : Z)
    (chat : string),
    Forall keeps script →
    flushedFor chat (run script (onFlush cb (createChatBatcher startedAt now)))
    ++ bufferOf chat (run script (onFlush cb (createChatBatcher startedAt now)))
    = pushedFor chat script.
Proof.
  intros script cb startedAt now chat Hkeeps.
  apply (run_conserves script (onFlush cb (createChatBatcher startedAt now)) chat);
    [split; done|by eexists|done].
Qed.

Lemma no_message_lost_or_duplicated_witness :
  flushedFor "oc_1" (run threeMessages (onFlush accepting (createChatBatcher 0 0)))
  ++ bufferOf "oc_1" (run threeMessages (onFlush accepting (createChatBatcher 0 0)))
  = [msg "oc_1" "m0"; msg "oc_1" "m1"; msg "oc_1" "m2"].
Proof.
  apply (no_message_lost_or_duplicated threeMessages accepting 0 0 "oc_1").
  unfold threeMessages. repeat constructor.
Defined.

(** *** What the flush callback is given *)

Definition Owned b : Prop :=
  ∀ call, call ∈ calls b →
    flushMessages call.1 ≠ []
    ∧ Forall (λ x, chatId x = flushChatId call.1) (flushMessages call.1).

Lemma Owned_calls b b' : calls b' = calls b → Owned b → Owned b'.
Proof. intros Hcalls HO call. rewrite Hcalls. apply HO. Qed.

Lemma flush_Owned chat trigger b : Wf b → Owned b → Owned (flush chat trigger b).
Proof.
  intros HW HO. unfold flush.
  destruct (capture_spec chat trigger b HW) as [_ Hev].
  destruct (capture_frame chat trigger b) as (_ & _ & _ & _ & Hcalls & _).
  destruct (capture chat trigger b) as [b1 [event|]]; simpl in *;
    [|by apply (Owned_calls b)].
  destruct Hev as (Hchat & _ & Hne & Hown & _).
  unfold invokeCallback. destruct (flushCallback b1); [|by apply (Owned_calls b)].
  intros call. simpl. rewrite Hcalls, elem_of_app, list_elem_of_singleton.
  intros [Hin| ->]; [by apply HO|]. simpl. by rewrite Hchat.
Qed.

Lemma runCallback_Owned cb b : Wf b → Owned b → Owned (runCallback cb b).
Proof.
  intros HW HO. destruct cb as [chat ref|chat trigger]; simpl.
  - destruct (heap b !! ref) as [st|]; [|done].
    destruct (hasTrigger st && negb (isInStartupPeriod b)); [|done].
    by apply flush_Owned.
  - by apply flush_Owned.
Qed.

Lemma fire_Owned t b : Wf b → Owned b → Owned (fire t b).
Proof.
  intros HW HO. unfold fire. apply runCallback_Owned.
  - apply (timersOnly_Wf b); [by apply timersOnly_refl|done].
  - by apply (Owned_calls b).
Qed.

Lemma fireDue_Owned target : ∀ fuel b, Wf b → Owned b → Owned (fireDue fuel target b).
Proof.
  induction fuel as [|fuel IH]; intros b HW HO; simpl; [done|].
  destruct (nextDue target (timers b)) as [t|]; [|done].
  apply IH; [by apply fire_spec|by apply fire_Owned].
Qed.

Lemma step_Owned b s : Wf b → Owned b → Owned (step b s).
Proof.
  intros HW HO. destruct s; simpl.
  - apply (Owned_calls b); [|done]. by apply push_spec.
  - apply (Owned_calls b); [|done]. by apply trigger_spec.
  - apply (Owned_calls b); [|done]. unfold clear.
    destruct (mapGet chat (chatStates b)) as [ref|]; [|done]. simpl.
    by destruct (clearTimers_frame ref b) as (_ & _ & _ & _ & _ & ->).
  - apply (Owned_calls b); [|done]. simpl.
    by destruct (clearAll_frame (chatStates b) b) as (-> & _).
  - by apply (Owned_calls b).
  - unfold advance. apply (Owned_calls (fireDue (length (timers b)) (clock b + ms) b));
      [done|]. by apply fireDue_Owned.
Qed.

Lemma run_Owned script : ∀ b, Wf b → Owned b → Owned (run script b).
Proof.
  induction script as [|s script IH]; intros b HW HO; simpl; [done|].
  apply IH; [by apply Wf_step|by apply step_Owned].
Qed.

(** X12.  Whatever is done to a batcher, every call of its flush callback
    carries at least one message, and only messages of the chat the call
    is for. *)
Theorem flush_events_hold_own_messages :
  ∀ (script : list Step) (startedAt now : Z) (call : BatchFlushEvent * Settled),
    call ∈ calls (run script (createChatBatcher startedAt now)) →
    flushMessages call.1 ≠ []
    ∧ Forall (λ x, chatId x = flushChatId call.1) (flushMessages call.1).
Proof.
  intros script startedAt now.
  apply (run_Owned script); [apply Wf_create|].
  intros call Hin. simpl in Hin. by apply elem_of_nil in Hin.
Qed.

Lemma flush_events_hold_own_messages_witness :
  flushMessages
    ({| flushChatId := "oc_1"; flushMessages := [msg "oc_1" "m0"];
        triggeredBy := "m0"; triggeredAt := 500 |}, Fulfilled).1 ≠ [].
Proof.
  refine (proj1 (flush_events_hold_own_messages
            (OnFlush accepting :: triggering (msg "oc_1" "m0") ++ [Advance 500]) 0 0
            ({| flushChatId := "oc_1"; flushMessages := [msg "oc_1" "m0"];
                triggeredBy := "m0"; triggeredAt := 500 |}, Fulfilled) _)).
  apply list_elem_of_here.
Defined.

(** *** Where a flush's [triggeredBy] comes from *)

(** Every trigger id in the batcher is one of [ids]: in a pending debounce
    closure, in a state whose trigger flag is set, in a recorded call. *)
Record Traced (ids : list string) b : Prop := {
  tr_timers : ∀ t c id, t ∈ timers b → callback t = DebounceTimeout c id → id ∈ ids;
  tr_states : ∀ r st, heap b !! r = Some st → hasTrigger st = true →
                      ∃ id, triggerId st = Some id ∧ id ∈ ids;
  tr_calls : ∀ call, call ∈ calls b → triggeredBy call.1 ∈ ids;
}.

Lemma Traced_mono ids ids' b : (∀ id, id ∈ ids → id ∈ ids') → Traced ids b → Traced ids' b.
Proof.
  intros Hsub [Ht Hs Hc]. split.
  - eauto.
  - intros r st Hst Htrig. destruct (Hs r st Hst Htrig) as (id & ? & ?). eauto.
  - eauto.
Qed.

(** [b'] has the calls of [b], states with the trigger data of [b]'s, and
    timers that are [b]'s or carry an id of [ids]. *)
Lemma Traced_frame ids b b' :
  Traced ids b → calls b' = calls b →
  (∀ r, data <$> heap b' !! r = data <$> heap b !! r) →
  (∀ t, t ∈ timers b' →
        t ∈ timers b ∨ ∀ c id, callback t = DebounceTimeout c id → id ∈ ids) →
  Traced ids b'.
Proof.
  intros [Ht Hs Hc] Hcalls Hheap Htimers. split.
  - intros t c id Hin Hcb. destruct (Htimers t Hin) as [Hold|Hnew]; eauto.
  - intros r st' Hst' Htrig. specialize (Hheap r). rewrite Hst' in Hheap.
    destruct (heap b !! r) as [st|] eqn:Hst; [|done].
    injection Hheap as _ Hflag Hid. rewrite Hid.
    apply (Hs r st Hst). congruence.
  - intros call. rewrite Hcalls. apply Hc.
Qed.

Lemma Traced_sub ids b b' :
  Traced ids b → timersOnly b b' → timers b' `sublist_of` timers b → Traced ids b'.
Proof.
  intros HT (_ & Hcalls & _ & Hheap) Hsub.
  apply (Traced_frame ids b); [done..|].
  intros t Hin. left. by eapply elem_of_sublist.
Qed.

Lemma Traced_setState ids ref st' b :
  Traced ids b →
  (hasTrigger st' = true → ∃ id, triggerId st' = Some id ∧ id ∈ ids) →
  Traced ids (setState ref st' b).
Proof.
  intros [Ht Hs Hc] Hnew. split; simpl; [done| |done].
  intros r st. rewrite list_lookup_insert_Some.
  intros [(_ & <- & _)|[_ Hst]]; eauto.
Qed.

Lemma startIdleTimer_timers chat ref b t :
  t ∈ timers (startIdleTimer chat ref b) →
  t ∈ timers b ∨ callback t = IdleTimeout chat ref.
Proof.
  unfold startIdleTimer. destruct (heap b !! ref) as [st|]; [|by left].
  destruct (idleTimer st) as [h|]; simpl;
    rewrite elem_of_app, list_elem_of_singleton, ?list_elem_of_filter;
    (intros [Hin| ->]; [left; tauto|by right]).
Qed.

Lemma startDebounceTimer_timers chat ref trigger b t :
  t ∈ timers (startDebounceTimer chat ref trigger b) →
  t ∈ timers b ∨ callback t = DebounceTimeout chat trigger.
Proof.
  unfold startDebounceTimer. destruct (heap b !! ref) as [st|]; [|by left].
  destruct (debounceTimer st) as [h|]; simpl;
    rewrite elem_of_app, list_elem_of_singleton, ?list_elem_of_filter;
    (intros [Hin| ->]; [left; tauto|by right]).
Qed.

Lemma Traced_getOrCreateState ids chat b :
  Traced ids b → Traced ids (getOrCreateState chat b).2.
Proof.
  intros [Ht Hs Hc]. unfold getOrCreateState.
  destruct (mapGet chat (chatStates b)); [done|].
  split; simpl; [done| |done].
  intros r st Hst. apply lookup_app_Some in Hst as [Hst|[_ Hst]]; [eauto|].
  destruct (r - length (heap b))%nat; [|done]. by injection Hst as <-.
Qed.

Lemma Traced_push ids message b : Traced ids b → Traced ids (push message b).
Proof.
  intros HT. unfold push.
  pose proof (Traced_getOrCreateState ids (chatId message) b HT) as HT1.
  destruct (getOrCreateState (chatId message) b) as [ref b1]. simpl in *.
  destruct (heap b1 !! ref) as [st|] eqn:Hst; [|done].
  set (b2 := setState ref _ b1).
  assert (HT2 : Traced ids b2)
    by (apply Traced_setState; [done|]; simpl; apply (tr_states ids b1 HT1 ref st Hst)).
  pose proof (timersOnly_startIdleTimer (chatId message) ref b2) as (_ & Hcalls & _ & Hheap).
  apply (Traced_frame ids b2); [done..|].
  intros t Hin. apply startIdleTimer_timers in Hin as [Hin|Hcb]; [by left|].
  right. intros c id. by rewrite Hcb.
Qed.

Lemma Traced_trigger ids chat id b :
  id ∈ ids → Traced ids b → Traced ids (trigger chat id b).
Proof.
  intros Hid HT. unfold trigger.
  pose proof (Traced_getOrCreateState ids chat b HT) as HT1.
  destruct (getOrCreateState chat b) as [ref b1]. simpl in *.
  destruct (heap b1 !! ref) as [st|] eqn:Hst; [|done].
  set (b2 := setState ref _ b1).
  assert (HT2 : Traced ids b2) by (apply Traced_setState; [done|]; simpl; eauto).
  pose proof (timersOnly_startDebounceTimer chat ref id b2) as (_ & Hcalls & _ & Hheap).
  apply (Traced_frame ids b2); [done..|].
  intros t Hin. apply startDebounceTimer_timers in Hin as [Hin|Hcb]; [by left|].
  right. intros c id'. rewrite Hcb. by intros [= _ <-].
Qed.

Lemma Traced_flush ids chat trigger b :
  trigger ∈ ids → Traced ids b → Traced ids (flush chat trigger b).
Proof.
  intros Hid HT. unfold flush.
  destruct (capture chat trigger b) as [b1 [event|]] eqn:Hcap.
  - apply capture_Some in Hcap as (ref & st & _ & Hst & _ & -> & ->).
    assert (HT1 : Traced ids (clearTimers ref (setState ref (reset st) b))).
    { apply (Traced_sub ids (setState ref (reset st) b));
        [|apply timersOnly_clearTimers|apply clearTimers_sublist].
      by apply Traced_setState. }
    destruct HT1 as [Ht Hs Hc]. unfold invokeCallback.
    destruct (flushCallback _); [|by split].
    split; simpl; [done..|].
    intros call. rewrite elem_of_app, list_elem_of_singleton.
    intros [Hin| ->]; [by apply Hc|done].
  - by apply capture_None in Hcap as ->.
Qed.

Lemma Traced_runCallback ids cb b :
  (∀ c id, cb = DebounceTimeout c id → id ∈ ids) →
  Traced ids b → Traced ids (runCallback cb b).
Proof.
  intros Hcb HT. destruct cb as [chat ref|chat trigger]; simpl.
  - destruct (heap b !! ref) as [st|] eqn:Hst; [|done].
    destruct (hasTrigger st) eqn:Htrig; [|done]. simpl.
    destruct (negb (isInStartupPeriod b)); [|done].
    destruct (tr_states ids b HT ref st Hst Htrig) as (id & -> & Hid).
    by apply Traced_flush.
  - apply Traced_flush; eauto.
Qed.

Lemma Traced_fire ids t b : t ∈ timers b → Traced ids b → Traced ids (fire t b).
Proof.
  intros Hin HT. unfold fire. apply Traced_runCallback.
  - intros c id Hcb. by eapply (tr_timers ids b HT).
  - apply (Traced_sub ids b); [done|by apply timersOnly_refl|].
    apply clearTimeout_sublist.
Qed.

Lemma Traced_fireDue ids target : ∀ fuel b,
  Traced ids b → Traced ids (fireDue fuel target b).
Proof.
  induction fuel as [|fuel IH]; intros b HT; simpl; [done|].
  destruct (nextDue target (timers b)) as [t|] eqn:Hdue; [|done].
  apply IH, Traced_fire; [by eapply nextDue_elem_of|done].
Qed.

Lemma clearAll_timersOnly entries : ∀ b,
  (∀ r, data <$> heap (clearAll entries b) !! r = data <$> heap b !! r).
Proof.
  induction entries as [|[c ref] entries IH]; intros b r; simpl; [done|].
  rewrite IH. by destruct (timersOnly_clearTimers ref b) as (_ & _ & _ & ->).
Qed.

Definition stepIds (s : Step) : list string :=
  match s with Trigger _ id => [id] | _ => [] end.

Lemma Traced_step ids b s :
  Traced ids b → Traced (ids ++ stepIds s) (step b s).
Proof.
  intros HT.
  assert (HT' : Traced (ids ++ stepIds s) b)
    by (apply (Traced_mono ids); [intros id; rewrite elem_of_app; tauto|done]).
  destruct s; simpl step.
  - by apply Traced_push.
  - apply Traced_trigger; [|done]. simpl. rewrite elem_of_app, list_elem_of_singleton. tauto.
  - unfold clear. destruct (mapGet chat (chatStates b)) as [ref|]; [|done].
    destruct (timersOnly_clearTimers ref b) as (_ & Hcalls & _ & Hheap).
    apply (Traced_frame _ b); [done..|]. intros t Hin. left. simpl in Hin.
    eapply elem_of_sublist; [exact Hin|apply clearTimers_sublist].
  - apply (Traced_frame _ b); [done| | |].
    + simpl. by destruct (clearAll_frame (chatStates b) b) as (-> & _).
    + apply clearAll_timersOnly.
    + intros t Hin. left. simpl in Hin.
      eapply elem_of_sublist; [exact Hin|apply clearAll_sublist].
  - destruct HT' as [Ht Hs Hc]. by split.
  - unfold advance.
    pose proof (Traced_fireDue _ (clock b + ms) (length (timers b)) b HT')
      as [Ht Hs Hc]. by split.
Qed.

Lemma triggerIds_cons s script : triggerIds (s :: script) = stepIds s ++ triggerIds script.
Proof. unfold triggerIds. by destruct s. Qed.

Lemma Traced_run script : ∀ ids b,
  Traced ids b → Traced (ids ++ triggerIds script) (run script b).
Proof.
  induction script as [|s script IH]; intros ids b HT.
  - simpl. unfold triggerIds. simpl. by rewrite app_nil_r.
  - change (run (s :: script) b) with (run script (step b s)).
    rewrite triggerIds_cons, app_assoc. by apply IH, Traced_step.
Qed.

(** X13.  Every call of the flush callback names, as [triggeredBy], a
    trigger id that was passed to [trigger] earlier: the fallback
    ["idle-timeout"] of the idle timer's closure is never used, because a
    state whose trigger flag is set always has a trigger id. *)
Theorem triggeredBy_is_a_trigger_id :
  ∀ (script : list Step) (startedAt now : Z) (call : BatchFlushEvent * Settled),
    call ∈ calls (run script (createChatBatcher startedAt now)) →
    triggeredBy call.1 ∈ triggerIds script.
Proof.
  intros script startedAt now call Hin.
  assert (HT : Traced [] (createChatBatcher startedAt now)).
  { split; simpl.
    - intros t c id Ht. by apply elem_of_nil in Ht.
    - intros r st Hst. by rewrite lookup_nil in Hst.
    - intros c Hc. by apply elem_of_nil in Hc. }
  apply (tr_calls _ _ (Traced_run script [] _ HT) call Hin).
Qed.

Lemma triggeredBy_is_a_trigger_id_witness :
  triggeredBy
    ({| flushChatId := "oc_1"; flushMessages := [msg "oc_1" "m1"];
        triggeredBy := "t1"; triggeredAt := 12600 |}, Fulfilled).1
  ∈ triggerIds ([OnFlush accepting; Advance 11000] ++ triggeredThenPushed).
Proof.
  apply (triggeredBy_is_a_trigger_id
           ([OnFlush accepting; Advance 11000] ++ triggeredThenPushed) 0 0).
  apply list_elem_of_here.
Defined.

(** *** [clear] *)

Lemma Drained_clear chat b : Drained chat (clear chat b).
Proof.
  unfold clear. destruct (mapGet chat (chatStates b)) as [ref|] eqn:Hget.
  - intros r st. simpl. rewrite mapGet_delete. by rewrite decide_True.
  - intros r st. by rewrite Hget.
Qed.

Lemma clear_calls chat b : calls (clear chat b) = calls b.
Proof.
  unfold clear. destruct (mapGet chat (chatStates b)) as [ref|]; [|done]. simpl.
  by destruct (clearTimers_frame ref b) as (_ & _ & _ & _ & _ & ->).
Qed.

Lemma mapGet_clear chat b : mapGet chat (chatStates (clear chat b)) = None.
Proof.
  unfold clear. destruct (mapGet chat (chatStates b)) as [ref|] eqn:Hget; [|done].
  simpl. rewrite mapGet_delete. by rewrite decide_True.
Qed.

(** X14.  [clear] drops a chat without flushing it: from any state, after
    [clear] the flush callback is not called for that chat while only time
    passes, and the next message pushed for the chat starts a buffer that
    holds that message alone. *)
Theorem clear_drops_chat_silently :
  ∀ (b : Batcher) (message : ParsedMessage) (delays : list Z),
    callsFor (chatId message)
      (run (map Advance delays) (clear (chatId message) b))
    = callsFor (chatId message) b
    ∧ bufferOf (chatId message) (push message (clear (chatId message) b))
      = [message].
Proof.
  intros b message delays. split.
  - rewrite advances_Drained by apply Drained_clear.
    unfold callsFor. by rewrite clear_calls.
  - pose proof (mapGet_clear (chatId message) b) as Hnone.
    set (b0 := clear (chatId message) b) in *.
    unfold push, getOrCreateState. rewrite Hnone. simpl.
    rewrite lookup_app_r, Nat.sub_diag by done. simpl.
    match goal with
    | |- bufferOf _ (startIdleTimer ?c ?r ?x) = _ =>
        rewrite (timersOnly_bufferOf _ _ _ (timersOnly_startIdleTimer c r x))
    end.
    unfold bufferOf. simpl. rewrite mapGet_app, Hnone. simpl.
    rewrite decide_True by done.
    rewrite list_lookup_insert_eq by (rewrite length_app; simpl; lia). done.
Qed.

End BatcherMoreFacts.

(* ===================================================================== *)
(** ** Further properties: filters of the handler, mentions, file paths *)
(* ===================================================================== *)

Module FilterFacts.
Import Handler Pipeline PipelineFacts.

(** X15.  A message whose create time is not 0 and lies more than five
    minutes before the time of delivery is never enqueued and leaves every
    watermark as it is, whatever the maps hold. *)
Theorem old_message_is_never_enqueued :
  ∀ (now t : Z) (event : MessageReceivedEvent) (s : Maps),
    timeOf event = Some t → t ≠ 0 → now - t > MAX_MESSAGE_AGE_MS →
    (∀ q, (receive now event s).2 ≠ Enqueued q)
    ∧ chatWatermarks (receive now event s).1 = chatWatermarks s.
Proof.
  intros now t event s Ht Hnz Hold.
  assert (Hf : ∀ s0, (∀ q, (filters now event s0).2 ≠ Enqueued q)
                     ∧ chatWatermarks (filters now event s0).1 = chatWatermarks s0).
  { intros s0. unfold filters. rewrite Ht. simpl.
    rewrite (bool_decide_eq_false_2 (t = 0)) by done.
    rewrite (bool_decide_eq_true_2 _ Hold). simpl.
    by destruct (watermarked event && _). }
  destruct (receive_cases now event s)
    as [(k' & ts' & _ & _ & _ & ->)|[(k' & _ & _ & _ & ->)|[_ ->]]].
  - done.
  - destruct (Hf {| processedEvents := <[k' := now]> (processedEvents s);
                    chatWatermarks := chatWatermarks s |}) as [H1 H2].
    split; [done|by rewrite H2].
  - apply Hf.
Qed.

Lemma old_message_is_never_enqueued_witness :
  chatWatermarks
    (receive 400000
       {| event_id := Some "ev_1";
          message := Some {| message_id := Some "om_1"; chat_id := Some "oc_1";
                             create_time := Some 1000 |} |} empty).1
  = chatWatermarks empty.
Proof.
  refine (proj2 (old_message_is_never_enqueued 400000 1000
            {| event_id := Some "ev_1";
               message := Some {| message_id := Some "om_1"; chat_id := Some "oc_1";
                                  create_time := Some 1000 |} |} empty
            eq_refl _ _)).
  - discriminate.
  - unfold MAX_MESSAGE_AGE_MS. lia.
Defined.

(** X16.  A message without a usable create time (absent, not a number, or
    0) passes both the watermark and the age filter: unless it is a
    duplicate it is enqueued, under its chat id or under "unknown", and
    it leaves every watermark as it is. *)
Theorem untimed_message_is_not_filtered :
  ∀ (now : Z) (event : MessageReceivedEvent) (s : Maps),
    truthyNumber (timeOf event) = false →
    ((∃ k, (receive now event s).2 = SkippedDuplicate k)
     ∨ (receive now event s).2 = Enqueued (default "unknown" (chatOf event)))
    ∧ chatWatermarks (receive now event s).1 = chatWatermarks s.
Proof.
  intros now event s Ht.
  assert (Hf : ∀ s0, filters now event s0
                     = (s0, Enqueued (default "unknown" (chatOf event)))).
  { intros s0. unfold filters, watermarked. rewrite Ht.
    by rewrite andb_false_r. }
  destruct (receive_cases now event s)
    as [(k' & ts' & _ & _ & _ & ->)|[(k' & _ & _ & _ & ->)|[_ ->]]].
  - split; [left; eauto|done].
  - rewrite Hf. split; [by right|done].
  - rewrite Hf. split; [by right|done].
Qed.

Lemma untimed_message_is_not_filtered_witness :
  (receive 1000 {| event_id := None; message := None |} empty).2
  = Enqueued "unknown".
Proof.
  destruct (untimed_message_is_not_filtered 1000
              {| event_id := None; message := None |} empty eq_refl)
    as [[[k Hk]|Henq] _].
  - discriminate Hk.
  - exact Henq.
Defined.

End FilterFacts.

Module MentionFacts.
Import Mentions.

Lemma omap_length_le (ms : list MessageMention) (f : MessageMention → option MentionInfo) :
  (length (omap f ms) ≤ length ms)%nat.
Proof.
  induction ms as [|m ms IH]; [done|].
  change (omap f (m :: ms)) with (match f m with Some y => y :: omap f ms | None => omap f ms end).
  destruct (f m); simpl length; lia.
Qed.

Lemma existsb_count (ms : list MessageMention) (f : MessageMention → option MentionInfo)
    (p : MessageMention → bool) :
  (∀ m, p m = true → f m = None) → existsb p ms = true →
  (length (omap f ms) < length ms)%nat.
Proof.
  intros Hdrop. induction ms as [|m ms IH]; [done|].
  pose proof (omap_length_le ms f) as Hle.
  change (omap f (m :: ms))
    with (match f m with Some y => y :: omap f ms | None => omap f ms end).
  change (existsb p (m :: ms)) with (p m || existsb p ms).
  destruct (p m) eqn:Hp.
  - intros _. rewrite (Hdrop m Hp). simpl length. lia.
  - intros Hex. specialize (IH Hex). destruct (f m); simpl length; lia.
Qed.

(** What [extractMentions] does with one mention. *)
Definition kept (botOpenId : option string) (mention : MessageMention)
    : option MentionInfo :=
  if negb (Handler.truthyString (open_id mention))
     || (Handler.truthyString botOpenId && bool_decide (open_id mention = botOpenId))
  then None
  else Some {| infoName := name mention; openId := default "" (open_id mention) |}.

Lemma extractMentions_omap mentions botOpenId :
  extractMentions mentions botOpenId = omap (kept botOpenId) (default [] mentions).
Proof. by destruct mentions as [[|m ms]|]. Qed.

Lemma isBotMentioned_existsb mentions botOpenId :
  isBotMentioned mentions botOpenId
  = Handler.truthyString botOpenId
    && existsb (λ m, bool_decide (open_id m = botOpenId)) (default [] mentions).
Proof.
  destruct mentions as [[|m ms]|]; simpl; try by rewrite andb_false_r.
  by destruct (Handler.truthyString botOpenId).
Qed.

(** X17.  [extractMentions] returns, in their order, mentions that have a
    non-empty open id, and never the bot's own when the bot's id is known;
    when [isBotMentioned] holds, at least one mention is left out; and
    when the bot's id is unknown (undefined or empty), [isBotMentioned]
    is false whatever the mentions. *)
Theorem mentions_exclude_the_bot :
  ∀ (mentions : option (list MessageMention)) (botOpenId : option string),
    (∀ x, x ∈ extractMentions mentions botOpenId →
          openId x ≠ ""
          ∧ (Handler.truthyString botOpenId = true → Some (openId x) ≠ botOpenId))
    ∧ (isBotMentioned mentions botOpenId = true →
         (length (extractMentions mentions botOpenId)
          < length (default [] mentions))%nat)
    ∧ (Handler.truthyString botOpenId = false →
         isBotMentioned mentions botOpenId = false).
Proof.
  intros mentions botOpenId.
  rewrite extractMentions_omap, isBotMentioned_existsb. split; [|split].
  - intros x. rewrite list_elem_of_omap. intros (m0 & _ & Hm0).
    unfold kept in Hm0.
    destruct (open_id m0) as [o|] eqn:Ho; simpl in Hm0; [|done].
    case_bool_decide as Hempty; simpl in Hm0; [done|].
    destruct (Handler.truthyString botOpenId) eqn:Hbot; simpl in Hm0.
    + case_bool_decide as Hsame; [done|]. injection Hm0 as <-. simpl. done.
    + injection Hm0 as <-. simpl. done.
  - intros [Hbot Hex]%andb_true_iff.
    apply (existsb_count _ _ (λ m, bool_decide (open_id m = botOpenId))); [|done].
    intros m0 Hm0. apply bool_decide_eq_true in Hm0. unfold kept.
    rewrite Hm0, Hbot. simpl. by rewrite bool_decide_eq_true_2.
  - intros ->. done.
Qed.

End MentionFacts.

Module FileRefFacts.
Import FileRefs.

Lemma prefix_slash s : String.prefix "/" s = true → String.prefix "file://" s = false.
Proof.
  destruct s as [|a s]; [done|]. cbn [String.prefix]. intros H.
  match type of H with
  | context [Ascii.ascii_dec ?x a] => destruct (Ascii.ascii_dec x a) as [<-|]
  end; [|done].
  match goal with
  | |- context [Ascii.ascii_dec ?x ?y] => by destruct (Ascii.ascii_dec x y)
  end.
Qed.

Lemma prefix_dot s :
  String.prefix "./" s || String.prefix "../" s = true →
  String.prefix "file://" s = false.
Proof.
  destruct s as [|a s]; [done|]. cbn [String.prefix]. intros H.
  match type of H with
  | context [Ascii.ascii_dec ?x a] => destruct (Ascii.ascii_dec x a) as [<-|]
  end; [|done].
  match goal with
  | |- context [Ascii.ascii_dec ?x ?y] => by destruct (Ascii.ascii_dec x y)
  end.
Qed.

Lemma prefix_tilde s : String.prefix "~" s = true → String.prefix "file://" s = false.
Proof.
  destruct s as [|a s]; [done|]. cbn [String.prefix]. intros H.
  match type of H with
  | context [Ascii.ascii_dec ?x a] => destruct (Ascii.ascii_dec x a) as [<-|]
  end; [|done].
  match goal with
  | |- context [Ascii.ascii_dec ?x ?y] => by destruct (Ascii.ascii_dec x y)
  end.
Qed.

(** X18.  The path [fileUrlToPath] returns never starts with [file://],
    so converting twice is the same as converting once. *)
Theorem fileUrlToPath_strips_scheme :
  ∀ (fileUrl : string),
    String.prefix "file://" (fileUrlToPath fileUrl) = false
    ∧ fileUrlToPath (fileUrlToPath fileUrl) = fileUrlToPath fileUrl.
Proof.
  intros fileUrl.
  assert (H : String.prefix "file://" (fileUrlToPath fileUrl) = false).
  { unfold fileUrlToPath.
    destruct (String.prefix "file://" fileUrl) eqn:Hfile; [|done].
    destruct (String.prefix "/" (slice7 fileUrl)) eqn:H1; [by apply prefix_slash|].
    destruct (String.prefix "./" (slice7 fileUrl) || String.prefix "../" (slice7 fileUrl))
      eqn:H2; [by apply prefix_dot|].
    destruct (String.prefix "~" (slice7 fileUrl)) eqn:H3; [by apply prefix_tilde|].
    done. }
  split; [done|]. unfold fileUrlToPath at 1. by rewrite H.
Qed.

End FileRefFacts.

(* ===================================================================== *)
(** ** Further properties: the batcher's timers do not pile up *)
(* ===================================================================== *)

Module TimerFacts.
Import Batcher BatcherViews BatcherFacts BatcherMoreFacts.

Implicit Types (b : Batcher) (t : Timer) (st : ChatState).

(** Pending timers have distinct handles, all below the next one, and
    each is the one its state holds: an idle timer in the state its
    closure captured, a debounce timer in the state of its chat. *)
Record Tidy b : Prop := {
  td_nodup : NoDup (handle <$> timers b);
  td_fresh : ∀ t, t ∈ timers b → (handle t < nextHandle b)%nat;
  td_idle : ∀ t c r, t ∈ timers b → callback t = IdleTimeout c r →
    ∃ st, heap b !! r = Some st ∧ idleTimer st = Some (handle t);
  td_debounce : ∀ t c id, t ∈ timers b → callback t = DebounceTimeout c id →
    ∃ r st, mapGet c (chatStates b) = Some r ∧ heap b !! r = Some st
            ∧ debounceTimer st = Some (handle t);
}.

Lemma NoDup_handles_inj (l : list Timer) t1 t2 :
  NoDup (handle <$> l) → t1 ∈ l → t2 ∈ l → handle t1 = handle t2 → t1 = t2.
Proof.
  induction l as [|x l IH]; intros Hnd H1 H2 Heq; [by apply elem_of_nil in H1|].
  rewrite fmap_cons in Hnd. apply NoDup_cons in Hnd as [Hx Hnd].
  apply elem_of_cons in H1 as [->|H1]; apply elem_of_cons in H2 as [->|H2].
  - done.
  - destruct Hx. rewrite Heq. by apply list_elem_of_fmap_2.
  - destruct Hx. rewrite <- Heq. by apply list_elem_of_fmap_2.
  - by apply IH.
Qed.

(** [b'] has fewer timers than [b], and each state still holds the handles
    of the timers that remain. *)
Lemma Tidy_shrink b b' :
  Tidy b → timers b' `sublist_of` timers b → nextHandle b' = nextHandle b →
  chatStates b' = chatStates b →
  (∀ r st, heap b !! r = Some st →
     ∃ st', heap b' !! r = Some st'
       ∧ ∀ t, t ∈ timers b' →
           (idleTimer st = Some (handle t) → idleTimer st' = Some (handle t))
           ∧ (debounceTimer st = Some (handle t) → debounceTimer st' = Some (handle t))) →
  Tidy b'.
Proof.
  intros [Hnd Hfresh Hidle Hdeb] Hsub Hnext Hcs Hheap. split.
  - eapply sublist_NoDup; [done|]. by apply fmap_sublist.
  - intros t Hin. rewrite Hnext. by eapply Hfresh, elem_of_sublist.
  - intros t c r Hin Hcb.
    destruct (Hidle t c r (elem_of_sublist _ _ _ Hin Hsub) Hcb) as (st & Hst & Hh).
    destruct (Hheap r st Hst) as (st' & Hst' & Hkeep).
    exists st'. split; [done|]. by apply (Hkeep t Hin).
  - intros t c id Hin Hcb.
    destruct (Hdeb t c id (elem_of_sublist _ _ _ Hin Hsub) Hcb)
      as (r & st & Hget & Hst & Hh).
    destruct (Hheap r st Hst) as (st' & Hst' & Hkeep).
    exists r, st'. rewrite Hcs. split; [done|]. split; [done|].
    by apply (Hkeep t Hin).
Qed.

Lemma Tidy_same b b' :
  Tidy b → timers b' `sublist_of` timers b → nextHandle b' = nextHandle b →
  chatStates b' = chatStates b → heap b' = heap b → Tidy b'.
Proof.
  intros HT Hsub Hnext Hcs Hheap. apply (Tidy_shrink b); [done..|].
  intros r st Hst. exists st. by rewrite Hheap.
Qed.

Lemma Tidy_setState ref st st' b :
  Tidy b → heap b !! ref = Some st →
  idleTimer st' = idleTimer st → debounceTimer st' = debounceTimer st →
  Tidy (setState ref st' b).
Proof.
  intros HT Hst Hi Hd. apply (Tidy_shrink b); [done..|].
  intros r st0 Hst0. simpl. destruct (decide (r = ref)) as [->|Hne].
  - exists st'. rewrite list_lookup_insert_eq by (by eapply lookup_lt_Some).
    split; [done|]. intros t _. assert (st0 = st) as -> by congruence.
    by rewrite Hi, Hd.
  - exists st0. by rewrite list_lookup_insert_ne.
Qed.

Lemma Tidy_clearTimers ref b : Tidy b → Tidy (clearTimers ref b).
Proof.
  intros HT. destruct (clearTimers_frame ref b) as (_ & _ & Hcs & Hnext & _).
  apply (Tidy_shrink b); [done|apply clearTimers_sublist|done..|].
  intros r st Hst. rewrite clearTimers_lookup. case_decide as Hr.
  - subst. rewrite Hst. simpl. eexists. split; [done|].
    intros t Hin. destruct (clearTimers_removed _ _ _ _ Hst Hin). done.
  - eauto.
Qed.

Lemma Tidy_create startedAt now : Tidy (createChatBatcher startedAt now).
Proof.
  split; simpl.
  - constructor.
  - intros t Hin. by apply elem_of_nil in Hin.
  - intros t c r Hin. by apply elem_of_nil in Hin.
  - intros t c id Hin. by apply elem_of_nil in Hin.
Qed.

Lemma Tidy_getOrCreateState chat b : Tidy b → Tidy (getOrCreateState chat b).2.
Proof.
  intros [Hnd Hfresh Hidle Hdeb]. unfold getOrCreateState.
  destruct (mapGet chat (chatStates b)) as [ref|] eqn:Hget; [done|].
  split; simpl; [done..| |].
  - intros t c r Hin Hcb. destruct (Hidle t c r Hin Hcb) as (st & Hst & Hh).
    exists st. split; [by apply lookup_app_l_Some|done].
  - intros t c id Hin Hcb. destruct (Hdeb t c id Hin Hcb) as (r & st & Hc & Hst & Hh).
    exists r, st. rewrite mapGet_app, Hc. split; [done|].
    split; [by apply lookup_app_l_Some|done].
Qed.

(** A fresh timer is added for state [ref], which then holds its handle;
    the timer that state held in that field before is gone. *)
Lemma Tidy_arm b ts st st' ref cb delay :
  Tidy b → heap b !! ref = Some st →
  ts `sublist_of` timers b →
  (match cb with
   | IdleTimeout _ r =>
       r = ref ∧ idleTimer st' = Some (nextHandle b)
       ∧ debounceTimer st' = debounceTimer st
       ∧ ∀ t, t ∈ ts → idleTimer st ≠ Some (handle t)
   | DebounceTimeout c _ =>
       mapGet c (chatStates b) = Some ref
       ∧ debounceTimer st' = Some (nextHandle b)
       ∧ idleTimer st' = idleTimer st
       ∧ ∀ t, t ∈ ts → debounceTimer st ≠ Some (handle t)
   end) →
  Tidy {| startedAt := startedAt b; clock := clock b;
          heap := <[ref := st']> (heap b); chatStates := chatStates b;
          timers := ts ++ [{| handle := nextHandle b; deadline := clock b + delay;
                              callback := cb |}];
          nextHandle := S (nextHandle b); flushCallback := flushCallback b;
          calls := calls b |}.
Proof.
  intros [Hnd Hfresh Hidle Hdeb] Hst Hsub Hcb.
  assert (Hlt : (ref < length (heap b))%nat) by (by eapply lookup_lt_Some).
  assert (Hold : ∀ t, t ∈ ts → t ∈ timers b) by (intros t Ht; by eapply elem_of_sublist).
  split; simpl.
  - rewrite fmap_app. apply NoDup_app. split; [|split].
    + eapply sublist_NoDup; [done|]. by apply fmap_sublist.
    + intros h Hh Hnew. apply list_elem_of_fmap in Hh as (t & -> & Ht).
      simpl in Hnew. apply list_elem_of_singleton in Hnew.
      specialize (Hfresh t (Hold t Ht)). lia.
    + simpl. apply NoDup_singleton.
  - intros t. rewrite elem_of_app, list_elem_of_singleton.
    intros [Ht| ->]; [specialize (Hfresh t (Hold t Ht)); lia|simpl; lia].
  - intros t c r. rewrite elem_of_app, list_elem_of_singleton. intros [Ht| ->] Hcbt.
    + destruct (Hidle t c r (Hold t Ht) Hcbt) as (st0 & Hst0 & Hh).
      destruct (decide (r = ref)) as [->|Hne].
      * assert (st0 = st) as -> by congruence.
        rewrite list_lookup_insert_eq by done. exists st'. split; [done|].
        destruct cb as [c0 r0|c0 id0].
        -- destruct Hcb as (_ & _ & _ & Hgone). by destruct (Hgone t Ht).
        -- destruct Hcb as (_ & _ & -> & _). done.
      * exists st0. by rewrite list_lookup_insert_ne.
    + simpl in Hcbt. subst cb. destruct Hcb as (-> & Hi & _).
      exists st'. by rewrite list_lookup_insert_eq.
  - intros t c id. rewrite elem_of_app, list_elem_of_singleton. intros [Ht| ->] Hcbt.
    + destruct (Hdeb t c id (Hold t Ht) Hcbt) as (r & st0 & Hc & Hst0 & Hh).
      exists r. destruct (decide (r = ref)) as [->|Hne].
      * assert (st0 = st) as -> by congruence.
        rewrite list_lookup_insert_eq by done. exists st'. split; [done|]. split; [done|].
        destruct cb as [c0 r0|c0 id0].
        -- destruct Hcb as (_ & _ & -> & _). done.
        -- destruct Hcb as (_ & _ & _ & Hgone). by destruct (Hgone t Ht).
      * exists st0. by rewrite list_lookup_insert_ne.
    + simpl in Hcbt. subst cb. destruct Hcb as (Hc & Hd & _).
      exists ref, st'. by rewrite list_lookup_insert_eq.
Qed.

Lemma Tidy_startIdleTimer chat ref b : Tidy b → Tidy (startIdleTimer chat ref b).
Proof.
  intros HT. unfold startIdleTimer. destruct (heap b !! ref) as [st|] eqn:Hst; [|done].
  destruct (idleTimer st) as [h|] eqn:Hi; simpl.
  - apply (Tidy_arm b _ st _ ref (IdleTimeout chat ref) IDLE_THRESHOLD_MS);
      [done..|apply sublist_filter|].
    split; [done|]. split; [done|]. split; [done|].
    intros t Ht%list_elem_of_filter. rewrite Hi. intros [= ->]. by destruct Ht.
  - apply (Tidy_arm b _ st _ ref (IdleTimeout chat ref) IDLE_THRESHOLD_MS);
      [done..|]. split; [done|]. split; [done|]. split; [done|].
    intros t _. by rewrite Hi.
Qed.

Lemma Tidy_startDebounceTimer chat ref trigger b :
  Tidy b → mapGet chat (chatStates b) = Some ref →
  Tidy (startDebounceTimer chat ref trigger b).
Proof.
  intros HT Hget. unfold startDebounceTimer.
  destruct (heap b !! ref) as [st|] eqn:Hst; [|done].
  destruct (debounceTimer st) as [h|] eqn:Hd; simpl.
  - apply (Tidy_arm b _ st _ ref (DebounceTimeout chat trigger) DEBOUNCE_MS);
      [done..|apply sublist_filter|].
    split; [done|]. split; [done|]. split; [done|].
    intros t Ht%list_elem_of_filter. rewrite Hd. intros [= ->]. by destruct Ht.
  - apply (Tidy_arm b _ st _ ref (DebounceTimeout chat trigger) DEBOUNCE_MS);
      [done..|]. split; [done|]. split; [done|]. split; [done|].
    intros t _. by rewrite Hd.
Qed.

Lemma Tidy_push message b : Tidy b → Tidy (push message b).
Proof.
  intros HT. unfold push.
  pose proof (Tidy_getOrCreateState (chatId message) b HT) as HT1.
  destruct (getOrCreateState (chatId message) b) as [ref b1]. simpl in *.
  destruct (heap b1 !! ref) as [st|] eqn:Hst; [|done].
  apply Tidy_startIdleTimer. by apply (Tidy_setState ref st).
Qed.

Lemma Tidy_trigger chat id b : Tidy b → Tidy (trigger chat id b).
Proof.
  intros HT. unfold trigger.
  pose proof (Tidy_getOrCreateState chat b HT) as HT1.
  pose proof (getOrCreateState_lookup chat b) as Hget.
  destruct (getOrCreateState chat b) as [ref b1]. simpl in *.
  destruct (heap b1 !! ref) as [st|] eqn:Hst; [|done].
  apply Tidy_startDebounceTimer; [|done]. by apply (Tidy_setState ref st).
Qed.

Lemma Tidy_flush chat trigger b : Tidy b → Tidy (flush chat trigger b).
Proof.
  intros HT. unfold flush.
  destruct (capture chat trigger b) as [b1 [event|]] eqn:Hcap.
  - apply capture_Some in Hcap as (ref & st & _ & Hst & _ & _ & ->).
    assert (HT1 : Tidy (clearTimers ref (setState ref (reset st) b)))
      by (apply Tidy_clearTimers; by apply (Tidy_setState ref st)).
    destruct (invokeCallback_frame event (clearTimers ref (setState ref (reset st) b)))
      as (_ & _ & Hh & Hcs & Hts & Hnext & _).
    apply (Tidy_same _ _ HT1); [by rewrite Hts|done..].
  - by apply capture_None in Hcap as ->.
Qed.

Lemma Tidy_runCallback cb b : Tidy b → Tidy (runCallback cb b).
Proof.
  intros HT. destruct cb as [chat ref|chat trigger]; simpl.
  - destruct (heap b !! ref) as [st|]; [|done].
    destruct (hasTrigger st && negb (isInStartupPeriod b)); [|done].
    by apply Tidy_flush.
  - by apply Tidy_flush.
Qed.

Lemma Tidy_fire t b : Tidy b → Tidy (fire t b).
Proof.
  intros HT. unfold fire. apply Tidy_runCallback.
  apply (Tidy_same b); [done|apply clearTimeout_sublist|done..].
Qed.

Lemma Tidy_fireDue target : ∀ fuel b, Tidy b → Tidy (fireDue fuel target b).
Proof.
  induction fuel as [|fuel IH]; intros b HT; simpl; [done|].
  destruct (nextDue target (timers b)) as [t|]; [|done]. by apply IH, Tidy_fire.
Qed.

Lemma Tidy_clear chat b : Tidy b → Tidy (clear chat b).
Proof.
  intros HT. unfold clear.
  destruct (mapGet chat (chatStates b)) as [ref|] eqn:Hget; [|done].
  pose proof (Tidy_clearTimers ref b HT) as [Hnd Hfresh Hidle Hdeb].
  destruct (clearTimers_frame ref b) as (_ & _ & Hcs & _).
  split; simpl; [done..|].
  intros t c id Hin Hcb. destruct (Hdeb t c id Hin Hcb) as (r & st & Hc & Hst & Hh).
  exists r, st. split; [|done]. rewrite mapGet_delete. case_decide as Heq; [|done].
  subst c. rewrite Hcs, Hget in Hc. injection Hc as <-.
  rewrite clearTimers_lookup, decide_True in Hst by done.
  destruct (heap b !! ref); [|done]. by injection Hst as <-.
Qed.

Lemma Tidy_step b s : Held b → Tidy b → Tidy (step b s).
Proof.
  intros HH HT. destruct s; simpl.
  - by apply Tidy_push.
  - by apply Tidy_trigger.
  - by apply Tidy_clear.
  - split; rewrite ?(dispose_no_timers b HH).
    + constructor.
    + intros t Hin. by apply elem_of_nil in Hin.
    + intros t c r Hin. by apply elem_of_nil in Hin.
    + intros t c id Hin. by apply elem_of_nil in Hin.
  - by apply (Tidy_same b).
  - apply (Tidy_same (fireDue (length (timers b)) (clock b + ms) b));
      [by apply Tidy_fireDue|done..].
Qed.

Lemma Tidy_run script : ∀ b, Held b → Tidy b → Tidy (run script b).
Proof.
  induction script as [|s script IH]; intros b HH HT; simpl; [done|].
  apply IH; [by apply Held_step|by apply Tidy_step].
Qed.

(** X19.  Timers do not pile up: whatever is done to a batcher, a chat
    state never has two idle timers pending, a chat never has two debounce
    timers pending, and no two pending timers share a handle. *)
Theorem one_timer_of_each_kind :
  ∀ (script : list Step) (startedAt now : Z) (t1 t2 : Timer),
    t1 ∈ timers (run script (createChatBatcher startedAt now)) →
    t2 ∈ timers (run script (createChatBatcher startedAt now)) →
    (handle t1 = handle t2 → t1 = t2)
    ∧ (∀ c1 c2 r, callback t1 = IdleTimeout c1 r → callback t2 = IdleTimeout c2 r →
                  t1 = t2)
    ∧ (∀ c id1 id2, callback t1 = DebounceTimeout c id1 →
                    callback t2 = DebounceTimeout c id2 → t1 = t2).
Proof.
  intros script startedAt now t1 t2 H1 H2.
  pose proof (Tidy_run script _ (Held_create startedAt now) (Tidy_create startedAt now))
    as [Hnd Hfresh Hidle Hdeb].
  split; [by apply (NoDup_handles_inj _ _ _ Hnd H1 H2)|]. split.
  - intros c1 c2 r Hc1 Hc2.
    destruct (Hidle t1 c1 r H1 Hc1) as (st & Hst & Hh1).
    destruct (Hidle t2 c2 r H2 Hc2) as (st' & Hst' & Hh2).
    apply (NoDup_handles_inj _ _ _ Hnd H1 H2). congruence.
  - intros c id1 id2 Hc1 Hc2.
    destruct (Hdeb t1 c id1 H1 Hc1) as (r & st & Hget & Hst & Hh1).
    destruct (Hdeb t2 c id2 H2 Hc2) as (r' & st' & Hget' & Hst' & Hh2).
    apply (NoDup_handles_inj _ _ _ Hnd H1 H2). congruence.
Qed.

Lemma one_timer_of_each_kind_witness :
  {| handle := 2; deadline := 1000; callback := IdleTimeout "oc_1" 0 |}
    ∈ timers (run [Push (msg "oc_1" "m0"); Trigger "oc_1" "m0"; Push (msg "oc_1" "m1")]
               (createChatBatcher 0 0))
  ∧ {| handle := 1; deadline := 500; callback := DebounceTimeout "oc_1" "m0" |}
    ∈ timers (run [Push (msg "oc_1" "m0"); Trigger "oc_1" "m0"; Push (msg "oc_1" "m1")]
               (createChatBatcher 0 0))
  ∧ ((handle {| handle := 2; deadline := 1000; callback := IdleTimeout "oc_1" 0 |}
      = handle {| handle := 1; deadline := 500;
                  callback := DebounceTimeout "oc_1" "m0" |} →
      {| handle := 2; deadline := 1000; callback := IdleTimeout "oc_1" 0 |}
      = {| handle := 1; deadline := 500; callback := DebounceTimeout "oc_1" "m0" |})
     ∧ (∀ c1 c2 r,
          callback {| handle := 2; deadline := 1000;
                      callback := IdleTimeout "oc_1" 0 |} = IdleTimeout c1 r →
          callback {| handle := 1; deadline := 500;
                      callback := DebounceTimeout "oc_1" "m0" |} = IdleTimeout c2 r →
          {| handle := 2; deadline := 1000; callback := IdleTimeout "oc_1" 0 |}
          = {| handle := 1; deadline := 500;
               callback := DebounceTimeout "oc_1" "m0" |})
     ∧ (∀ c id1 id2,
          callback {| handle := 2; deadline := 1000;
                      callback := IdleTimeout "oc_1" 0 |} = DebounceTimeout c id1 →
          callback {| handle := 1; deadline := 500;
                      callback := DebounceTimeout "oc_1" "m0" |}
          = DebounceTimeout c id2 →
          {| handle := 2; deadline := 1000; callback := IdleTimeout "oc_1" 0 |}
          = {| handle := 1; deadline := 500;
               callback := DebounceTimeout "oc_1" "m0" |})).
Proof.
  assert (Hts : timers (run [Push (msg "oc_1" "m0"); Trigger "oc_1" "m0";
                             Push (msg "oc_1" "m1")] (createChatBatcher 0 0))
                = [{| handle := 1; deadline := 500;
                      callback := DebounceTimeout "oc_1" "m0" |};
                   {| handle := 2; deadline := 1000;
                      callback := IdleTimeout "oc_1" 0 |}])
    by (vm_compute; reflexivity).
  assert (H1 : {| handle := 2; deadline := 1000; callback := IdleTimeout "oc_1" 0 |}
               ∈ timers (run [Push (msg "oc_1" "m0"); Trigger "oc_1" "m0"; Push (msg "oc_1" "m1")]
               (createChatBatcher 0 0)))
    by (rewrite Hts; apply list_elem_of_further, list_elem_of_here).
  assert (H2 : {| handle := 1; deadline := 500;
                  callback := DebounceTimeout "oc_1" "m0" |}
               ∈ timers (run [Push (msg "oc_1" "m0"); Trigger "oc_1" "m0"; Push (msg "oc_1" "m1")]
               (createChatBatcher 0 0)))
    by (rewrite Hts; apply list_elem_of_here).
  split; [exact H1|]. split; [exact H2|].
  exact (one_timer_of_each_kind
           [Push (msg "oc_1" "m0"); Trigger "oc_1" "m0"; Push (msg "oc_1" "m1")]
           0 0 _ _ H1 H2).
Defined.

End TimerFacts.

(* ===================================================================== *)
(** ** The batcher's timing: what is flushed, and when *)
(* ===================================================================== *)

Module DeliveryFacts.
Import Batcher BatcherViews BatcherFacts BatcherMoreFacts TimerFacts.

Implicit Types (b : Batcher) (t : Timer) (st : ChatState).

(** *** Which state names which timer *)

(** [b'] is [b] with timers cancelled or fired and handle fields set to
    [undefined]; the map of chats and the handle counter are the same. *)
Record Shrinks b b' : Prop := {
  sh_timers : timers b' `sublist_of` timers b;
  sh_next : nextHandle b' = nextHandle b;
  sh_chats : chatStates b' = chatStates b;
  sh_heap : ∀ r st', heap b' !! r = Some st' →
    ∃ st, heap b !! r = Some st
          ∧ (idleTimer st' = None ∨ idleTimer st' = idleTimer st)
          ∧ (debounceTimer st' = None ∨ debounceTimer st' = debounceTimer st);
}.

Lemma Shrinks_same b b' :
  timers b' `sublist_of` timers b → nextHandle b' = nextHandle b →
  chatStates b' = chatStates b → heap b' = heap b → Shrinks b b'.
Proof.
  intros Hsub Hnext Hcs Hheap. split; [done..|].
  intros r st'. rewrite Hheap. intros Hst. exists st'. eauto.
Qed.

Lemma Shrinks_trans b1 b2 b3 : Shrinks b1 b2 → Shrinks b2 b3 → Shrinks b1 b3.
Proof.
  intros [Hts1 Hn1 Hc1 Hh1] [Hts2 Hn2 Hc2 Hh2]. split.
  - by etrans.
  - congruence.
  - congruence.
  - intros r st3 Hst3. destruct (Hh2 r st3 Hst3) as (st2 & Hst2 & Hi2 & Hd2).
    destruct (Hh1 r st2 Hst2) as (st1 & Hst1 & Hi1 & Hd1).
    exists st1. split; [done|]. split.
    + destruct Hi2 as [->| ->]; [by left|done].
    + destruct Hd2 as [->| ->]; [by left|done].
Qed.

Lemma Shrinks_setState ref st st' b :
  heap b !! ref = Some st →
  idleTimer st' = None ∨ idleTimer st' = idleTimer st →
  debounceTimer st' = None ∨ debounceTimer st' = debounceTimer st →
  Shrinks b (setState ref st' b).
Proof.
  intros Hst Hi Hd. split; [done..|]. intros r st0. simpl.
  destruct (decide (r = ref)) as [->|Hne].
  - rewrite list_lookup_insert_eq by (by eapply lookup_lt_Some).
    intros [= <-]. by exists st.
  - rewrite list_lookup_insert_ne by done. intros Hst0. exists st0. eauto.
Qed.

Lemma Shrinks_clearTimeout h b : Shrinks b (clearTimeout h b).
Proof. apply Shrinks_same; [apply clearTimeout_sublist|done..]. Qed.

Lemma Shrinks_clearTimers ref b : Shrinks b (clearTimers ref b).
Proof.
  destruct (clearTimers_frame ref b) as (_ & _ & Hcs & Hnext & _).
  split; [apply clearTimers_sublist|done..|].
  intros r st'. rewrite clearTimers_lookup.
  case_decide as Hr; [|intros Hst'; exists st'; eauto].
  subst. destruct (heap b !! ref) as [st|]; [|done]. simpl. intros [= <-].
  exists st. simpl. eauto.
Qed.

Lemma Shrinks_flush chat trigger b : Shrinks b (flush chat trigger b).
Proof.
  unfold flush. destruct (capture chat trigger b) as [b1 [event|]] eqn:Hcap.
  - apply capture_Some in Hcap as (ref & st & _ & Hst & _ & _ & ->).
    destruct (invokeCallback_frame event
                (clearTimers ref (setState ref (reset st) b)))
      as (_ & _ & Hh & Hcs & Hts & Hnext & _).
    eapply Shrinks_trans; [apply (Shrinks_setState ref st (reset st)); eauto|].
    eapply Shrinks_trans; [apply Shrinks_clearTimers|].
    apply Shrinks_same; [by rewrite Hts|done..].
  - apply capture_None in Hcap as ->. by apply Shrinks_same.
Qed.

Lemma Shrinks_runCallback cb b : Shrinks b (runCallback cb b).
Proof.
  destruct cb as [chat ref|chat trigger]; simpl.
  - destruct (heap b !! ref) as [st|]; [|by apply Shrinks_same].
    destruct (hasTrigger st && negb (isInStartupPeriod b));
      [apply Shrinks_flush|by apply Shrinks_same].
  - apply Shrinks_flush.
Qed.

Lemma Shrinks_fire t b : Shrinks b (fire t b).
Proof.
  unfold fire. eapply Shrinks_trans; [|apply Shrinks_runCallback].
  apply Shrinks_same; [apply clearTimeout_sublist|done..].
Qed.




(** A handle field never names a handle not yet given out; when it names
    a pending timer, that timer is the state's own timer of that kind;
    and an idle timer's closure holds the state of its chat. *)
Record Slots b : Prop := {
  sl_fresh : ∀ r st h, heap b !! r = Some st → holds st h →
                       (h < nextHandle b)%nat;
  sl_idle : ∀ t r st, t ∈ timers b → heap b !! r = Some st →
    idleTimer st = Some (handle t) → ∃ c, callback t = IdleTimeout c r;
  sl_debounce : ∀ t r st, t ∈ timers b → heap b !! r = Some st →
    debounceTimer st = Some (handle t) →
    ∃ c id, callback t = DebounceTimeout c id
            ∧ mapGet c (chatStates b) = Some r;
  sl_owner : ∀ t c r, t ∈ timers b → callback t = IdleTimeout c r →
    mapGet c (chatStates b) = Some r;
}.

Lemma Slots_shrink b b' : Slots b → Shrinks b b' → Slots b'.
Proof.
  intros [Hfresh Hidle Hdeb Hown] [Hts Hnext Hcs Hheap]. split.
  - intros r st' h Hst' Hh. rewrite Hnext.
    destruct (Hheap r st' Hst') as (st & Hst & Hi & Hd).
    apply (Hfresh r st h Hst). destruct Hh as [Hh|Hh].
    + left. destruct Hd as [Hd|Hd]; congruence.
    + right. destruct Hi as [Hi|Hi]; congruence.
  - intros t r st' Ht Hst' Hh.
    destruct (Hheap r st' Hst') as (st & Hst & Hi & _).
    apply (Hidle t r st); [by eapply elem_of_sublist|done|].
    destruct Hi as [Hi|Hi]; congruence.
  - intros t r st' Ht Hst' Hh. rewrite Hcs.
    destruct (Hheap r st' Hst') as (st & Hst & _ & Hd).
    apply (Hdeb t r st); [by eapply elem_of_sublist|done|].
    destruct Hd as [Hd|Hd]; congruence.
  - intros t c r Ht Hcb. rewrite Hcs. apply (Hown t); [|done].
    by eapply elem_of_sublist.
Qed.










(** What holds of every state a batcher reaches. *)
Record Sound b : Prop := {
  so_wf : Wf b;
  so_held : Held b;
  so_tidy : Tidy b;
  so_slots : Slots b;
}.




Lemma Sound_fire t b : Sound b → Sound (fire t b).
Proof.
  intros [HW HH HT HS]. split.
  - by apply fire_spec.
  - by apply Held_fire.
  - by apply Tidy_fire.
  - eapply Slots_shrink; [done|apply Shrinks_fire].
Qed.

(** *** Which chat a timer can flush *)








(** *** Inside the startup window an idle timer fires without effect *)







(** *** A pending timer whose closure will flush a chat *)







Section Flushing.

(** Chat [c], its state [r] holding the messages [buf], a pending timer
    [t] of that state, the callback and the calls made for [c] so far. *)
Variables (c : string) (r : nat) (buf : list ParsedMessage) (t : Timer).
Variables (cb : BatchFlushEvent → Settled).
Variables (before : list (BatchFlushEvent * Settled)) (limit : Z).

Hypothesis Hbuf : buf ≠ [].
Hypothesis Hof : callback t = IdleTimeout c r
                 ∨ ∃ id, callback t = DebounceTimeout c id.
Hypothesis Hlimit : deadline t <= limit.












End Flushing.

(** *** What [push] and [trigger] leave pending *)










(** *** Steps that never call the flush callback *)






(** *** The startup window *)



(** *** A pending timer flushes its chat by its deadline *)








(** *** Every state a batcher reaches *)










End DeliveryFacts.
